(** * Native MIDI playback on Linux (ALSA sequencer): a shallow embedding

  The development follows [src/codecs/native_midi/native_midi_linux_alsa.c].
  C integers are integers of [Z]; bytes are integers of [Z] in [0, 256).
  The player thread is a function from the answers of its environment
  (poll, read, the sequencer) to a new thread state and a trace of the
  calls it made; the control surface is a set of functions on a heap of
  songs; the two are composed in a labelled transition system. *)

From Stdlib Require Import ZArith List Bool Lia.
From Stdlib Require Ascii String.
From stdpp Require Import base gmap.
Import ListNotations.
Local Open Scope Z_scope.

(** ** Constants of the source and of the ALSA headers *)

Module Midi.

Definition MIDI_SMF_META_EVENT : Z := 0xFF.
Definition MIDI_SMF_META_TEMPO : Z := 0x51.

(* <alsa/asoundef.h> *)
Definition MIDI_CHANNELS : nat := 16.
Definition MIDI_CMD_NOTE_OFF : Z := 0x80.
Definition MIDI_CMD_NOTE_ON : Z := 0x90.
Definition MIDI_CMD_NOTE_PRESSURE : Z := 0xA0.
Definition MIDI_CMD_CONTROL : Z := 0xB0.
Definition MIDI_CMD_PGM_CHANGE : Z := 0xC0.
Definition MIDI_CMD_BENDER : Z := 0xE0.
Definition MIDI_CMD_COMMON_SYSEX : Z := 0xF0.
Definition MIDI_CMD_COMMON_SYSEX_END : Z := 0xF7.
Definition MIDI_CTL_SUSTAIN : Z := 0x40.
Definition MIDI_CTL_ALL_SOUNDS_OFF : Z := 0x78.
Definition MIDI_CTL_RESET_CONTROLLERS : Z := 0x79.
Definition MIDI_CTL_ALL_NOTES_OFF : Z := 0x7B.

(* <errno.h> *)
Definition EAGAIN : Z := 11.

(* <alsa/seq_event.h> *)
Definition SND_SEQ_CLIENT_SYSTEM : Z := 0.
Definition SND_SEQ_PORT_SYSTEM_TIMER : Z := 0.
Definition SND_SEQ_ADDRESS_UNKNOWN : Z := 253.
Definition SND_SEQ_ADDRESS_SUBSCRIBERS : Z := 254.

(** Unsigned 32-bit arithmetic ([Uint32], [unsigned]). *)
Definition wrap32 (z : Z) : Z := z mod 2 ^ 32.

(** [typedef enum { NATIVE_MIDI_STOPPED, ... } native_midi_state] *)
Inductive native_midi_state :=
| NATIVE_MIDI_STOPPED
| NATIVE_MIDI_STARTING
| NATIVE_MIDI_PLAYING
| NATIVE_MIDI_PAUSED.

(** The integer an enumerator stands for; [SDL_AtomicGet] returns it. *)
Definition state_val (s : native_midi_state) : Z :=
  match s with
  | NATIVE_MIDI_STOPPED => 0
  | NATIVE_MIDI_STARTING => 1
  | NATIVE_MIDI_PLAYING => 2
  | NATIVE_MIDI_PAUSED => 3
  end.

Definition state_eqb (a b : native_midi_state) : bool :=
  state_val a =? state_val b.

(** [typedef enum { THREAD_CMD_QUIT = 1, ... } native_midi_thread_cmd] *)
Definition THREAD_CMD_QUIT : Z := 1.
Definition THREAD_CMD_PAUSE : Z := 2.
Definition THREAD_CMD_RESUME : Z := 3.
Definition THREAD_CMD_SETVOL : Z := 4.

(** Fixed length command packets; the initialisers name the first byte
    only, the second one is zero. *)
Definition CMD_PKT_LEN : Z := 2.
Definition pkt_thread_cmd_quit : list Z := [THREAD_CMD_QUIT; 0].
Definition pkt_thread_cmd_pause : list Z := [THREAD_CMD_PAUSE; 0].
Definition pkt_thread_cmd_resume : list Z := [THREAD_CMD_RESUME; 0].

(** [MIDIEvent] of native_midi_common.h.  The linked list is a Rocq list
    ([next] is the tail, [NULL] the empty list); [extraData] is the
    buffer of [extraLen] bytes the parser allocated with the event. *)
Record MIDIEvent := {
  time : Z;              (* Uint32 *)
  status : Z;            (* Uint8 *)
  data_0 : Z;            (* Uint8 data[0] *)
  data_1 : Z;            (* Uint8 data[1] *)
  extraData : list Z     (* Uint8 *extraData *)
}.

Definition extraLen (e : MIDIEvent) : Z := Z.of_nat (length (extraData e)).

(** [extraData[i]]. *)
Definition extra (e : MIDIEvent) (i : nat) : Z := nth i (extraData e) 0.

Definition is_byte (b : Z) : Prop := 0 <= b < 256.

End Midi.
Export Midi.

(** ** The sequencer event and the macros of <alsa/seqmid.h> *)

Module Seq.

Record snd_seq_addr := { client : Z; port : Z }.

(** The event types the program sets or tests. *)
Inductive ev_type :=
| SND_SEQ_EVENT_SYSTEM            (* 0: the type left by snd_seq_ev_clear *)
| SND_SEQ_EVENT_NOTEON
| SND_SEQ_EVENT_NOTEOFF
| SND_SEQ_EVENT_KEYPRESS
| SND_SEQ_EVENT_CONTROLLER
| SND_SEQ_EVENT_PGMCHANGE
| SND_SEQ_EVENT_PITCHBEND
| SND_SEQ_EVENT_CONTINUE
| SND_SEQ_EVENT_STOP
| SND_SEQ_EVENT_SETPOS_TICK
| SND_SEQ_EVENT_TEMPO
| SND_SEQ_EVENT_ECHO
| SND_SEQ_EVENT_SYSEX
| SND_SEQ_EVENT_OTHER (n : Z).    (* any other type an incoming event has *)

Definition is_echo (t : ev_type) : bool :=
  match t with SND_SEQ_EVENT_ECHO => true | _ => false end.

(** The [data] union, by the member the last macro wrote. *)
Inductive ev_data :=
| DataNone                                      (* all zero *)
| DataNote (channel note velocity : Z)          (* data.note *)
| DataControl (channel param value : Z)         (* data.control, all fields *)
| DataChannelValue (channel value : Z)          (* data.control: channel and value only *)
| DataQueueValue (q value : Z)                  (* data.queue, param.value *)
| DataQueueTick (q tick : Z)                    (* data.queue, param.time.tick *)
| DataExt (bytes : list Z).                     (* data.ext: len and ptr *)

(** Where an event is scheduled: [ev->queue]. *)
Inductive ev_queue :=
| QueueUnset                      (* 0 after snd_seq_ev_clear *)
| QueueDirect                     (* SND_SEQ_QUEUE_DIRECT *)
| QueueTick (q tick : Z).         (* snd_seq_ev_schedule_tick(ev, q, 0, tick) *)

Record snd_seq_event := {
  type : ev_type;
  sched : ev_queue;
  source : snd_seq_addr;
  dest : snd_seq_addr;
  data : ev_data
}.

Definition set_type (t : ev_type) (ev : snd_seq_event) : snd_seq_event :=
  {| type := t; sched := sched ev; source := source ev; dest := dest ev; data := data ev |}.
Definition set_sched (s : ev_queue) (ev : snd_seq_event) : snd_seq_event :=
  {| type := type ev; sched := s; source := source ev; dest := dest ev; data := data ev |}.
Definition set_data (d : ev_data) (ev : snd_seq_event) : snd_seq_event :=
  {| type := type ev; sched := sched ev; source := source ev; dest := dest ev; data := d |}.

(** [snd_seq_ev_clear]: memset to zero. *)
Definition snd_seq_ev_clear : snd_seq_event :=
  {| type := SND_SEQ_EVENT_SYSTEM; sched := QueueUnset;
     source := {| client := 0; port := 0 |};
     dest := {| client := 0; port := 0 |}; data := DataNone |}.

(** [snd_seq_ev_set_source(ev, p)]: only the port is written. *)
Definition snd_seq_ev_set_source (p : Z) (ev : snd_seq_event) : snd_seq_event :=
  {| type := type ev; sched := sched ev;
     source := {| client := client (source ev); port := p |};
     dest := dest ev; data := data ev |}.

Definition snd_seq_ev_set_dest (c p : Z) (ev : snd_seq_event) : snd_seq_event :=
  {| type := type ev; sched := sched ev; source := source ev;
     dest := {| client := c; port := p |}; data := data ev |}.

Definition snd_seq_ev_set_direct (ev : snd_seq_event) : snd_seq_event :=
  set_sched QueueDirect ev.

(** The queue fields of an event, [ev->queue] and [ev->data.queue.queue],
    are [unsigned char]: the macros below assign an [int] to them, which
    keeps its low eight bits (a queue id -1 is stored as 255). *)
Definition queue_id (q : Z) : Z := q mod 256.
Arguments queue_id : simpl never.

(** [snd_seq_ev_schedule_tick(ev, q, 0, tick)], absolute time. *)
Definition snd_seq_ev_schedule_tick (q tick : Z) (ev : snd_seq_event) : snd_seq_event :=
  set_sched (QueueTick (queue_id q) tick) ev.

Definition snd_seq_ev_set_noteon (ch key vel : Z) (ev : snd_seq_event) :=
  set_data (DataNote ch key vel) (set_type SND_SEQ_EVENT_NOTEON ev).
Definition snd_seq_ev_set_noteoff (ch key vel : Z) (ev : snd_seq_event) :=
  set_data (DataNote ch key vel) (set_type SND_SEQ_EVENT_NOTEOFF ev).
Definition snd_seq_ev_set_keypress (ch key vel : Z) (ev : snd_seq_event) :=
  set_data (DataNote ch key vel) (set_type SND_SEQ_EVENT_KEYPRESS ev).
Definition snd_seq_ev_set_controller (ch cc val : Z) (ev : snd_seq_event) :=
  set_data (DataControl ch cc val) (set_type SND_SEQ_EVENT_CONTROLLER ev).
Definition snd_seq_ev_set_pgmchange (ch val : Z) (ev : snd_seq_event) :=
  set_data (DataChannelValue ch val) (set_type SND_SEQ_EVENT_PGMCHANGE ev).
Definition snd_seq_ev_set_pitchbend (ch val : Z) (ev : snd_seq_event) :=
  set_data (DataChannelValue ch val) (set_type SND_SEQ_EVENT_PITCHBEND ev).
Definition snd_seq_ev_set_sysex (bytes : list Z) (ev : snd_seq_event) :=
  set_data (DataExt bytes) (set_type SND_SEQ_EVENT_SYSEX ev).

(** [snd_seq_ev_set_queue_control(ev, typ, q, val)]: the destination
    becomes the system timer port. *)
Definition snd_seq_ev_set_queue_control (typ : ev_type) (q val : Z) (ev : snd_seq_event) :=
  set_data (DataQueueValue (queue_id q) val)
    (snd_seq_ev_set_dest SND_SEQ_CLIENT_SYSTEM SND_SEQ_PORT_SYSTEM_TIMER (set_type typ ev)).
Definition snd_seq_ev_set_queue_tempo (q val : Z) (ev : snd_seq_event) :=
  snd_seq_ev_set_queue_control SND_SEQ_EVENT_TEMPO q val ev.
Definition snd_seq_ev_set_queue_pos_tick (q tick : Z) (ev : snd_seq_event) :=
  set_data (DataQueueTick (queue_id q) tick)
    (snd_seq_ev_set_dest SND_SEQ_CLIENT_SYSTEM SND_SEQ_PORT_SYSTEM_TIMER
       (set_type SND_SEQ_EVENT_SETPOS_TICK ev)).

(** What the player thread asks of its environment, in program order.
    [ret] is what the call answered. *)
Inductive action :=
| AllocQueue (q : Z)                       (* snd_seq_alloc_named_queue *)
| StartQueue (q : Z)                       (* snd_seq_start_queue *)
| PollDescriptors                          (* snd_seq_poll_descriptors *)
| Nonblock (on : bool)                     (* snd_seq_nonblock *)
| SetQueueTempo (q tempo ppq : Z)          (* snd_seq_set_queue_tempo *)
| Output (ev : snd_seq_event) (ret : Z)    (* snd_seq_event_output *)
| OutputSpin (ev : snd_seq_event) (again : nat) (ret : Z)
    (* while (snd_seq_event_output(seq, &ev) == -EAGAIN) ;
       [again] calls answered -EAGAIN, the next one answered [ret] *)
| OutputDirect (ev : snd_seq_event)        (* snd_seq_event_output_direct *)
| DrainOutput                              (* snd_seq_drain_output *)
| DropOutput                               (* snd_seq_drop_output *)
| StopQueue (q : Z)                        (* snd_seq_stop_queue *)
| FreeQueue (q : Z)                        (* snd_seq_free_queue *)
| SetState (s : native_midi_state)         (* SDL_AtomicSet(&song->playerstate, s) *)
| DbgLog (unhandled : bool) (e : MIDIEvent). (* MIDIDbgLog of a consumed event *)

End Seq.
Export Seq.

(** ** The song *)

Module Song.

(** [struct _NativeMidiSong].  [playerthread] is the handle
    [SDL_CreateThread] returned, [None] for [NULL]; [seq] stands for the
    sequencer handle through its client id, [snd_seq_client_id(song->seq)];
    [playerstate] is the atomic cell, holding a [native_midi_state]. *)
Record NativeMidiSong := {
  playerthread : option nat;
  mainsock : Z;
  threadsock : Z;
  ppqn : Z;                       (* Uint16 *)
  evtlist : list MIDIEvent;
  seq : Z;
  srcport : Z;
  dstaddr : snd_seq_addr;
  loopcount : Z;                  (* int *)
  endtime : Z;                    (* Uint32 *)
  playerstate : native_midi_state;
  allow_pause : bool
}.

Definition set_playerthread (t : option nat) (s : NativeMidiSong) : NativeMidiSong :=
  {| playerthread := t; mainsock := mainsock s; threadsock := threadsock s;
     ppqn := ppqn s; evtlist := evtlist s; seq := seq s; srcport := srcport s;
     dstaddr := dstaddr s; loopcount := loopcount s; endtime := endtime s;
     playerstate := playerstate s; allow_pause := allow_pause s |}.

Definition set_loopcount (n : Z) (s : NativeMidiSong) : NativeMidiSong :=
  {| playerthread := playerthread s; mainsock := mainsock s; threadsock := threadsock s;
     ppqn := ppqn s; evtlist := evtlist s; seq := seq s; srcport := srcport s;
     dstaddr := dstaddr s; loopcount := n; endtime := endtime s;
     playerstate := playerstate s; allow_pause := allow_pause s |}.

(** [SDL_AtomicSet(&song->playerstate, v)] *)
Definition set_playerstate (v : native_midi_state) (s : NativeMidiSong) : NativeMidiSong :=
  {| playerthread := playerthread s; mainsock := mainsock s; threadsock := threadsock s;
     ppqn := ppqn s; evtlist := evtlist s; seq := seq s; srcport := srcport s;
     dstaddr := dstaddr s; loopcount := loopcount s; endtime := endtime s;
     playerstate := v; allow_pause := allow_pause s |}.

(** The tail scan of [native_midi_loadsong_RW]:
    [while (end->next) end = end->next;  song->endtime = end->time]. *)
Fixpoint last_time (e : MIDIEvent) (next : list MIDIEvent) : Z :=
  match next with
  | [] => time e
  | e' :: next' => last_time e' next'
  end.

(** What the collaborators of [native_midi_loadsong_RW] answer:
    [CreateMIDIEventList] (the list and the ppqn; an empty list is its
    [NULL]), [socketpair], [open_seq] and [pick_seq_dest_addr], and the
    hint SDL_NATIVE_MUSIC_ALLOW_PAUSE. *)
Record load_env := {
  le_sockets : option (Z * Z);
  le_events : list MIDIEvent;
  le_ppqn : Z;
  le_seq : option (Z * Z);        (* client id and source port *)
  le_dstaddr : snd_seq_addr;
  le_allow_pause : bool
}.

(** [native_midi_loadsong_RW], up to the assignment of [currentsong]. *)
Definition loadsong (env : load_env) : option NativeMidiSong :=
  match le_sockets env with
  | None => None
  | Some (sv0, sv1) =>
    match le_events env with
    | [] => None
    | e :: next =>
      match le_seq env with
      | None => None
      | Some (cl, sp) =>
        Some {| playerthread := None; mainsock := sv0; threadsock := sv1;
                ppqn := le_ppqn env; evtlist := e :: next; seq := cl; srcport := sp;
                dstaddr := le_dstaddr env; loopcount := 0;
                endtime := last_time e next;
                playerstate := NATIVE_MIDI_STOPPED;
                allow_pause := le_allow_pause env |}
      end
    end
  end.

End Song.
Export Song.

(** ** The playback thread *)

Module Player.

(** The locals of [native_midi_player_thread] and the song it was given;
    [trace] collects the calls made so far, oldest first. *)
Record player := {
  song : NativeMidiSong;
  current_volume : Z;             (* unsigned char *)
  playback_finished : bool;
  event : list MIDIEvent;         (* the cursor; [] is NULL *)
  queue : Z;
  evt : snd_seq_event;            (* the main sequencer event *)
  pollout : bool;                 (* POLLOUT in pfds[1].events *)
  trace : list action
}.

Definition set_song (s : NativeMidiSong) (p : player) : player :=
  {| song := s; current_volume := current_volume p;
     playback_finished := playback_finished p; event := event p; queue := queue p;
     evt := evt p; pollout := pollout p; trace := trace p |}.
Definition set_current_volume (v : Z) (p : player) : player :=
  {| song := song p; current_volume := v;
     playback_finished := playback_finished p; event := event p; queue := queue p;
     evt := evt p; pollout := pollout p; trace := trace p |}.
Definition set_playback_finished (b : bool) (p : player) : player :=
  {| song := song p; current_volume := current_volume p;
     playback_finished := b; event := event p; queue := queue p;
     evt := evt p; pollout := pollout p; trace := trace p |}.
Definition set_event (l : list MIDIEvent) (p : player) : player :=
  {| song := song p; current_volume := current_volume p;
     playback_finished := playback_finished p; event := l; queue := queue p;
     evt := evt p; pollout := pollout p; trace := trace p |}.
Definition set_evt (ev : snd_seq_event) (p : player) : player :=
  {| song := song p; current_volume := current_volume p;
     playback_finished := playback_finished p; event := event p; queue := queue p;
     evt := ev; pollout := pollout p; trace := trace p |}.
Definition set_pollout (b : bool) (p : player) : player :=
  {| song := song p; current_volume := current_volume p;
     playback_finished := playback_finished p; event := event p; queue := queue p;
     evt := evt p; pollout := b; trace := trace p |}.
Definition set_trace (l : list action) (p : player) : player :=
  {| song := song p; current_volume := current_volume p;
     playback_finished := playback_finished p; event := event p; queue := queue p;
     evt := evt p; pollout := pollout p; trace := l |}.
Definition emit (l : list action) (p : player) : player :=
  {| song := song p; current_volume := current_volume p;
     playback_finished := playback_finished p; event := event p; queue := queue p;
     evt := evt p; pollout := pollout p; trace := trace p ++ l |}.

(** [SDL_AtomicSet(&song->playerstate, v)], seen in the trace too. *)
Definition atomic_set (v : native_midi_state) (p : player) : player :=
  emit [SetState v] (set_song (set_playerstate v (song p)) p).

(** The event [enqueue_echo_event] builds. [song->endtime + 1] is
    computed on [Uint32]. *)
Definition echo_event (s : NativeMidiSong) (q : Z) : snd_seq_event :=
  snd_seq_ev_schedule_tick q (wrap32 (endtime s + 1))
    (snd_seq_ev_set_dest (seq s) (srcport s)
       (snd_seq_ev_set_source (srcport s)
          (set_type SND_SEQ_EVENT_ECHO snd_seq_ev_clear))).

Definition enqueue_echo_event (s : NativeMidiSong) (q : Z) (again : nat) (ret : Z)
  : list action :=
  [OutputSpin (echo_event s q) again ret].

Definition queue_reset_event (s : NativeMidiSong) (q : Z) : snd_seq_event :=
  snd_seq_ev_schedule_tick q 0
    (snd_seq_ev_set_queue_pos_tick q 0
       (snd_seq_ev_set_source (srcport s) snd_seq_ev_clear)).

Definition enqueue_queue_reset_event (s : NativeMidiSong) (q : Z) (again : nat) (ret : Z)
  : list action :=
  [OutputSpin (queue_reset_event s q) again ret].

Definition vol_sysex (vol : Z) : list Z :=
  [MIDI_CMD_COMMON_SYSEX; 0x7F; 0x7F; 0x04; 0x01; 0x00; vol; MIDI_CMD_COMMON_SYSEX_END].

Definition volume_event (s : NativeMidiSong) (vol : Z) : snd_seq_event :=
  snd_seq_ev_set_sysex (vol_sysex vol)
    (snd_seq_ev_set_direct
       (snd_seq_ev_set_dest (client (dstaddr s)) (port (dstaddr s))
          (snd_seq_ev_set_source (srcport s) snd_seq_ev_clear))).

Definition send_volume_sysex (s : NativeMidiSong) (vol : Z) : list action :=
  [OutputDirect (volume_event s vol)].

Definition queue_control_event (typ : ev_type) (q : Z) : snd_seq_event :=
  snd_seq_ev_set_direct (snd_seq_ev_set_queue_control typ q 0 snd_seq_ev_clear).

Definition stop_queue (q : Z) : list action :=
  [OutputDirect (queue_control_event SND_SEQ_EVENT_STOP q)].

Definition continue_queue (q : Z) : list action :=
  [OutputDirect (queue_control_event SND_SEQ_EVENT_CONTINUE q)].

(** What the environment answers before the loop is entered. *)
Record setup_env := {
  se_queue : Z;                   (* snd_seq_alloc_named_queue *)
  se_echo_again : nat;            (* the first sentinel: answers -EAGAIN ... *)
  se_echo_ret : Z                 (* ... and the answer that ends the busy loop *)
}.

(** Lines 438 to 470: everything before [while (1)]. *)
Definition setup (s : NativeMidiSong) (env : setup_env) : player :=
  let q := se_queue env in
  let p0 :=
    {| song := s; current_volume := 0x7F; playback_finished := false;
       event := evtlist s; queue := q;
       evt := snd_seq_ev_set_dest (client (dstaddr s)) (port (dstaddr s))
                (snd_seq_ev_set_source (srcport s) snd_seq_ev_clear);
       pollout := true;
       trace := [AllocQueue q; StartQueue q; PollDescriptors; Nonblock true;
                 SetQueueTempo q 500000 (ppqn s)] |} in
  atomic_set NATIVE_MIDI_PLAYING
    (emit (enqueue_echo_event s q (se_echo_again env) (se_echo_ret env)) p0).

(** What the environment answers during one turn of the loop.  An answer
    is read only where the program asks for it. *)
Record wake_input := {
  poll_ret : Z;                   (* poll(pfds, 2, -1) *)
  cmdsock_in : bool;              (* pfds[0].revents & POLLIN *)
  read_ret : Z;                   (* read(song->threadsock, readbuf, 2) *)
  readbuf_0 : Z;                  (* unsigned char *)
  readbuf_1 : Z;                  (* unsigned char *)
  alsa_in : bool;                 (* pfds[1].revents & POLLIN *)
  input_ret : Z;                  (* snd_seq_event_input *)
  revt : snd_seq_event;           (* the event it delivered *)
  alsa_out : bool;                (* pfds[1].revents & POLLOUT *)
  drain_ret : Z;                  (* snd_seq_drain_output *)
  reset_again : nat;              (* retries of the queue reset ... *)
  reset_ret : Z;
  echo_again : nat;               (* ... and of the new sentinel *)
  echo_ret : Z;
  output_ret : Z                  (* snd_seq_event_output of the MIDI event *)
}.

(** The [switch] on [readbuf[0]], lines 484 to 508. *)
Definition command (p : player) (op operand : Z) : player :=
  if op =? THREAD_CMD_QUIT then
    set_playback_finished true
      (set_song (set_loopcount 0 (song p)) (set_event [] p))
  else if op =? THREAD_CMD_SETVOL then
    emit (send_volume_sysex (song p) operand) (set_current_volume operand p)
  else if op =? THREAD_CMD_PAUSE then
    atomic_set NATIVE_MIDI_PAUSED
      (emit (send_volume_sysex (song p) 0 ++ stop_queue (queue p)) p)
  else if op =? THREAD_CMD_RESUME then
    atomic_set NATIVE_MIDI_PLAYING
      (emit (continue_queue (queue p) ++ send_volume_sysex (song p) (current_volume p)) p)
  else p.

(** The test of line 516: an echo event that came from this client and
    this port. *)
Definition own_echo (s : NativeMidiSong) (ret : Z) (r : snd_seq_event) : bool :=
  (0 <=? ret) && is_echo (type r)
  && (client (source r) =? seq s) && (port (source r) =? srcport s).

(** The [switch (cmd)] of lines 566 to 606: the event to send and
    whether the MIDI event is unhandled. *)
Definition translate (q : Z) (e : MIDIEvent) (ev : snd_seq_event) : snd_seq_event * bool :=
  let cmd := Z.land (status e) 0xF0 in
  let channel := Z.land (status e) 0x0F in
  if cmd =? MIDI_CMD_NOTE_ON then
    (snd_seq_ev_set_noteon channel (data_0 e) (data_1 e) ev, false)
  else if cmd =? MIDI_CMD_NOTE_OFF then
    (snd_seq_ev_set_noteoff channel (data_0 e) (data_1 e) ev, false)
  else if cmd =? MIDI_CMD_CONTROL then
    (snd_seq_ev_set_controller channel (data_0 e) (data_1 e) ev, false)
  else if cmd =? MIDI_CMD_NOTE_PRESSURE then
    (snd_seq_ev_set_keypress channel (data_0 e) (data_1 e) ev, false)
  else if cmd =? MIDI_CMD_PGM_CHANGE then
    (snd_seq_ev_set_pgmchange channel (data_0 e) ev, false)
  else if cmd =? MIDI_CMD_BENDER then
    (snd_seq_ev_set_pitchbend channel
       (Z.lor (Z.shiftl (data_1 e) 7) (Z.land (data_0 e) 0x7F) - 8192) ev, false)
  else if (status e =? MIDI_SMF_META_EVENT)
          && (data_0 e =? MIDI_SMF_META_TEMPO) && (extraLen e =? 3) then
    let t := Z.lor (Z.lor (wrap32 (Z.shiftl (extra e 0) 16))
                          (wrap32 (Z.shiftl (extra e 1) 8)))
                   (extra e 2) in
    (snd_seq_ev_set_queue_tempo q t ev, false)
  else (ev, true).

(** Lines 561 and 562: the main event with destination and tick set
    anew for the MIDI event [e]. *)
Definition addressed (p : player) (e : MIDIEvent) : snd_seq_event :=
  snd_seq_ev_schedule_tick (queue p) (time e)
    (snd_seq_ev_set_dest (client (dstaddr (song p))) (port (dstaddr (song p))) (evt p)).

(** Lines 558 to 612 for the event under the cursor. *)
Definition process (p : player) (e : MIDIEvent) (next : list MIDIEvent) (ret : Z) : player :=
  let (ev1, unhandled) := translate (queue p) e (addressed p e) in
  if unhandled then
    set_event next (emit [DbgLog true e] (set_evt ev1 p))
  else if ret =? - EAGAIN then
    emit [Output ev1 ret] (set_evt ev1 p)
  else
    set_event next (emit [Output ev1 ret; DbgLog false e] (set_evt ev1 p)).

Inductive outcome :=
| Continue                        (* the loop goes round again *)
| Break                           (* the loop is left *)
| Fault.                          (* event->status with event == NULL *)

(** Lines 553 to 612. *)
Definition send (p : player) (w : wake_input) : player * outcome :=
  if negb (alsa_out w) then (p, Continue)
  else
    match event p with
    | [] => (p, Fault)
    | e :: next => (process p e next (output_ret w), Continue)
    end.

(** Lines 529 to 542: roll the list back and arm a new sentinel. *)
Definition rewind (p : player) (w : wake_input) : player :=
  let s := song p in
  let p1 := set_event (evtlist s) p in
  let p2 := emit (enqueue_queue_reset_event s (queue p) (reset_again w) (reset_ret w)) p1 in
  let p3 := emit (enqueue_echo_event s (queue p) (echo_again w) (echo_ret w)) p2 in
  let p4 := if 0 <? loopcount s
            then set_song (set_loopcount (loopcount s - 1) s) p3 else p3 in
  set_pollout true (set_playback_finished false p4).

(** Lines 480 to 510: at most one command is read and carried out. *)
Definition after_command (p : player) (w : wake_input) : player :=
  if cmdsock_in w && (read_ret w =? CMD_PKT_LEN)
  then command p (readbuf_0 w) (readbuf_1 w) else p.

(** Lines 513 to 518: an incoming event is accepted. *)
Definition after_input (p : player) (w : wake_input) : player :=
  if alsa_in w && own_echo (song p) (input_ret w) (revt w)
  then set_playback_finished true p else p.

(** One turn of [while (1)], lines 472 to 613. *)
Definition wake (p : player) (w : wake_input) : player * outcome :=
  if poll_ret w <=? 0 then (p, Break)
  else
    let p2 := after_input (after_command p w) w in
    match event p2 with
    | _ :: _ => send p2 w
    | [] =>
      if playback_finished p2 then
        if loopcount (song p2) =? 0 then (p2, Break)
        else send (rewind p2 w) w
      else
        let p3 := emit [DrainOutput] p2 in
        (if drain_ret w =? 0 then set_pollout false p3 else p3, Continue)
    end.

(** The four controller messages of lines 628 to 635 for channel [i],
    each built on the event the one before left. *)
Definition silence (i : Z) (ev : snd_seq_event) : list snd_seq_event :=
  [snd_seq_ev_set_controller i MIDI_CTL_SUSTAIN 0 ev;
   snd_seq_ev_set_controller i MIDI_CTL_ALL_NOTES_OFF 0 ev;
   snd_seq_ev_set_controller i MIDI_CTL_RESET_CONTROLLERS 0 ev;
   snd_seq_ev_set_controller i MIDI_CTL_ALL_SOUNDS_OFF 0 ev].

(** The cleanup sequence, lines 617 to 636. *)
Definition cleanup (p : player) : list action :=
  [Nonblock false; DropOutput; StopQueue (queue p); DrainOutput; FreeQueue (queue p)]
  ++ map OutputDirect
       (flat_map (fun i => silence i (snd_seq_ev_set_direct (evt p)))
                 (seqZ 0 (Z.of_nat MIDI_CHANNELS))).

(** Lines 615 to 639: what the thread does once the loop is left. *)
Definition teardown (p : player) : player :=
  let p1 := atomic_set NATIVE_MIDI_STOPPED p in
  set_evt (snd_seq_ev_set_controller 15 MIDI_CTL_ALL_SOUNDS_OFF 0
             (snd_seq_ev_set_direct (evt p)))
          (emit (cleanup p) p1).

(** How far a thread got on the answers it was given. *)
Inductive run :=
| Running (p : player)            (* still in the loop, waiting in poll *)
| Returned (p : player)           (* the thread function returned 0 *)
| Faulted (p : player).           (* it dereferenced a NULL cursor *)

Fixpoint loop (p : player) (ws : list wake_input) : run :=
  match ws with
  | [] => Running p
  | w :: ws' =>
    match wake p w with
    | (p', Continue) => loop p' ws'
    | (p', Break) => Returned (teardown p')
    | (p', Fault) => Faulted p'
    end
  end.

(** [native_midi_player_thread(song)] against the answers [env], [ws]. *)
Definition native_midi_player_thread
           (s : NativeMidiSong) (env : setup_env) (ws : list wake_input) : run :=
  loop (setup s env) ws.

Definition run_player (r : run) : player :=
  match r with Running p | Returned p | Faulted p => p end.

Definition returned (r : run) : bool :=
  match r with Returned _ => true | _ => false end.

Definition faulted (r : run) : bool :=
  match r with Faulted _ => true | _ => false end.

End Player.
Export Player.

(** ** The control surface *)

Module Control.

(** Songs live in a heap; a pointer is a location, and a location outside
    the heap is [NULL] (songs are not freed here).  [currentsong] is the
    file-scope variable of the source. *)
Record world := {
  heap : gmap nat NativeMidiSong;
  currentsong : option nat
}.

Definition deref (w : world) (ptr : option nat) : option NativeMidiSong :=
  match ptr with
  | None => None
  | Some l => heap w !! l
  end.

Definition store (l : nat) (s : NativeMidiSong) (w : world) : world :=
  {| heap := <[l := s]> (heap w); currentsong := currentsong w |}.

(** What a control call asks of its environment. *)
Inductive ctl_action :=
| CtlWrite (sock : Z) (pkt : list Z) (ret : Z)   (* write(sock, pkt, CMD_PKT_LEN) *)
| CtlWaitThread (t : nat)                        (* SDL_WaitThread(t, NULL) *)
| CtlCreateThread (l : nat) (ret : option nat).  (* SDL_CreateThread(native_midi_player_thread, ..., song) *)

(** The rest of a call that waits in [SDL_WaitThread]. *)
Inductive pending :=
| PendingStart (l : nat) (loops : Z)             (* native_midi_start, from line 654 *)
| PendingStop (l : nat).                         (* native_midi_stop, line 696 *)

(** A control call either returns, leaving a world and the actions it
    made, or makes some actions and then waits for thread [t] to end;
    [Undefined] is a dereference of [NULL]. *)
Inductive call :=
| Ret (w : world) (acts : list ctl_action)
| Join (t : nat) (acts : list ctl_action) (rest : pending)
| Undefined.

(** Lines 654 to 659; [created] is what [SDL_CreateThread] answers. *)
Definition start_thread (w : world) (l : nat) (loops : Z) (created : option nat)
  : world * list ctl_action :=
  match heap w !! l with
  | None => (w, [])
  | Some s =>
    let s1 := set_loopcount loops s in
    let s2 := set_playerstate NATIVE_MIDI_STARTING s1 in
    (store l (set_playerthread created s2) w, [CtlCreateThread l created])
  end.

(** [native_midi_start(song, loops)]; [wr] is what [write] answers. *)
Definition native_midi_start (w : world) (song : option nat) (loops : Z)
           (wr : Z) (created : option nat) : call :=
  match song with
  | None => Ret w []
  | Some l =>
    match heap w !! l with
    | None => Ret w []
    | Some s =>
      match playerthread s with
      | Some t =>
        match deref w (currentsong w) with
        | None => Undefined
        | Some cur =>
          if state_val NATIVE_MIDI_STOPPED <? state_val (playerstate cur) then
            if negb (wr =? CMD_PKT_LEN)
            then Ret w [CtlWrite (mainsock s) pkt_thread_cmd_quit wr]
            else Join t [CtlWrite (mainsock s) pkt_thread_cmd_quit wr] (PendingStart l loops)
          else Join t [] (PendingStart l loops)
        end
      | None =>
        let (w', acts) := start_thread w l loops created in Ret w' acts
      end
    end
  end.

Definition native_midi_pause (w : world) (wr : Z) : call :=
  match deref w (currentsong w) with
  | None => Ret w []
  | Some s =>
    if state_eqb (playerstate s) NATIVE_MIDI_STOPPED || negb (allow_pause s)
    then Ret w []
    else Ret w [CtlWrite (mainsock s) pkt_thread_cmd_pause wr]
  end.

Definition native_midi_resume (w : world) (wr : Z) : call :=
  match deref w (currentsong w) with
  | None => Ret w []
  | Some s =>
    if negb (state_eqb (playerstate s) NATIVE_MIDI_PAUSED) || negb (allow_pause s)
    then Ret w []
    else Ret w [CtlWrite (mainsock s) pkt_thread_cmd_resume wr]
  end.

Definition native_midi_stop (w : world) (wr : Z) : call :=
  match currentsong w with
  | None => Ret w []
  | Some l =>
    match heap w !! l with
    | None => Ret w []
    | Some s =>
      match playerthread s with
      | None => Ret w []
      | Some t =>
        if state_val NATIVE_MIDI_STOPPED <? state_val (playerstate s) then
          if negb (wr =? CMD_PKT_LEN)
          then Ret w [CtlWrite (mainsock s) pkt_thread_cmd_quit wr]
          else Join t [CtlWrite (mainsock s) pkt_thread_cmd_quit wr] (PendingStop l)
        else Join t [] (PendingStop l)
      end
    end
  end.

(** [native_midi_active()] *)
Definition native_midi_active (w : world) : Z :=
  match deref w (currentsong w) with
  | None => 0
  | Some s => if state_val NATIVE_MIDI_STOPPED <? state_val (playerstate s) then 1 else 0
  end.

(** The clamp of lines 716 to 719. *)
Definition clamp_volume (volume : Z) : Z :=
  if volume <? 0 then 0 else if 0x7F <? volume then 0x7F else volume.

(** [native_midi_setvolume(volume)]; the operand byte is the clamped
    value converted to [unsigned char]. *)
Definition native_midi_setvolume (w : world) (volume : Z) (wr : Z) : call :=
  match deref w (currentsong w) with
  | None => Ret w []
  | Some s =>
    if negb (state_eqb (playerstate s) NATIVE_MIDI_PLAYING) then Ret w []
    else Ret w [CtlWrite (mainsock s)
                         [THREAD_CMD_SETVOL; clamp_volume volume mod 256] wr]
  end.

(** What follows [SDL_WaitThread] in a call that waited; [w] is the
    world as the joined thread left it. *)
Definition resume_call (rest : pending) (created : option nat) (w : world)
  : world * list ctl_action :=
  match rest with
  | PendingStart l loops => start_thread w l loops created
  | PendingStop l =>
    match heap w !! l with
    | None => (w, [])
    | Some s => (store l (set_playerthread None s) w, [])
    end
  end.

(** The assignment [currentsong = song] that ends a successful load, at
    a fresh location [l]. *)
Definition native_midi_loadsong_RW (w : world) (l : nat) (env : load_env) : option world :=
  match loadsong env with
  | None => None
  | Some s => Some {| heap := <[l := s]> (heap w); currentsong := Some l |}
  end.

End Control.
Export Control.

(** ** Vocabulary of the properties *)

Module Vocabulary.

(** The status nibbles the loop body translates to a port-addressed
    event: the first six cases of the [switch]. *)
Definition channel_voice (e : MIDIEvent) : bool :=
  let cmd := Z.land (status e) 0xF0 in
  (cmd =? MIDI_CMD_NOTE_ON) || (cmd =? MIDI_CMD_NOTE_OFF) || (cmd =? MIDI_CMD_CONTROL)
  || (cmd =? MIDI_CMD_NOTE_PRESSURE) || (cmd =? MIDI_CMD_PGM_CHANGE)
  || (cmd =? MIDI_CMD_BENDER).

(** The address of the system timer, the target of queue control. *)
Definition system_timer : snd_seq_addr :=
  {| client := SND_SEQ_CLIENT_SYSTEM; port := SND_SEQ_PORT_SYSTEM_TIMER |}.

(** The 24-bit big-endian number of three bytes. *)
Definition be24 (a b c : Z) : Z := Z.lor (Z.lor (Z.shiftl a 16) (Z.shiftl b 8)) c.

(** Where in a trace the first action of some kind stands. *)
Fixpoint position (f : action -> bool) (l : list action) : option nat :=
  match l with
  | [] => None
  | a :: l' => if f a then Some 0%nat else option_map S (position f l')
  end.

Definition is_nonblock_on (a : action) : bool :=
  match a with Nonblock true => true | _ => false end.
Definition is_set_playing (a : action) : bool :=
  match a with SetState NATIVE_MIDI_PLAYING => true | _ => false end.
Definition is_echo_output (a : action) : bool :=
  match a with OutputSpin ev _ _ => is_echo (type ev) | _ => false end.

(** The order of the setup as the specification words it: the sentinel
    is enqueued first, then the state becomes PLAYING, then the transport
    is switched to non-blocking mode. *)
Definition sentinel_before_nonblock (tr : list action) : Prop :=
  exists i j k,
    position is_echo_output tr = Some i /\
    position is_set_playing tr = Some j /\
    position is_nonblock_on tr = Some k /\
    (i < j)%nat /\ (j < k)%nat.

(** The last element of a non-empty event list. *)
Definition last_event (l : list MIDIEvent) (d : MIDIEvent) : MIDIEvent := List.last l d.

(** The song the control surface acts on, if any. *)
Definition current (w : world) : option NativeMidiSong := deref w (currentsong w).

(** A QUIT, PAUSE or RESUME frame written on socket [sock], write answering [wr]. *)
Definition quit_write (sock wr : Z) : ctl_action := CtlWrite sock pkt_thread_cmd_quit wr.
Definition pause_write (sock wr : Z) : ctl_action := CtlWrite sock pkt_thread_cmd_pause wr.
Definition resume_write (sock wr : Z) : ctl_action := CtlWrite sock pkt_thread_cmd_resume wr.

(** The actions a call makes before it returns or waits. *)
Definition call_actions (c : call) : list ctl_action :=
  match c with Ret _ acts | Join _ acts _ => acts | Undefined => [] end.

(** A call that changes nothing and asks nothing of its environment. *)
Definition no_op (w : world) (c : call) : Prop := c = Ret w [].

(** The player with an empty trace, and the player with [t] put before
    its trace. *)
Definition fresh (p : player) : player := set_trace [] p.
Definition rebase (t : list action) (p : player) : player := set_trace (t ++ trace p) p.

(** The actions one turn of the loop adds to the trace. *)
Definition wake_actions (p : player) (w : wake_input) : list action :=
  trace (fst (wake (fresh p) w)).

(** The values written to the playback state, in order. *)
Definition state_writes (tr : list action) : list native_midi_state :=
  flat_map (fun a => match a with SetState v => [v] | _ => [] end) tr.

(** The frame a turn of the loop reads from the control socket, if it
    reads one: opcode and operand. *)
Definition frame_read (w : wake_input) : option (Z * Z) :=
  if (0 <? poll_ret w) && cmdsock_in w && (read_ret w =? CMD_PKT_LEN)
  then Some (readbuf_0 w, readbuf_1 w) else None.

(** The volume in force after one more turn. *)
Definition next_volume (v : Z) (w : wake_input) : Z :=
  match frame_read w with
  | Some (op, operand) => if op =? THREAD_CMD_SETVOL then operand else v
  | None => v
  end.

(** The operand of the last SETVOL frame read during the turns [ws], or
    127 if there was none. *)
Definition requested_volume (ws : list wake_input) : Z := fold_left next_volume ws 0x7F.

(** The fields of a song that no thread and no control call but load and
    start's thread handle assignment ever write. *)
Definition constants (s : NativeMidiSong) :=
  (mainsock s, threadsock s, ppqn s, evtlist s, seq s, srcport s, dstaddr s,
   endtime s, allow_pause s).

(** The MIDI events the cursor moved past, in order: one [DbgLog] each. *)
Definition consumed (tr : list action) : list MIDIEvent :=
  flat_map (fun a => match a with DbgLog _ e => [e] | _ => [] end) tr.

(** How many sentinels were enqueued, and how many queue resets. *)
Definition sentinels (tr : list action) : nat :=
  length (List.filter is_echo_output tr).
Definition is_reset_output (a : action) : bool :=
  match a with
  | OutputSpin ev _ _ =>
      match type ev with SND_SEQ_EVENT_SETPOS_TICK => true | _ => false end
  | _ => false
  end.
Definition rewinds (tr : list action) : nat :=
  length (List.filter is_reset_output tr).

(** A turn in which the thread reads a QUIT frame. *)
Definition quit_read (w : wake_input) : bool :=
  match frame_read w with
  | Some (op, _) => op =? THREAD_CMD_QUIT
  | None => false
  end.

(** A turn in which [poll] succeeds and no QUIT frame is read. *)
Definition quiet (w : wake_input) : Prop := 0 < poll_ret w /\ quit_read w = false.

(** [n] passes over the event list. *)
Definition passes (evs : list MIDIEvent) (n : nat) : list MIDIEvent :=
  concat (repeat evs n).

(** A cooperative environment.  [send_turn]: the transport has room and
    takes the event.  [drain_turn]: nothing to report, the drain succeeds.
    [echo_turn]: the sentinel of this client comes back. *)
Definition idle_turn : wake_input :=
  {| poll_ret := 1; cmdsock_in := false; read_ret := 0; readbuf_0 := 0; readbuf_1 := 0;
     alsa_in := false; input_ret := 0; revt := snd_seq_ev_clear; alsa_out := false;
     drain_ret := 0; reset_again := 0; reset_ret := 0; echo_again := 0; echo_ret := 0;
     output_ret := 0 |}.
Definition send_turn : wake_input :=
  {| poll_ret := 1; cmdsock_in := false; read_ret := 0; readbuf_0 := 0; readbuf_1 := 0;
     alsa_in := false; input_ret := 0; revt := snd_seq_ev_clear; alsa_out := true;
     drain_ret := 0; reset_again := 0; reset_ret := 0; echo_again := 0; echo_ret := 0;
     output_ret := 0 |}.
Definition drain_turn : wake_input := idle_turn.
Definition echo_turn (s : NativeMidiSong) : wake_input :=
  {| poll_ret := 1; cmdsock_in := false; read_ret := 0; readbuf_0 := 0; readbuf_1 := 0;
     alsa_in := true; input_ret := 0;
     revt := {| type := SND_SEQ_EVENT_ECHO; sched := QueueUnset;
                source := {| client := seq s; port := srcport s |};
                dest := {| client := seq s; port := srcport s |}; data := DataNone |};
     alsa_out := false;
     drain_ret := 0; reset_again := 0; reset_ret := 0; echo_again := 0; echo_ret := 0;
     output_ret := 0 |}.
Definition one_pass (s : NativeMidiSong) : list wake_input :=
  repeat send_turn (length (evtlist s)) ++ [drain_turn; echo_turn s].
Definition cooperative (s : NativeMidiSong) (n : nat) : list wake_input :=
  concat (repeat (one_pass s) n).

(** A turn in which [poll] fails, and one in which a frame [op x] is read. *)
Definition failed_poll : wake_input :=
  {| poll_ret := -1; cmdsock_in := false; read_ret := 0; readbuf_0 := 0; readbuf_1 := 0;
     alsa_in := false; input_ret := 0; revt := snd_seq_ev_clear; alsa_out := false;
     drain_ret := 0; reset_again := 0; reset_ret := 0; echo_again := 0; echo_ret := 0;
     output_ret := 0 |}.
Definition frame_turn (op x : Z) : wake_input :=
  {| poll_ret := 1; cmdsock_in := true; read_ret := 2; readbuf_0 := op; readbuf_1 := x;
     alsa_in := false; input_ret := 0; revt := snd_seq_ev_clear; alsa_out := false;
     drain_ret := 0; reset_again := 0; reset_ret := 0; echo_again := 0; echo_ret := 0;
     output_ret := 0 |}.

(** What holds of a session between two turns, as long as no QUIT frame
    was read and [poll] did not fail: [n] rewinds so far, [past] the part
    of the list behind the cursor; [evs] and [L] are the event list and
    the loop count the session was started with. *)
Definition loop_inv (evs : list MIDIEvent) (L : Z) (p : player) : Prop :=
  evtlist (song p) = evs /\
  exists (n : nat) (past : list MIDIEvent),
    evs = past ++ event p /\
    consumed (trace p) = passes evs n ++ past /\
    sentinels (trace p) = S n /\
    rewinds (trace p) = n /\
    loopcount (song p) = (if L <? 0 then L else L - Z.of_nat n) /\
    (0 <= L -> Z.of_nat n <= L).

End Vocabulary.
Export Vocabulary.

(** ** Controller and player threads together *)

(** One controller makes the calls of the control surface one after the
    other; every song that was started has a player thread.  The steps of
    the threads and of the controller interleave freely; a call that waits
    in [SDL_WaitThread] goes on once the thread has returned.  Songs are
    loaded but not freed. *)

Module System.

(** Where a player thread is. *)
Inductive phase :=
| InSetup                         (* created, line 470 not yet reached *)
| InLoop (p : player)             (* between two turns of the loop *)
| LeftLoop (p : player)           (* out of the loop, line 615 not yet reached *)
| Done.                           (* the thread function has returned *)

(** What the controller does: nothing, or it waits in [SDL_WaitThread]
    with the rest of a call to carry out. *)
Inductive controller :=
| Idle
| Waiting (t : nat) (rest : pending).

(** [threads] maps the handle of every thread not yet waited for to the
    song it plays and its phase; [writes] lists every [SDL_AtomicSet] of a
    playback state, by song and value, oldest first. *)
Record system := {
  shared : world;
  threads : gmap nat (nat * phase);
  ctl : controller;
  writes : list (nat * native_midi_state)
}.

Definition initial : system :=
  {| shared := {| heap := ∅; currentsong := None |};
     threads := ∅; ctl := Idle; writes := [] |}.

(** The calls of the control surface, with what their environment answers. *)
Inductive api :=
| Start (song : option nat) (loops : Z) (wr : Z) (created : option nat)
| Pause (wr : Z)
| Resume (wr : Z)
| Stop (wr : Z)
| SetVolume (volume : Z) (wr : Z).

Definition perform (w : world) (a : api) : call :=
  match a with
  | Start song loops wr created => native_midi_start w song loops wr created
  | Pause wr => native_midi_pause w wr
  | Resume wr => native_midi_resume w wr
  | Stop wr => native_midi_stop w wr
  | SetVolume volume wr => native_midi_setvolume w volume wr
  end.

(** The state writes among the actions of a call: [start_thread] writes
    STARTING just before it creates the thread. *)
Definition starting_writes (acts : list ctl_action) : list (nat * native_midi_state) :=
  flat_map (fun a => match a with
                     | CtlCreateThread l _ => [(l, NATIVE_MIDI_STARTING)]
                     | _ => []
                     end) acts.

(** The threads the actions of a call created. *)
Fixpoint spawn (acts : list ctl_action) (ths : gmap nat (nat * phase))
  : gmap nat (nat * phase) :=
  match acts with
  | [] => ths
  | CtlCreateThread l (Some t) :: acts' => spawn acts' (<[t := (l, InSetup)]> ths)
  | _ :: acts' => spawn acts' ths
  end.

(** [SDL_CreateThread] answers with a handle not in use. *)
Definition fresh_handles (acts : list ctl_action) (ths : gmap nat (nat * phase)) : Prop :=
  forall l t, In (CtlCreateThread l (Some t)) acts -> ths !! t = None.

(** The thread's view of the world: its locals and the song as it is in
    the heap now; the trace starts anew, so that the trace after a step
    is what the step did. *)
Definition view (s : NativeMidiSong) (p : player) : player := set_song s (fresh p).

Definition tag (l : nat) (vs : list native_midi_state) : list (nat * native_midi_state) :=
  map (pair l) vs.

Inductive step : system -> system -> Prop :=
| step_load (σ : system) (l : nat) (env : load_env) (w' : world) :
    ctl σ = Idle ->
    heap (shared σ) !! l = None ->
    native_midi_loadsong_RW (shared σ) l env = Some w' ->
    step σ {| shared := w'; threads := threads σ; ctl := Idle;
              writes := writes σ ++ [(l, NATIVE_MIDI_STOPPED)] |}
| step_return (σ : system) (a : api) (w' : world) (acts : list ctl_action) :
    ctl σ = Idle ->
    perform (shared σ) a = Ret w' acts ->
    fresh_handles acts (threads σ) ->
    step σ {| shared := w'; threads := spawn acts (threads σ); ctl := Idle;
              writes := writes σ ++ starting_writes acts |}
| step_block (σ : system) (a : api) (t : nat) (acts : list ctl_action) (rest : pending) :
    ctl σ = Idle ->
    perform (shared σ) a = Join t acts rest ->
    step σ {| shared := shared σ; threads := threads σ; ctl := Waiting t rest;
              writes := writes σ |}
| step_join (σ : system) (t l : nat) (rest : pending) (created : option nat)
            (w' : world) (acts : list ctl_action) :
    ctl σ = Waiting t rest ->
    threads σ !! t = Some (l, Done) ->
    resume_call rest created (shared σ) = (w', acts) ->
    fresh_handles acts (delete t (threads σ)) ->
    step σ {| shared := w'; threads := spawn acts (delete t (threads σ)); ctl := Idle;
              writes := writes σ ++ starting_writes acts |}
| step_setup (σ : system) (t l : nat) (s : NativeMidiSong) (env : setup_env) :
    threads σ !! t = Some (l, InSetup) ->
    heap (shared σ) !! l = Some s ->
    step σ {| shared := store l (song (setup s env)) (shared σ);
              threads := <[t := (l, InLoop (setup s env))]> (threads σ);
              ctl := ctl σ;
              writes := writes σ ++ tag l (state_writes (trace (setup s env))) |}
| step_wake (σ : system) (t l : nat) (s : NativeMidiSong) (p p' : player)
            (w : wake_input) (o : outcome) :
    threads σ !! t = Some (l, InLoop p) ->
    heap (shared σ) !! l = Some s ->
    wake (view s p) w = (p', o) ->
    o <> Fault ->
    step σ {| shared := store l (song p') (shared σ);
              threads := <[t := (l, match o with Continue => InLoop p' | _ => LeftLoop p' end)]>
                           (threads σ);
              ctl := ctl σ;
              writes := writes σ ++ tag l (state_writes (trace p')) |}
| step_teardown (σ : system) (t l : nat) (s : NativeMidiSong) (p : player) :
    threads σ !! t = Some (l, LeftLoop p) ->
    heap (shared σ) !! l = Some s ->
    step σ {| shared := store l (song (teardown (view s p))) (shared σ);
              threads := <[t := (l, Done)]> (threads σ);
              ctl := ctl σ;
              writes := writes σ ++ tag l (state_writes (trace (teardown (view s p)))) |}.

(** The systems the program can get into. *)
Definition reachable (σ : system) : Prop := rtc step initial σ.

(** The values written to the playback state of the song at [l]. *)
Definition writes_of (l : nat) (ws : list (nat * native_midi_state)) : list native_midi_state :=
  map snd (List.filter (fun x => Nat.eqb (fst x) l) ws).

(** The edges of the diagram STOPPED -> STARTING -> PLAYING <-> PAUSED ->
    STOPPED as it is drawn, and the loops on every state. *)
Definition diagram (a b : native_midi_state) : bool :=
  match a, b with
  | NATIVE_MIDI_STOPPED, NATIVE_MIDI_STARTING
  | NATIVE_MIDI_STARTING, NATIVE_MIDI_PLAYING
  | NATIVE_MIDI_PLAYING, NATIVE_MIDI_PAUSED
  | NATIVE_MIDI_PAUSED, NATIVE_MIDI_PLAYING
  | NATIVE_MIDI_PAUSED, NATIVE_MIDI_STOPPED => true
  | _, _ => state_eqb a b
  end.

(** The diagram with one more edge, from PLAYING to STOPPED. *)
Definition transition (a b : native_midi_state) : bool :=
  diagram a b
  || (state_eqb a NATIVE_MIDI_PLAYING && state_eqb b NATIVE_MIDI_STOPPED).

(** A sequence of writes, each an edge from the value before it. *)
Fixpoint path (edge : native_midi_state -> native_midi_state -> bool)
         (from : native_midi_state) (vs : list native_midi_state) : bool :=
  match vs with
  | [] => true
  | v :: vs' => edge from v && path edge v vs'
  end.

(** The value a sequence of writes leaves in a cell that held [from]. *)
Fixpoint final (from : native_midi_state) (vs : list native_midi_state)
  : native_midi_state :=
  match vs with
  | [] => from
  | v :: vs' => final v vs'
  end.

(** A stage of the loop body took [p] to [p']: it kept the thread handle
    of the song, and what it wrote to the playback state were values
    PLAYING and PAUSED, the last of which the state now has. *)
Definition stage (p p' : player) : Prop :=
  playerthread (song p') = playerthread (song p) /\
  exists vs, state_writes (trace p') = state_writes (trace p) ++ vs /\
             Forall (fun v => v = NATIVE_MIDI_PLAYING \/ v = NATIVE_MIDI_PAUSED) vs /\
             playerstate (song p') = final (playerstate (song p)) vs.

(** The playback states a thread in a given phase can be seen with. *)
Definition phase_state (ph : phase) (v : native_midi_state) : Prop :=
  match ph with
  | InSetup => v = NATIVE_MIDI_STARTING
  | InLoop _ | LeftLoop _ => v = NATIVE_MIDI_PLAYING \/ v = NATIVE_MIDI_PAUSED
  | Done => v = NATIVE_MIDI_STOPPED
  end.

Definition pending_song (rest : pending) : nat :=
  match rest with PendingStart l _ | PendingStop l => l end.

(** What holds of every reachable system. *)
Record sys_inv (σ : system) : Prop := {
  (* a thread plays a song that holds its handle, in a state of its phase *)
  inv_thread : forall t l ph, threads σ !! t = Some (l, ph) ->
    exists s, heap (shared σ) !! l = Some s /\ playerthread s = Some t /\
              phase_state ph (playerstate s);
  (* a handle held by a song is the handle of a thread that plays it *)
  inv_handle : forall l s t, heap (shared σ) !! l = Some s -> playerthread s = Some t ->
    exists ph, threads σ !! t = Some (l, ph);
  (* a song without a handle is stopped, or stuck in STARTING after a
     failed SDL_CreateThread *)
  inv_idle : forall l s, heap (shared σ) !! l = Some s -> playerthread s = None ->
    playerstate s = NATIVE_MIDI_STOPPED \/ playerstate s = NATIVE_MIDI_STARTING;
  (* the writes to the state of a song form a path, and the state is
     where the path ends *)
  inv_path : forall l s, heap (shared σ) !! l = Some s ->
    path transition NATIVE_MIDI_STOPPED (writes_of l (writes σ)) = true /\
    playerstate s = final NATIVE_MIDI_STOPPED (writes_of l (writes σ));
  (* nothing was written to a song that does not exist *)
  inv_fresh : forall l, heap (shared σ) !! l = None -> writes_of l (writes σ) = [];
  (* a waiting controller waits for the thread of the song of its call *)
  inv_wait : forall t rest, ctl σ = Waiting t rest ->
    exists s, heap (shared σ) !! pending_song rest = Some s /\ playerthread s = Some t
}.

End System.
Export System.

(** ** Sample data *)

Module Samples.

Definition note_on : MIDIEvent :=
  {| time := 0; status := 0x90; data_0 := 60; data_1 := 100; extraData := [] |}.
Definition tempo_change : MIDIEvent :=
  {| time := 10; status := 0xFF; data_0 := 0x51; data_1 := 0;
     extraData := [0x07; 0xA1; 0x20] |}.
Definition tempo_short : MIDIEvent :=
  {| time := 10; status := 0xFF; data_0 := 0x51; data_1 := 0; extraData := [0x07; 0xA1] |}.
Definition bend : MIDIEvent :=
  {| time := 15; status := 0xE3; data_0 := 0x00; data_1 := 0x40; extraData := [] |}.
Definition note_off : MIDIEvent :=
  {| time := 20; status := 0x80; data_0 := 60; data_1 := 0; extraData := [] |}.

Definition sample_load : load_env :=
  {| le_sockets := Some (3, 4); le_events := [note_on; tempo_change; note_off];
     le_ppqn := 96; le_seq := Some (128, 0);
     le_dstaddr := {| client := 14; port := 0 |}; le_allow_pause := true |}.

(** The song [loadsong sample_load] yields. *)
Definition sample_song : NativeMidiSong :=
  {| playerthread := None; mainsock := 3; threadsock := 4; ppqn := 96;
     evtlist := [note_on; tempo_change; note_off]; seq := 128; srcport := 0;
     dstaddr := {| client := 14; port := 0 |}; loopcount := 0; endtime := 20;
     playerstate := NATIVE_MIDI_STOPPED; allow_pause := true |}.

Definition sample_setup : setup_env :=
  {| se_queue := 1; se_echo_again := 0; se_echo_ret := 0 |}.

Definition sample_player : player := setup sample_song sample_setup.

(** The sample song in state [st], with thread handle [th], and the
    world in which it is the only song and current. *)
Definition song_of (st : native_midi_state) (th : option nat) (pause_ok : bool)
  : NativeMidiSong :=
  {| playerthread := th; mainsock := 3; threadsock := 4; ppqn := 96;
     evtlist := [note_on; tempo_change; note_off]; seq := 128; srcport := 0;
     dstaddr := {| client := 14; port := 0 |}; loopcount := 0; endtime := 20;
     playerstate := st; allow_pause := pause_ok |}.
Definition world_of (st : native_midi_state) (th : option nat) (pause_ok : bool) : world :=
  {| heap := {[ 0%nat := song_of st th pause_ok ]}; currentsong := Some 0%nat |}.

(** A song of one event. *)
Definition short_load : load_env :=
  {| le_sockets := Some (3, 4); le_events := [note_on];
     le_ppqn := 96; le_seq := Some (128, 0);
     le_dstaddr := {| client := 14; port := 0 |}; le_allow_pause := true |}.
Definition short_song : NativeMidiSong :=
  {| playerthread := None; mainsock := 3; threadsock := 4; ppqn := 96;
     evtlist := [note_on]; seq := 128; srcport := 0;
     dstaddr := {| client := 14; port := 0 |}; loopcount := 0; endtime := 0;
     playerstate := NATIVE_MIDI_STOPPED; allow_pause := true |}.

(** The system after the one-event song was loaded, started with loop
    count 0 as thread 5, and played to its end: the thread has returned and
    nobody has waited for it yet. *)
Definition played_system : system :=
  {| shared := {| heap := {[ 0%nat := set_playerthread (Some 5%nat) short_song ]};
                  currentsong := Some 0%nat |};
     threads := {[ 5%nat := (0%nat, Done) ]};
     ctl := Idle;
     writes := [(0%nat, NATIVE_MIDI_STOPPED); (0%nat, NATIVE_MIDI_STARTING);
                (0%nat, NATIVE_MIDI_PLAYING); (0%nat, NATIVE_MIDI_STOPPED)] |}.

End Samples.
Export Samples.

(** ** The name of the sequencer client *)

Import Ascii.AsciiSyntax String.StringSyntax.
Delimit Scope string_scope with string.
Delimit Scope char_scope with char.

Module Naming.

(** A C string is the list of its characters before the first NUL. *)
Fixpoint cstring (buf : list Ascii.ascii) : list Ascii.ascii :=
  match buf with
  | [] => []
  | c :: buf' => if Ascii.eqb c "000"%char then [] else c :: cstring buf'
  end.

(** [SDL_strrchr(s, c) + 1] on a C string: what follows the last [c], and
    [None] where [SDL_strrchr] answers [NULL]. *)
Fixpoint after_last (c : Ascii.ascii) (s : list Ascii.ascii) : option (list Ascii.ascii) :=
  match s with
  | [] => None
  | x :: s' =>
    match after_last c s' with
    | Some r => Some r
    | None => if Ascii.eqb x c then Some s' else None
    end
  end.

Definition default_name : list Ascii.ascii :=
  String.list_ascii_of_string "SDL_Mixer Application"%string.

(** What [get_app_name] finds around it: the two hints ([None] for
    [NULL]), whether [SDL_strdup] and [SDL_calloc] succeed, the answer of
    [pathconf], and the content of /proc/<pid>/cmdline ([None] when [open]
    or [read] fails), of which [read] stores at most [pathmax] bytes. *)
Record name_env := {
  hint_audio : option (list Ascii.ascii);   (* SDL_HINT_AUDIO_DEVICE_APP_NAME *)
  hint_app : option (list Ascii.ascii);     (* SDL_HINT_APP_NAME *)
  strdup_ok : bool;
  pathconf_ret : Z;
  calloc_ok : bool;
  cmdline_read : option (list Ascii.ascii)
}.

(** [ret && *ret] *)
Definition usable (h : option (list Ascii.ascii)) : option (list Ascii.ascii) :=
  match h with
  | Some s => match cstring s with [] => None | _ :: _ => Some (cstring s) end
  | None => None
  end.

Definition get_app_name_hint (env : name_env) : option (list Ascii.ascii) :=
  match usable (hint_audio env) with
  | Some s => Some s
  | None => usable (hint_app env)
  end.

Inductive name_result :=
| Name (s : list Ascii.ascii)       (* a string the caller has to free *)
| NameOom                           (* NULL, after MIDI_Mix_OutOfMemory *)
| NameFault.                        (* strlen of the pointer NULL + 1 *)

(** [long pathmax = pathconf(...); if (pathmax == -1) pathmax = 4096;] *)
Definition pathmax (env : name_env) : Z :=
  if pathconf_ret env =? -1 then 4096 else pathconf_ret env.

(** [SDL_snprintf(cmdline, pathmax + 1, "SDL_Mixer Application")] *)
Definition fallback_name (env : name_env) : list Ascii.ascii :=
  firstn (Z.to_nat (pathmax env)) default_name.

Definition get_app_name (env : name_env) : name_result :=
  match get_app_name_hint env with
  | Some hint => if strdup_ok env then Name hint else NameOom
  | None =>
    if negb (calloc_ok env) then NameOom
    else
      match cmdline_read env with
      | None => Name (fallback_name env)
      | Some bytes =>
        match firstn (Z.to_nat (pathmax env)) bytes with
        | [] => Name (fallback_name env)        (* read answered 0 *)
        | b :: stored =>
          (* the buffer was zeroed and is one byte longer than pathmax *)
          match after_last "/"%char (cstring (b :: stored)) with
          | None => NameFault
          | Some base =>
            match base with
            | [] => Name (fallback_name env)
            | _ :: _ => Name base
            end
          end
        end
      end
  end.

End Naming.
Export Naming.

(** ** Port discovery *)

Module Discovery.

(* <alsa/seq.h> *)
Definition SND_SEQ_PORT_CAP_WRITE : Z := 2.
Definition SND_SEQ_PORT_CAP_SUBS_WRITE : Z := 64.
Definition SND_SEQ_PORT_CAP_NO_EXPORT : Z := 128.
Definition SND_SEQ_PORT_TYPE_MIDI_GENERIC : Z := 2.
Definition SND_SEQ_PORT_TYPE_SYNTHESIZER : Z := 262144.     (* 1 << 18 *)

(** What [snd_seq_port_info_get_port], [_get_capability] and [_get_type]
    answer for a port. *)
Record port_info := { pi_port : Z; pi_cap : Z; pi_type : Z }.

(** A client [snd_seq_query_next_client] delivers: its id, what
    [snd_seq_get_any_port_info(seq, client, 0, _)] finds ([None] when it
    fails), and the ports [snd_seq_query_next_port] delivers after that. *)
Record client_info := {
  ci_client : Z;
  ci_port0 : option port_info;
  ci_next : list port_info
}.

(** The sequencer as the discovery sees it.  [connect n c p] is what the
    [n]-th call of [snd_seq_connect_to] of the process answers when it is
    for client [c] and port [p]. *)
Record seq_env := {
  any_client_ret : Z;               (* snd_seq_get_any_client_info(seq, 0, _) *)
  own_client : Z;                   (* snd_seq_client_id(seq) *)
  clients : list client_info;
  connect : nat -> Z -> Z -> Z
}.

(** A call of [snd_seq_connect_to(seq, srcport, client, port)] and its answer. *)
Record connect_call := { cc_client : Z; cc_port : Z; cc_ret : Z }.

(** The test of lines 259 to 262. *)
Definition wanted (required_type : Z) (pi : port_info) : bool :=
  (Z.land (pi_type pi) required_type =? required_type)
  && negb (Z.land (pi_cap pi) SND_SEQ_PORT_CAP_WRITE =? 0)
  && negb (Z.land (pi_cap pi) SND_SEQ_PORT_CAP_SUBS_WRITE =? 0)
  && (Z.land (pi_cap pi) SND_SEQ_PORT_CAP_NO_EXPORT =? 0).

(** The [do ... while] over the ports of one client; [n] counts the calls
    of [snd_seq_connect_to] made so far.  The answer is whether a
    connection was made, the calls, and the new count. *)
Fixpoint try_ports (env : seq_env) (required_type : Z) (client : Z)
         (ports : list port_info) (n : nat) : bool * list connect_call * nat :=
  match ports with
  | [] => (false, [], n)
  | pi :: ports' =>
    if wanted required_type pi then
      let r := connect env n client (pi_port pi) in
      let call := {| cc_client := client; cc_port := pi_port pi; cc_ret := r |} in
      if r =? 0 then (true, [call], S n)
      else
        let '(ok, calls, n') := try_ports env required_type client ports' (S n) in
        (ok, call :: calls, n')
    else try_ports env required_type client ports' n
  end.

(** The [while] over the clients. *)
Fixpoint try_clients (env : seq_env) (required_type : Z)
         (cs : list client_info) (n : nat) : bool * list connect_call * nat :=
  match cs with
  | [] => (false, [], n)
  | c :: cs' =>
    if ci_client c =? own_client env then try_clients env required_type cs' n
    else
      match ci_port0 c with
      | None => try_clients env required_type cs' n
      | Some p0 =>
        let '(ok, calls, n') :=
          try_ports env required_type (ci_client c) (p0 :: ci_next c) n in
        if ok then (true, calls, n')
        else
          let '(ok', calls', n'') := try_clients env required_type cs' n' in
          (ok', calls ++ calls', n'')
      end
  end.

(** [subscribe_to_first_available_port]: -1, 0 or 1. *)
Definition subscribe_to_first_available_port
           (env : seq_env) (required_type : Z) (n : nat) : Z * list connect_call * nat :=
  if negb (any_client_ret env =? 0) then (-1, [], n)
  else
    let '(ok, calls, n') := try_clients env required_type (clients env) n in
    (if ok then 0 else 1, calls, n').

(** What [pick_seq_dest_addr] finds besides the sequencer: the hint
    SDL_NATIVE_MUSIC_NO_CONNECT_PORTS, and the address in ALSA_OUTPUT_PORTS
    ([None] when the variable is unset or [snd_seq_parse_address] fails). *)
Record pick_env := {
  no_connect : bool;
  output_ports : option snd_seq_addr;
  sequencer : seq_env
}.

(** The address [pick_seq_dest_addr] stores in [song->dstaddr]. *)
Definition subscribers : snd_seq_addr :=
  {| client := SND_SEQ_ADDRESS_SUBSCRIBERS; port := SND_SEQ_ADDRESS_UNKNOWN |}.

(** Lines 293 to 300: first a synthesizer, then any generic MIDI port. *)
Definition enumerate (q : seq_env) (n : nat) : list connect_call :=
  let '(r1, calls1, n1) :=
    subscribe_to_first_available_port q
      (Z.lor SND_SEQ_PORT_TYPE_MIDI_GENERIC SND_SEQ_PORT_TYPE_SYNTHESIZER) n in
  if r1 =? 0 then calls1
  else
    let '(r2, calls2, n2) :=
      subscribe_to_first_available_port q SND_SEQ_PORT_TYPE_MIDI_GENERIC n1 in
    calls1 ++ calls2.

(** The calls of [snd_seq_connect_to] that [pick_seq_dest_addr] makes. *)
Definition pick_seq_dest_addr (env : pick_env) : list connect_call :=
  if no_connect env then []
  else
    let q := sequencer env in
    match output_ports env with
    | Some a =>
      let r := connect q 0%nat (client a) (port a) in
      let call := {| cc_client := client a; cc_port := port a; cc_ret := r |} in
      if r =? 0 then [call] else call :: enumerate q 1%nat
    | None => enumerate q 0%nat
    end.

End Discovery.
Export Discovery.

(** ** Opening, loading and freeing *)

Module Resources.

(** The texts of the error messages, by their format and argument. *)
Inductive message :=
| MsgEmpty                          (* the initial "" *)
| MsgSeqOpen (ret : Z)              (* "snd_seq_open returned %d" *)
| MsgCreatePort (ret : Z)           (* "snd_seq_create_simple_port failed with %d" *)
| MsgSocketpair (errno : Z)         (* "Failed to create socketpair with errno %d" *)
| MsgEventList                      (* "Failed to create MIDIEventList" *)
| MsgOom.                           (* "Out of memory" *)

(** The buffer [errmsg] and the pointer [errmsg_final], which points to
    [errmsg] at first and to [oom] once [final_is_oom] is set. *)
Record errors := { errmsg : message; final_is_oom : bool }.

Definition no_errors : errors := {| errmsg := MsgEmpty; final_is_oom := false |}.

Definition MIDI_SET_ERROR (m : message) (e : errors) : errors :=
  {| errmsg := m; final_is_oom := final_is_oom e |}.

Definition MIDI_Mix_OutOfMemory (e : errors) : errors :=
  {| errmsg := errmsg e; final_is_oom := true |}.

Definition native_midi_error (e : errors) : message :=
  if final_is_oom e then MsgOom else errmsg e.

(** What load, free and detect ask of their environment, in program order. *)
Inductive res_action :=
| SndSeqOpen (ret : Z)                      (* snd_seq_open *)
| GetAppName (r : name_result)              (* get_app_name *)
| SetClientName                             (* snd_seq_set_client_name *)
| CreateSimplePort (ret : Z)                (* snd_seq_create_simple_port *)
| DeleteSimplePort (port : Z)               (* snd_seq_delete_simple_port *)
| SndSeqClose                               (* snd_seq_close *)
| FreeName                                  (* SDL_free(seq_name) *)
| CallocSong (ok : bool)                    (* SDL_calloc(1, sizeof(NativeMidiSong)) *)
| FreeSong                                  (* SDL_free(song) *)
| Socketpair (ok : bool) (sv0 sv1 : Z)      (* socketpair *)
| ShutdownSock (fd : Z)                     (* shutdown(fd, SHUT_RDWR) *)
| CloseSock (fd : Z)                        (* close(fd) *)
| CreateMIDIEventList (ok : bool)           (* CreateMIDIEventList *)
| FreeMIDIEventList                         (* FreeMIDIEventList *)
| SetEventFilter                            (* snd_seq_set_client_event_filter *)
| ConnectTo (c : connect_call)              (* snd_seq_connect_to *)
| RWclose.                                  (* SDL_RWclose(src) *)

(** What [open_seq] finds around it. *)
Record open_env := {
  seq_open_ret : Z;                 (* snd_seq_open *)
  seq_client : Z;                   (* snd_seq_client_id of the new handle *)
  naming : name_env;
  port_ret : Z                      (* snd_seq_create_simple_port *)
}.

Inductive opened :=
| Opened (client srcport : Z)       (* a handle and its source port *)
| OpenFailed                        (* NULL *)
| OpenCrashed.                      (* get_app_name faulted *)

(** [open_seq(&srcport)] *)
Definition open_seq (env : open_env) (e : errors) : opened * list res_action * errors :=
  if seq_open_ret env <? 0 then
    (OpenFailed, [SndSeqOpen (seq_open_ret env)],
     MIDI_SET_ERROR (MsgSeqOpen (seq_open_ret env)) e)
  else
    let name := get_app_name (naming env) in
    match name with
    | NameFault => (OpenCrashed, [SndSeqOpen (seq_open_ret env); GetAppName name], e)
    | NameOom =>
      (OpenFailed, [SndSeqOpen (seq_open_ret env); GetAppName name; SndSeqClose],
       MIDI_Mix_OutOfMemory e)
    | Name _ =>
      if port_ret env <? 0 then
        (OpenFailed,
         [SndSeqOpen (seq_open_ret env); GetAppName name; SetClientName;
          CreateSimplePort (port_ret env); SndSeqClose; FreeName],
         MIDI_SET_ERROR (MsgCreatePort (port_ret env)) e)
      else
        (Opened (seq_client env) (port_ret env),
         [SndSeqOpen (seq_open_ret env); GetAppName name; SetClientName;
          CreateSimplePort (port_ret env); FreeName],
         e)
    end.

Definition close_seq (port : Z) : list res_action := [DeleteSimplePort port; SndSeqClose].

(** [native_midi_detect()]; [None] where the process faults. *)
Definition native_midi_detect (env : open_env) (e : errors)
  : option Z * list res_action * errors :=
  match open_seq env e with
  | (Opened _ port, tr, e') => (Some 1, tr ++ close_seq port, e')
  | (OpenFailed, tr, e') => (Some 0, tr, e')
  | (OpenCrashed, tr, e') => (None, tr, e')
  end.

Definition close_sockpair (s : NativeMidiSong) : list res_action :=
  [ShutdownSock (mainsock s); ShutdownSock (threadsock s);
   CloseSock (mainsock s); CloseSock (threadsock s)].

(** What [native_midi_loadsong_RW] finds around it. *)
Record full_env := {
  song_calloc_ok : bool;            (* SDL_calloc of the song *)
  socketpair_ret : Z;               (* socketpair *)
  sv : Z * Z;                       (* the two descriptors *)
  errno : Z;
  events : list MIDIEvent;          (* CreateMIDIEventList; [] is NULL *)
  events_ppqn : Z;
  opening : open_env;
  picking : pick_env;
  pause_hint : bool;                (* SDL_NATIVE_MUSIC_ALLOW_PAUSE *)
  freesrc : Z
}.

Inductive loaded :=
| Loaded (s : NativeMidiSong)
| LoadFailed                        (* NULL *)
| LoadCrashed.

(** The sequencer of the discovery, seen from the client just opened. *)
Definition as_client (c : Z) (env : pick_env) : pick_env :=
  {| no_connect := no_connect env; output_ports := output_ports env;
     sequencer := {| any_client_ret := any_client_ret (sequencer env);
                     own_client := c;
                     clients := clients (sequencer env);
                     connect := connect (sequencer env) |} |}.

(** [native_midi_loadsong_RW(src, freesrc)], up to the assignment of
    [currentsong]. *)
Definition load (env : full_env) (e : errors) : loaded * list res_action * errors :=
  if negb (song_calloc_ok env) then
    (LoadFailed, [CallocSong false], MIDI_Mix_OutOfMemory e)
  else if socketpair_ret env =? -1 then
    (LoadFailed, [CallocSong true; Socketpair false (fst (sv env)) (snd (sv env)); FreeSong],
     MIDI_SET_ERROR (MsgSocketpair (errno env)) e)
  else
    let t0 := [CallocSong true; Socketpair true (fst (sv env)) (snd (sv env))] in
    let socks := [ShutdownSock (fst (sv env)); ShutdownSock (snd (sv env));
                  CloseSock (fst (sv env)); CloseSock (snd (sv env))] in
    match events env with
    | [] =>
      (LoadFailed, t0 ++ [CreateMIDIEventList false] ++ socks ++ [FreeSong],
       MIDI_SET_ERROR MsgEventList e)
    | ev :: next =>
      let t1 := t0 ++ [CreateMIDIEventList true] in
      match open_seq (opening env) e with
      | (OpenCrashed, tr, e') => (LoadCrashed, t1 ++ tr, e')
      | (OpenFailed, tr, e') =>
        (LoadFailed, t1 ++ tr ++ [FreeMIDIEventList] ++ socks ++ [FreeSong], e')
      | (Opened cl sp, tr, e') =>
        let calls := pick_seq_dest_addr (as_client cl (picking env)) in
        (Loaded {| playerthread := None;
                   mainsock := fst (sv env); threadsock := snd (sv env);
                   ppqn := events_ppqn env; evtlist := ev :: next;
                   seq := cl; srcport := sp; dstaddr := subscribers;
                   loopcount := 0; endtime := last_time ev next;
                   playerstate := NATIVE_MIDI_STOPPED;
                   allow_pause := pause_hint env |},
         t1 ++ tr ++ [SetEventFilter] ++ map ConnectTo calls
         ++ (if freesrc env =? 0 then [] else [RWclose]),
         e')
      end
    end.

(** [native_midi_freesong(song)] *)
Definition native_midi_freesong (song : option NativeMidiSong) : list res_action :=
  match song with
  | None => []
  | Some s => close_seq (srcport s) ++ [FreeMIDIEventList] ++ close_sockpair s ++ [FreeSong]
  end.

(** The resources a process can hold through this file. *)
Inductive resource :=
| RSeq                              (* an open sequencer handle *)
| RPort (p : Z)                     (* a port of it *)
| RName                             (* the string of get_app_name *)
| RSong                             (* the song structure *)
| RSock (fd : Z)                    (* a socket *)
| REvents.                          (* the event list *)

Definition resource_eqb (a b : resource) : bool :=
  match a, b with
  | RSeq, RSeq | RName, RName | RSong, RSong | REvents, REvents => true
  | RPort p, RPort q => p =? q
  | RSock p, RSock q => p =? q
  | _, _ => false
  end.

Definition acquires (a : res_action) : list resource :=
  match a with
  | SndSeqOpen ret => if ret <? 0 then [] else [RSeq]
  | GetAppName (Name _) => [RName]
  | CreateSimplePort ret => if ret <? 0 then [] else [RPort ret]
  | CallocSong true => [RSong]
  | Socketpair true sv0 sv1 => [RSock sv0; RSock sv1]
  | CreateMIDIEventList true => [REvents]
  | _ => []
  end.

Definition releases (a : res_action) : option resource :=
  match a with
  | DeleteSimplePort p => Some (RPort p)
  | SndSeqClose => Some RSeq
  | FreeName => Some RName
  | FreeSong => Some RSong
  | CloseSock fd => Some (RSock fd)
  | FreeMIDIEventList => Some REvents
  | _ => None
  end.

(** [held] without one [r]; [None] if [r] is not held. *)
Fixpoint give_up_one (r : resource) (held : list resource) : option (list resource) :=
  match held with
  | [] => None
  | h :: held' =>
    if resource_eqb h r then Some held'
    else option_map (cons h) (give_up_one r held')
  end.

(** What is held after a trace, starting from [held]; [None] if the trace
    releases something that is not held. *)
Fixpoint held_after (tr : list res_action) (held : list resource) : option (list resource) :=
  match tr with
  | [] => Some held
  | a :: tr' =>
    match releases a with
    | Some r =>
      match give_up_one r held with
      | Some held' => held_after tr' held'
      | None => None
      end
    | None => held_after tr' (held ++ acquires a)
    end
  end.

(** The environment of the model of the claims that a full environment
    stands for. *)
Definition load_env_of (env : full_env) (e : errors) : load_env :=
  {| le_sockets := if socketpair_ret env =? -1 then None else Some (sv env);
     le_events := events env;
     le_ppqn := events_ppqn env;
     le_seq := match open_seq (opening env) e with
               | (Opened cl sp, _, _) => Some (cl, sp)
               | _ => None
               end;
     le_dstaddr := subscribers;
     le_allow_pause := pause_hint env |}.

End Resources.
Export Resources.

(** ** Vocabulary of the further properties *)

Module Further.

(** The ports of a client in the order the discovery visits them. *)
Definition ports_of (c : client_info) : list port_info :=
  match ci_port0 c with
  | None => []
  | Some p0 => p0 :: ci_next c
  end.

(** The clients and ports the discovery would connect to, in its order:
    ports that pass the test of lines 259 to 262, of clients other than
    itself whose port 0 can be queried. *)
Definition candidates (env : seq_env) (required_type : Z) : list (Z * Z) :=
  flat_map (fun c =>
              if ci_client c =? own_client env then []
              else map (fun pi => (ci_client c, pi_port pi))
                       (List.filter (wanted required_type) (ports_of c)))
           (clients env).

Definition target (c : connect_call) : Z * Z := (cc_client c, cc_port c).

(** One connection attempt after the other, until one succeeds. *)
Fixpoint attempts (conn : nat -> Z -> Z -> Z) (cands : list (Z * Z)) (n : nat)
  : bool * list connect_call * nat :=
  match cands with
  | [] => (false, [], n)
  | (c, p) :: cands' =>
    let r := conn n c p in
    let call := {| cc_client := c; cc_port := p; cc_ret := r |} in
    if r =? 0 then (true, [call], S n)
    else
      let '(ok, calls, n') := attempts conn cands' (S n) in
      (ok, call :: calls, n')
  end.

(** A port some client other than [own] offers and that passes the test
    for [required_type]. *)
Definition offered (env : seq_env) (required_type : Z) (cp : Z * Z) : Prop :=
  fst cp <> own_client env /\
  exists c pi, In c (clients env) /\ ci_client c = fst cp /\
               In pi (ports_of c) /\ pi_port pi = snd cp /\
               wanted required_type pi = true.

(** A meta event the loop turns into a tempo change of the queue. *)
Definition tempo_meta (e : MIDIEvent) : bool :=
  (status e =? MIDI_SMF_META_EVENT) && (data_0 e =? MIDI_SMF_META_TEMPO)
  && (extraLen e =? 3).

(** The events the loop hands to the sequencer. *)
Definition handled (e : MIDIEvent) : bool := channel_voice e || tempo_meta e.

(** A turn that gets the session on.  With the cursor on an event: the
    transport has room, and the event is one the loop skips or the transport
    takes it (its answer is not [-EAGAIN]).  With the cursor at the end: the
    sentinel comes back in this turn. *)
Definition productive (p : player) (w : wake_input) : bool :=
  let p2 := after_input (after_command p w) w in
  match event p2 with
  | e :: _ => alsa_out w && (negb (handled e) || negb (output_ret w =? - EAGAIN))
  | [] => negb (playback_finished p) && playback_finished p2
  end.

(** How many of the turns [ws] get a session on that starts them in [p]. *)
Fixpoint productive_turns (p : player) (ws : list wake_input) : nat :=
  match ws with
  | [] => 0%nat
  | w :: ws' =>
    ((if productive p w then 1 else 0)
     + match wake p w with
       | (p', Continue) => productive_turns p' ws'
       | _ => 0
       end)%nat
  end.

(** What a session has before it: for every pass still to come the events
    of the list and its sentinel, then the events after the cursor and the
    sentinel under way. *)
Definition remaining (p : player) : Z :=
  (Z.of_nat (length (evtlist (song p))) + 1) * loopcount (song p)
  + Z.of_nat (length (event p))
  + (if playback_finished p then 0 else 1).

(** What holds of a session that has left its loop: [n] rewinds were made
    and [past] is the part of the list the cursor went over after the last
    one; [evs] and [L] are the event list and the loop count the session was
    started with. *)
Definition left_inv (evs : list MIDIEvent) (L : Z) (p : player) : Prop :=
  exists (n : nat) (past rest : list MIDIEvent),
    evs = past ++ rest /\
    consumed (trace p) = passes evs n ++ past /\
    sentinels (trace p) = S n /\
    rewinds (trace p) = n /\
    (0 <= L -> Z.of_nat n <= L).

(** The controller numbers of the closing broadcast, in the order they
    are sent for each channel. *)
Definition closing_controllers : list Z :=
  [MIDI_CTL_SUSTAIN; MIDI_CTL_ALL_NOTES_OFF; MIDI_CTL_RESET_CONTROLLERS;
   MIDI_CTL_ALL_SOUNDS_OFF].

(** The events the thread sent directly, without a queue. *)
Definition direct_outputs (tr : list action) : list snd_seq_event :=
  flat_map (fun a => match a with OutputDirect ev => [ev] | _ => [] end) tr.

End Further.
Export Further.

(** ** Sample surroundings *)

Module Settings.

Definition chars (s : String.string) : list Ascii.ascii := String.list_ascii_of_string s.

(** A process started as /usr/bin/game --fullscreen, without hints. *)
Definition sample_name_env : name_env :=
  {| hint_audio := None; hint_app := None; strdup_ok := true;
     pathconf_ret := 4096; calloc_ok := true;
     cmdline_read := Some (chars "/usr/bin"%string ++ "/"%char :: chars "game"%string
                             ++ "000"%char :: chars "--fullscreen"%string ++ ["000"%char]) |}.

(** The same process started as game, through the search path. *)
Definition bare_name_env : name_env :=
  {| hint_audio := None; hint_app := None; strdup_ok := true;
     pathconf_ret := 4096; calloc_ok := true;
     cmdline_read := Some (chars "game"%string ++ "000"%char :: []) |}.

(** A sequencer with a MIDI through port (client 14), a client whose port
    0 cannot be queried although its port 1 is a synthesizer (20), the client
    itself (128) and a software synthesizer with two ports (129), the first
    of which refuses connections. *)
Definition sample_seq_env : seq_env :=
  {| any_client_ret := 0; own_client := 128;
     clients :=
       [ {| ci_client := 14;
            ci_port0 := Some {| pi_port := 0; pi_cap := 99; pi_type := 655362 |};
            ci_next := [] |};
         {| ci_client := 20;
            ci_port0 := None;
            ci_next := [ {| pi_port := 1; pi_cap := 66; pi_type := 1311746 |} ] |};
         {| ci_client := 128;
            ci_port0 := Some {| pi_port := 0; pi_cap := 99; pi_type := 1048578 |};
            ci_next := [] |};
         {| ci_client := 129;
            ci_port0 := Some {| pi_port := 0; pi_cap := 66; pi_type := 1311746 |};
            ci_next := [ {| pi_port := 1; pi_cap := 66; pi_type := 1311746 |} ] |} ];
     connect := fun n c p => if (c =? 129) && (p =? 0) then -16 else 0 |}.

Definition sample_pick_env : pick_env :=
  {| no_connect := false; output_ports := None; sequencer := sample_seq_env |}.

Definition sample_open_env : open_env :=
  {| seq_open_ret := 0; seq_client := 128; naming := sample_name_env; port_ret := 0 |}.

(** A load that goes well, and one in which no port can be created. *)
Definition sample_full_env : full_env :=
  {| song_calloc_ok := true; socketpair_ret := 0; sv := (3, 4); errno := 0;
     events := [note_on]; events_ppqn := 96;
     opening := sample_open_env; picking := sample_pick_env;
     pause_hint := true; freesrc := 1 |}.
Definition failing_full_env : full_env :=
  {| song_calloc_ok := true; socketpair_ret := 0; sv := (3, 4); errno := 0;
     events := [note_on]; events_ppqn := 96;
     opening := {| seq_open_ret := 0; seq_client := 128; naming := sample_name_env;
                   port_ret := -12 |};
     picking := sample_pick_env;
     pause_hint := true; freesrc := 1 |}.

(** The song the load that goes well returns. *)
Definition loaded_song : NativeMidiSong :=
  {| playerthread := None; mainsock := 3; threadsock := 4; ppqn := 96;
     evtlist := [note_on]; seq := 128; srcport := 0;
     dstaddr := subscribers; loopcount := 0; endtime := 0;
     playerstate := NATIVE_MIDI_STOPPED; allow_pause := true |}.

(** The error state after an allocation has failed. *)
Definition after_oom : errors := MIDI_Mix_OutOfMemory no_errors.

(** A turn in which the sequencer has no room for the event. *)
Definition busy_turn : wake_input :=
  {| poll_ret := 1; cmdsock_in := false; read_ret := 0; readbuf_0 := 0; readbuf_1 := 0;
     alsa_in := false; input_ret := 0; revt := snd_seq_ev_clear; alsa_out := true;
     drain_ret := 0; reset_again := 0; reset_ret := 0; echo_again := 0; echo_ret := 0;
     output_ret := - EAGAIN |}.

(** A song whose only event is a tempo change. *)
Definition tempo_song : NativeMidiSong :=
  {| playerthread := None; mainsock := 3; threadsock := 4; ppqn := 96;
     evtlist := [tempo_change]; seq := 128; srcport := 0;
     dstaddr := {| client := 14; port := 0 |}; loopcount := 0; endtime := 10;
     playerstate := NATIVE_MIDI_STOPPED; allow_pause := true |}.

(** The system after the one-event song was loaded and started as thread
    5, and the thread has reached its loop. *)
Definition started_song : NativeMidiSong :=
  set_playerthread (Some 5%nat)
    (set_playerstate NATIVE_MIDI_STARTING (set_loopcount 0 short_song)).
Definition playing_system : system :=
  {| shared := {| heap := {[ 0%nat := song (setup started_song sample_setup) ]};
                  currentsong := Some 0%nat |};
     threads := {[ 5%nat := (0%nat, InLoop (setup started_song sample_setup)) ]};
     ctl := Idle;
     writes := [(0%nat, NATIVE_MIDI_STOPPED); (0%nat, NATIVE_MIDI_STARTING);
                (0%nat, NATIVE_MIDI_PLAYING)] |}.

(** Two songs: the one at 0 plays as thread 7, the one at 1 was loaded
    after it, is stopped and is the current song. *)
Definition two_songs : world :=
  {| heap := {[ 0%nat := song_of NATIVE_MIDI_PLAYING (Some 7%nat) true;
                1%nat := song_of NATIVE_MIDI_STOPPED None true ]};
     currentsong := Some 1%nat |}.

End Settings.
Export Settings.

(** * Properties *)

(** ** Queue ids in events *)

Lemma queue_id_byte (q : Z) : 0 <= queue_id q < 256.
Proof. unfold queue_id. apply Z.mod_pos_bound. lia. Qed.

Lemma queue_id_small (q : Z) : 0 <= q < 256 -> queue_id q = q.
Proof. intros H. unfold queue_id. apply Z.mod_small. exact H. Qed.

(** ** Event translation *)

Section Translation.

Variables (p : player) (e : MIDIEvent) (next : list MIDIEvent) (ret : Z).

Lemma process_handled ev1 :
  translate (queue p) e (addressed p e) = (ev1, false) ->
  process p e next ret =
    (if ret =? - EAGAIN
     then emit [Output ev1 ret] (set_evt ev1 p)
     else set_event next (emit [Output ev1 ret; DbgLog false e] (set_evt ev1 p))).
Proof.
  intros H. unfold process. rewrite H. reflexivity.
Qed.

Lemma process_unhandled ev1 :
  translate (queue p) e (addressed p e) = (ev1, true) ->
  process p e next ret = set_event next (emit [DbgLog true e] (set_evt ev1 p)).
Proof.
  intros H. unfold process. rewrite H. reflexivity.
Qed.

End Translation.

Lemma translate_bender (q : Z) (e : MIDIEvent) (ev : snd_seq_event) :
  Z.land (status e) 0xF0 = MIDI_CMD_BENDER ->
  translate q e ev =
    (snd_seq_ev_set_pitchbend (Z.land (status e) 0x0F)
       (Z.lor (Z.shiftl (data_1 e) 7) (Z.land (data_0 e) 0x7F) - 8192) ev, false).
Proof.
  intros H. unfold translate. rewrite H. reflexivity.
Qed.

(** Bit fields that do not overlap add up. *)
Lemma lor_disjoint_add (a b : Z) : Z.land a b = 0 -> Z.lor a b = a + b.
Proof.
  intros H. rewrite <- (Z.lxor_lor a b H). symmetry. apply Z.add_nocarry_lxor, H.
Qed.

Lemma land_shifted_low (hi lo k : Z) :
  0 <= k -> 0 <= lo < 2 ^ k -> Z.land (hi * 2 ^ k) lo = 0.
Proof.
  intros Hk Hlo. apply Z.bits_inj_0. intros n. rewrite Z.land_spec.
  destruct (Z.lt_ge_cases n 0) as [Hn0 | Hn0].
  - rewrite (Z.testbit_neg_r _ n) by lia. reflexivity.
  - destruct (Z.lt_ge_cases n k) as [Hn | Hn].
    + rewrite Z.mul_pow2_bits_low by lia. reflexivity.
    + destruct (Z.eq_dec lo 0) as [-> | Hne].
      * rewrite Z.bits_0. apply andb_false_r.
      * rewrite (Z.bits_above_log2 lo); [apply andb_false_r | lia |].
        apply Z.lt_le_trans with k; [| exact Hn].
        apply Z.log2_lt_pow2; lia.
Qed.

(** Two seven-bit halves joined by [|] are their weighted sum. *)
Lemma fourteen_bit (hi lo : Z) :
  0 <= hi < 128 -> 0 <= lo < 256 ->
  Z.lor (Z.shiftl hi 7) (Z.land lo 0x7F) = hi * 128 + lo mod 128.
Proof.
  intros Hhi Hlo.
  change 0x7F with (Z.ones 7). rewrite Z.land_ones by lia.
  rewrite Z.shiftl_mul_pow2 by lia.
  assert (Hm : 0 <= lo mod 2 ^ 7 < 2 ^ 7) by (apply Z.mod_pos_bound; lia).
  rewrite lor_disjoint_add by (apply land_shifted_low; lia).
  reflexivity.
Qed.

(** C6. For an event whose status nibble is the pitch-bend command and whose
    second data byte is a MIDI data byte (below 128), the loop body hands the
    transport a pitch-bend event for the channel of the status byte whose
    value is [v - 8192], where [v] is the 14-bit number with [data[1]] as its
    high seven bits and the low seven bits of [data[0]] as its low seven
    bits; the value lies in [-8192, 8191].  The event is addressed to the
    destination of the song and scheduled at the tick of the MIDI event on
    the queue of the session, whose id the event stores in one byte. *)
Theorem pitch_bend_translation (p : player) (e : MIDIEvent) (next : list MIDIEvent) (ret : Z) :
  Z.land (status e) 0xF0 = MIDI_CMD_BENDER ->
  is_byte (data_0 e) ->
  0 <= data_1 e < 128 ->
  let v := data_1 e * 128 + data_0 e mod 128 in
  exists ev1 rest,
    trace (process p e next ret) = trace p ++ Output ev1 ret :: rest /\
    type ev1 = SND_SEQ_EVENT_PITCHBEND /\
    data ev1 = DataChannelValue (Z.land (status e) 0x0F) (v - 8192) /\
    dest ev1 = dstaddr (song p) /\
    sched ev1 = QueueTick (queue_id (queue p)) (time e) /\
    (0 <= queue p < 256 -> sched ev1 = QueueTick (queue p) (time e)) /\
    0 <= v < 2 ^ 14 /\
    -8192 <= v - 8192 <= 8191 /\
    (forall i, 0 <= i < 7 -> Z.testbit v i = Z.testbit (data_0 e) i) /\
    (forall i, 7 <= i -> Z.testbit v i = Z.testbit (data_1 e) (i - 7)) /\
    (data_0 e < 128 -> v = data_1 e * 128 + data_0 e).
Proof.
  intros Hcmd H0 H1 v. unfold is_byte in H0.
  pose proof (translate_bender (queue p) e (addressed p e) Hcmd) as Ht.
  rewrite fourteen_bit in Ht by lia. fold v in Ht.
  rewrite (process_handled p e next ret _ Ht).
  assert (Hm : 0 <= data_0 e mod 128 < 128) by (apply Z.mod_pos_bound; lia).
  assert (Hv : v = Z.lor (data_1 e * 2 ^ 7) (data_0 e mod 2 ^ 7)).
  { rewrite lor_disjoint_add; [reflexivity |].
    apply land_shifted_low; [lia |]. apply Z.mod_pos_bound. lia. }
  eexists. exists (if ret =? - EAGAIN then [] else [DbgLog false e]).
  split; [destruct (ret =? - EAGAIN); reflexivity |].
  repeat split; try reflexivity; try (subst v; simpl; lia).
  - simpl. destruct (dstaddr (song p)); reflexivity.
  - intros Hq. simpl. rewrite (queue_id_small _ Hq). reflexivity.
  - intros i Hi. rewrite Hv, Z.lor_spec, Z.mul_pow2_bits_low by lia.
    rewrite Z.mod_pow2_bits_low by lia. reflexivity.
  - intros i Hi. rewrite Hv, Z.lor_spec, Z.mul_pow2_bits by lia.
    rewrite Z.mod_pow2_bits_high by lia. apply orb_false_r.
  - intros Hlt. subst v. rewrite Z.mod_small by lia. reflexivity.
Qed.

Lemma translate_tempo (q : Z) (e : MIDIEvent) (ev : snd_seq_event) (a b c : Z) :
  status e = MIDI_SMF_META_EVENT -> data_0 e = MIDI_SMF_META_TEMPO ->
  extraData e = [a; b; c] -> is_byte a -> is_byte b -> is_byte c ->
  translate q e ev = (snd_seq_ev_set_queue_tempo q (be24 a b c) ev, false).
Proof.
  unfold is_byte. intros Hs Hd He Ha Hb Hc.
  unfold translate, extraLen, extra. rewrite Hs, Hd, He. simpl.
  unfold wrap32, be24. rewrite !Z.shiftl_mul_pow2 by lia.
  rewrite !Z.mod_small by lia. reflexivity.
Qed.

Lemma translate_meta_unhandled (q : Z) (e : MIDIEvent) (ev : snd_seq_event) :
  status e = MIDI_SMF_META_EVENT -> extraLen e <> 3 ->
  translate q e ev = (ev, true).
Proof.
  intros Hs Hl. unfold translate. rewrite Hs. simpl.
  apply Z.eqb_neq in Hl. rewrite Hl, andb_false_r. reflexivity.
Qed.

Lemma be24_sum (a b c : Z) :
  is_byte a -> is_byte b -> is_byte c ->
  be24 a b c = a * 65536 + b * 256 + c /\ 0 <= be24 a b c < 2 ^ 24.
Proof.
  unfold is_byte, be24. intros Ha Hb Hc.
  rewrite !Z.shiftl_mul_pow2 by lia.
  assert (H1 : Z.lor (a * 2 ^ 16) (b * 2 ^ 8) = a * 2 ^ 16 + b * 2 ^ 8).
  { apply lor_disjoint_add, land_shifted_low; lia. }
  rewrite H1.
  replace (a * 2 ^ 16 + b * 2 ^ 8) with ((a * 2 ^ 8 + b) * 2 ^ 8) by lia.
  rewrite lor_disjoint_add by (apply land_shifted_low; lia).
  lia.
Qed.

(** A channel voice message is sent to the destination of the song,
    whatever the main event was addressed to before. *)
Lemma channel_voice_dest (p : player) (e : MIDIEvent) (next : list MIDIEvent) (ret : Z) :
  channel_voice e = true ->
  exists ev1 rest,
    trace (process p e next ret) = trace p ++ Output ev1 ret :: rest /\
    dest ev1 = dstaddr (song p).
Proof.
  intros Hv.
  assert (Ht : exists ev1, translate (queue p) e (addressed p e) = (ev1, false)
                           /\ dest ev1 = dstaddr (song p)).
  { unfold channel_voice in Hv. unfold translate.
    repeat match goal with
           | |- context [if ?c then _ else _] =>
               destruct c eqn:?; [eexists; split; [reflexivity |];
                                  simpl; destruct (dstaddr (song p)); reflexivity |]
           end.
    simpl in Hv. discriminate. }
  destruct Ht as (ev1 & Ht & Hd).
  rewrite (process_handled p e next ret _ Ht).
  exists ev1, (if ret =? - EAGAIN then [] else [DbgLog false e]).
  split; [destruct (ret =? - EAGAIN); reflexivity | exact Hd].
Qed.

(** C5. A meta event of type tempo with exactly three extra bytes goes out
    through [snd_seq_event_output] as a tempo change of the queue, addressed
    to the system timer, with the 24-bit big-endian value of the three bytes
    and the id of the queue of the session as the event stores it, in one
    byte; the main event keeps that address, and the next channel voice message is
    addressed to the destination of the song again.  With any other number of
    extra bytes the event is unhandled: it is logged, nothing is handed to the
    transport, and the cursor moves on. *)
Theorem meta_tempo_translation
        (p : player) (e : MIDIEvent) (next : list MIDIEvent) (ret : Z) :
  status e = MIDI_SMF_META_EVENT ->
  data_0 e = MIDI_SMF_META_TEMPO ->
  Forall is_byte (extraData e) ->
  let p' := process p e next ret in
  match extraData e with
  | [a; b; c] =>
      let ev1 := snd_seq_ev_set_queue_tempo (queue p) (be24 a b c) (addressed p e) in
      trace p' = trace p ++ Output ev1 ret
                             :: (if ret =? - EAGAIN then [] else [DbgLog false e]) /\
      type ev1 = SND_SEQ_EVENT_TEMPO /\
      data ev1 = DataQueueValue (queue_id (queue p)) (be24 a b c) /\
      (0 <= queue p < 256 -> data ev1 = DataQueueValue (queue p) (be24 a b c)) /\
      dest ev1 = system_timer /\
      be24 a b c = a * 65536 + b * 256 + c /\
      0 <= be24 a b c < 2 ^ 24 /\
      evt p' = ev1 /\
      event p' = (if ret =? - EAGAIN then event p else next) /\
      (forall e2 next2 ret2, channel_voice e2 = true ->
         exists ev2 rest,
           trace (process p' e2 next2 ret2) = trace p' ++ Output ev2 ret2 :: rest /\
           dest ev2 = dstaddr (song p))
  | _ =>
      trace p' = trace p ++ [DbgLog true e] /\ event p' = next /\ song p' = song p
  end.
Proof.
  intros Hs Hd Hb p'.
  assert (Hbad : extraLen e <> 3 ->
                 trace p' = trace p ++ [DbgLog true e] /\ event p' = next /\ song p' = song p).
  { intros Hl. subst p'.
    rewrite (process_unhandled p e next ret _
               (translate_meta_unhandled _ e _ Hs Hl)).
    repeat split. }
  unfold extraLen in Hbad.
  destruct (extraData e) as [| a [| b [| c [| d l]]]] eqn:He;
    try (apply Hbad; simpl; lia).
  clear Hbad.
  assert (Ha : is_byte a /\ is_byte b /\ is_byte c).
  { inversion Hb as [| ? ? Ha Hb1]; subst. inversion Hb1 as [| ? ? Hb' Hb2]; subst.
    inversion Hb2; subst. auto. }
  destruct Ha as (Ha & Hb' & Hc).
  pose proof (translate_tempo (queue p) e (addressed p e) a b c Hs Hd He Ha Hb' Hc) as Ht.
  pose proof (process_handled p e next ret _ Ht) as Hp. fold p' in Hp.
  destruct (be24_sum a b c Ha Hb' Hc) as [Hsum Hrange].
  assert (Hsong : song p' = song p).
  { rewrite Hp. destruct (ret =? - EAGAIN); reflexivity. }
  repeat split; try apply Hrange; try exact Hsum.
  - rewrite Hp. destruct (ret =? - EAGAIN); reflexivity.
  - intros Hq. simpl. rewrite (queue_id_small _ Hq). reflexivity.
  - rewrite Hp. destruct (ret =? - EAGAIN); reflexivity.
  - rewrite Hp. destruct (ret =? - EAGAIN); reflexivity.
  - intros e2 next2 ret2 Hv. rewrite <- Hsong. apply channel_voice_dest, Hv.
Qed.

(** ** Setup of a session *)

Lemma last_time_last (e : MIDIEvent) (next : list MIDIEvent) (d : MIDIEvent) :
  last_time e next = time (last_event (e :: next) d).
Proof.
  revert e. induction next as [| e' next IH]; intros e; [reflexivity |].
  simpl last_time. rewrite IH. reflexivity.
Qed.

Lemma loadsong_endtime (le : load_env) (s : NativeMidiSong) (d : MIDIEvent) :
  loadsong le = Some s ->
  evtlist s = le_events le /\ evtlist s <> [] /\
  endtime s = time (last_event (evtlist s) d) /\
  playerstate s = NATIVE_MIDI_STOPPED /\ playerthread s = None.
Proof.
  unfold loadsong. intros H.
  destruct (le_sockets le) as [[sv0 sv1] |]; [| discriminate].
  destruct (le_events le) as [| e next] eqn:He; [discriminate |].
  destruct (le_seq le) as [[cl sp] |]; [| discriminate].
  injection H as <-. simpl. repeat split; try discriminate.
  apply last_time_last.
Qed.

(** C2, counterexample.  In the trace of the setup the switch to
    non-blocking mode stands before the first sentinel, not after the
    write of PLAYING. *)
Lemma setup_order_counterexample :
  position is_nonblock_on (trace (setup sample_song sample_setup)) = Some 3%nat /\
  position is_echo_output (trace (setup sample_song sample_setup)) = Some 5%nat /\
  position is_set_playing (trace (setup sample_song sample_setup)) = Some 6%nat /\
  ~ sentinel_before_nonblock (trace (setup sample_song sample_setup)).
Proof.
  repeat split; try reflexivity.
  intros (i & j & k & Hi & Hj & Hk & Hij & Hjk).
  vm_compute in Hi, Hj, Hk.
  injection Hi as <-. injection Hj as <-. injection Hk as <-. lia.
Qed.

(** C2, amended.  The setup allocates the queue and starts it, fetches the
    poll descriptors, switches the transport to non-blocking mode, sets the
    tempo to 500000 and the resolution to the ppqn of the song, hands the
    sentinel to the transport again and again while the answer is -EAGAIN
    (one [OutputSpin]), and writes PLAYING last.  The sentinel is an echo event addressed to the
    own port and scheduled on the new queue at [endtime + 1] (on 32 bits),
    and a loaded song has the time of its last event as [endtime].  The
    event stores the id of the queue in one byte: it is the id that
    [snd_seq_alloc_named_queue] answered when that is a queue id (0 to 255),
    and its low eight bits otherwise (255 for the error answer -1). *)
Theorem setup_sequence (le : load_env) (s : NativeMidiSong) (env : setup_env) (d : MIDIEvent) :
  loadsong le = Some s ->
  let q := se_queue env in
  let echo := echo_event s q in
  trace (setup s env) =
    [AllocQueue q; StartQueue q; PollDescriptors; Nonblock true;
     SetQueueTempo q 500000 (ppqn s);
     OutputSpin echo (se_echo_again env) (se_echo_ret env);
     SetState NATIVE_MIDI_PLAYING] /\
  type echo = SND_SEQ_EVENT_ECHO /\
  dest echo = {| client := seq s; port := srcport s |} /\
  sched echo = QueueTick (queue_id q) (wrap32 (endtime s + 1)) /\
  endtime s = time (last_event (evtlist s) d) /\
  (0 <= endtime s < 2 ^ 32 - 1 -> sched echo = QueueTick (queue_id q) (endtime s + 1)) /\
  playerstate (song (setup s env)) = NATIVE_MIDI_PLAYING /\
  event (setup s env) = evtlist s /\
  0 <= queue_id q < 256 /\
  (0 <= q < 256 -> sched echo = QueueTick q (wrap32 (endtime s + 1))) /\
  queue_id (-1) = 255.
Proof.
  intros Hl q echo.
  destruct (loadsong_endtime le s d Hl) as (_ & _ & Hend & _).
  repeat split; try exact Hend; try apply queue_id_byte.
  - intros Hr. subst echo. unfold echo_event, snd_seq_ev_schedule_tick. simpl.
    unfold wrap32. rewrite Z.mod_small by lia. reflexivity.
  - intros Hq. subst echo. unfold echo_event, snd_seq_ev_schedule_tick. simpl.
    rewrite (queue_id_small _ Hq). reflexivity.
Qed.

(** ** A system that played a song to its end *)

Lemma rtc_end (σ σ' : system) : σ = σ' -> rtc step σ σ'.
Proof. intros ->. apply rtc_refl. Qed.

Lemma played_reachable : reachable played_system.
Proof.
  unfold reachable.
  eapply rtc_l.
  { eapply (step_load initial 0%nat short_load); vm_compute; reflexivity. }
  eapply rtc_l.
  { eapply (step_return _ (Start (Some 0%nat) 0 2 (Some 5%nat)));
      [vm_compute; reflexivity | vm_compute; reflexivity |].
    intros l t [H | []]. vm_compute. reflexivity. }
  eapply rtc_l.
  { eapply (step_setup _ 5%nat 0%nat _ sample_setup); vm_compute; reflexivity. }
  eapply rtc_l.
  { eapply (step_wake _ 5%nat 0%nat _ _ _ send_turn);
      [vm_compute; reflexivity .. | discriminate]. }
  eapply rtc_l.
  { eapply (step_wake _ 5%nat 0%nat _ _ _ (echo_turn short_song));
      [vm_compute; reflexivity .. | discriminate]. }
  eapply rtc_l.
  { eapply (step_teardown _ 5%nat 0%nat); vm_compute; reflexivity. }
  apply rtc_end. vm_compute. reflexivity.
Qed.

(** ** The control surface *)

(** C10. [native_midi_setvolume] writes nothing and changes nothing unless
    there is a current song whose state is PLAYING: with no current song, or
    in state STOPPED, STARTING or PAUSED, the call is a no-op. *)
Theorem setvolume_only_when_playing (w : world) (volume wr : Z) :
  (forall s, current w = Some s -> playerstate s <> NATIVE_MIDI_PLAYING) ->
  no_op w (native_midi_setvolume w volume wr).
Proof.
  unfold current, no_op, native_midi_setvolume. intros H.
  destruct (deref w (currentsong w)) as [s |]; [| reflexivity].
  specialize (H s eq_refl).
  destruct (playerstate s); try reflexivity. contradiction.
Qed.

Lemma setvolume_when_playing (w : world) (s : NativeMidiSong) (volume wr : Z) :
  current w = Some s -> playerstate s = NATIVE_MIDI_PLAYING ->
  native_midi_setvolume w volume wr =
    Ret w [CtlWrite (mainsock s) [THREAD_CMD_SETVOL; clamp_volume volume] wr].
Proof.
  unfold current, native_midi_setvolume. intros -> ->. simpl.
  assert (H : 0 <= clamp_volume volume < 256).
  { unfold clamp_volume. destruct (volume <? 0) eqn:E1; [lia |].
    destruct (127 <? volume) eqn:E2; lia. }
  rewrite Z.mod_small by exact H. reflexivity.
Qed.

(** C4. [native_midi_pause] does nothing unless there is a current song
    whose state is above STOPPED and which allows pausing;
    [native_midi_resume] does nothing unless there is a current song whose
    state is PAUSED. *)
Theorem pause_resume_preconditions (w : world) (wr : Z) :
  (~ (exists s, current w = Some s /\
                state_val NATIVE_MIDI_STOPPED < state_val (playerstate s) /\
                allow_pause s = true) ->
   no_op w (native_midi_pause w wr)) /\
  (~ (exists s, current w = Some s /\ playerstate s = NATIVE_MIDI_PAUSED) ->
   no_op w (native_midi_resume w wr)).
Proof.
  unfold current, no_op, native_midi_pause, native_midi_resume.
  split; intros H; destruct (deref w (currentsong w)) as [s |]; try reflexivity.
  - destruct (playerstate s) eqn:Hst; try reflexivity;
      destruct (allow_pause s) eqn:Hal; try reflexivity;
      exfalso; apply H; exists s; rewrite Hst; simpl;
      repeat split; try reflexivity; try assumption; lia.
  - destruct (playerstate s) eqn:Hst; try reflexivity.
    exfalso. apply H. exists s. auto.
Qed.

(** C3, counterexample.  After a session has ended by itself the state is
    STOPPED and the handle of its thread is still held: [native_midi_stop]
    then waits for the thread (and clears the handle afterwards). *)
Lemma stop_when_stopped_counterexample :
  reachable played_system /\
  option_map playerstate (current (shared played_system)) = Some NATIVE_MIDI_STOPPED /\
  native_midi_stop (shared played_system) 2 = Join 5%nat [] (PendingStop 0%nat) /\
  ~ no_op (shared played_system) (native_midi_stop (shared played_system) 2).
Proof.
  split; [apply played_reachable |].
  split; [vm_compute; reflexivity |].
  split; [vm_compute; reflexivity |].
  unfold no_op. vm_compute. discriminate.
Qed.

(** C3, amended.  When the state of the current song is STOPPED,
    [native_midi_stop] writes no frame; it is a no-op if no thread handle is
    held, and otherwise it waits for the thread of the ended session and
    then clears the handle. *)
Theorem stop_when_stopped (w : world) (l : nat) (s : NativeMidiSong) (wr : Z) :
  currentsong w = Some l ->
  heap w !! l = Some s ->
  playerstate s = NATIVE_MIDI_STOPPED ->
  call_actions (native_midi_stop w wr) = [] /\
  (playerthread s = None -> no_op w (native_midi_stop w wr)) /\
  (forall t, playerthread s = Some t ->
     native_midi_stop w wr = Join t [] (PendingStop l) /\
     forall created w', heap w' !! l = Some s ->
       resume_call (PendingStop l) created w' = (store l (set_playerthread None s) w', [])).
Proof.
  intros Hc Hl Hs. unfold native_midi_stop, no_op. rewrite Hc, Hl, Hs.
  split; [| split].
  - destruct (playerthread s); reflexivity.
  - intros ->. reflexivity.
  - intros t Ht. rewrite Ht. split; [reflexivity |].
    intros created w' Hl'. simpl. rewrite Hl'. reflexivity.
Qed.

(** C7. When [write] does not answer the frame length: [native_midi_pause],
    [native_midi_resume] and [native_midi_setvolume] return as they would
    otherwise, the world unchanged and nothing done beyond the write; a
    [native_midi_start] or [native_midi_stop] that wrote QUIT returns at once,
    the world unchanged, without waiting for the thread and without creating
    one. *)
Theorem control_send_failure (w : world) (wr : Z) :
  wr <> CMD_PKT_LEN ->
  (exists acts, native_midi_pause w wr = Ret w acts /\
                (acts = [] \/ exists sock, acts = [pause_write sock wr])) /\
  (exists acts, native_midi_resume w wr = Ret w acts /\
                (acts = [] \/ exists sock, acts = [resume_write sock wr])) /\
  (forall volume,
     exists acts, native_midi_setvolume w volume wr = Ret w acts /\
                  (acts = [] \/ exists sock byte, acts = [CtlWrite sock [THREAD_CMD_SETVOL; byte] wr])) /\
  (forall song loops created sock,
     In (quit_write sock wr) (call_actions (native_midi_start w song loops wr created)) ->
     native_midi_start w song loops wr created = Ret w [quit_write sock wr]) /\
  (forall sock,
     In (quit_write sock wr) (call_actions (native_midi_stop w wr)) ->
     native_midi_stop w wr = Ret w [quit_write sock wr]) /\
  (forall song loops created t acts rest,
     native_midi_start w song loops wr created = Join t acts rest -> acts = []) /\
  (forall t acts rest, native_midi_stop w wr = Join t acts rest -> acts = []).
Proof.
  intros Hwr. apply Z.eqb_neq in Hwr.
  repeat apply conj.
  - unfold native_midi_pause.
    destruct (deref w (currentsong w)) as [s |]; [| eauto].
    destruct (_ || _);
      [eauto | eexists; split; [reflexivity | right; eexists; reflexivity]].
  - unfold native_midi_resume.
    destruct (deref w (currentsong w)) as [s |]; [| eauto].
    destruct (_ || _);
      [eauto | eexists; split; [reflexivity | right; eexists; reflexivity]].
  - intros volume. unfold native_midi_setvolume.
    destruct (deref w (currentsong w)) as [s |]; [| eauto].
    destruct (negb _);
      [eauto | eexists; split; [reflexivity | right; do 2 eexists; reflexivity]].
  - intros song loops created sock. unfold native_midi_start.
    destruct song as [l |]; [| intros []].
    destruct (heap w !! l) as [s |] eqn:Hl; [| intros []].
    destruct (playerthread s) as [t |].
    + destruct (deref w (currentsong w)) as [cur |]; [| intros []].
      destruct (_ <? _); [| intros []].
      rewrite Hwr. simpl. intros [H | []]. injection H as ->. reflexivity.
    + unfold start_thread. rewrite Hl.
      simpl. intros [H | []]. discriminate H.
  - intros sock. unfold native_midi_stop.
    destruct (currentsong w) as [l |]; [| intros []].
    destruct (heap w !! l) as [s |]; [| intros []].
    destruct (playerthread s) as [t |]; [| intros []].
    destruct (_ <? _); [| intros []].
    rewrite Hwr. simpl. intros [H | []]. injection H as ->. reflexivity.
  - intros song loops created t acts rest. unfold native_midi_start.
    destruct song as [l |]; [| discriminate].
    destruct (heap w !! l) as [s |] eqn:Hl; [| discriminate].
    destruct (playerthread s) as [t' |].
    + destruct (deref w (currentsong w)) as [cur |]; [| discriminate].
      destruct (_ <? _); [rewrite Hwr; discriminate |].
      intros H. injection H as _ <- _. reflexivity.
    + unfold start_thread. rewrite Hl. discriminate.
  - intros t acts rest. unfold native_midi_stop.
    destruct (currentsong w) as [l |]; [| discriminate].
    destruct (heap w !! l) as [s |]; [| discriminate].
    destruct (playerthread s) as [t' |]; [| discriminate].
    destruct (_ <? _); [rewrite Hwr; discriminate |].
    intros H. injection H as _ <- _. reflexivity.
Qed.

(** ** The loop body and the trace *)

(** No stage of the loop body reads the trace: each commutes with
    [rebase]. *)
Ltac rebase_tac :=
  unfold atomic_set;
  unfold rebase, set_trace, emit, set_song, set_event, set_evt,
    set_pollout, set_playback_finished, set_current_volume;
  repeat progress (simpl; rewrite <- ?app_assoc); try reflexivity.

Lemma rebase_fresh (p : player) : rebase (trace p) (fresh p) = p.
Proof.
  destruct p. unfold rebase, fresh, set_trace. simpl. rewrite app_nil_r. reflexivity.
Qed.

Lemma command_rebase (t : list action) (p : player) (op x : Z) :
  command (rebase t p) op x = rebase t (command p op x).
Proof.
  unfold command.
  repeat match goal with |- context [if ?c then _ else _] => destruct c end;
    rebase_tac.
Qed.

Lemma after_command_rebase (t : list action) (p : player) (w : wake_input) :
  after_command (rebase t p) w = rebase t (after_command p w).
Proof.
  unfold after_command. destruct (_ && _); [apply command_rebase | reflexivity].
Qed.

Lemma after_input_rebase (t : list action) (p : player) (w : wake_input) :
  after_input (rebase t p) w = rebase t (after_input p w).
Proof.
  unfold after_input. simpl. destruct (_ && _); reflexivity.
Qed.

Lemma process_rebase (t : list action) (p : player) (e : MIDIEvent)
      (next : list MIDIEvent) (ret : Z) :
  process (rebase t p) e next ret = rebase t (process p e next ret).
Proof.
  unfold process. change (addressed (rebase t p) e) with (addressed p e). simpl.
  destruct (translate (queue p) e (addressed p e)) as [ev1 [|]];
    [| destruct (ret =? - EAGAIN)]; rebase_tac.
Qed.

Lemma send_rebase (t : list action) (p : player) (w : wake_input) :
  send (rebase t p) w = (rebase t (fst (send p w)), snd (send p w)).
Proof.
  unfold send. destruct (negb (alsa_out w)); [reflexivity |]. simpl.
  destruct (event p); [reflexivity |]. simpl. rewrite process_rebase. reflexivity.
Qed.

Lemma rewind_rebase (t : list action) (p : player) (w : wake_input) :
  rewind (rebase t p) w = rebase t (rewind p w).
Proof.
  unfold rewind. simpl. destruct (0 <? loopcount (song p)); rebase_tac.
Qed.

Lemma wake_rebase (t : list action) (p : player) (w : wake_input) :
  wake (rebase t p) w = (rebase t (fst (wake p w)), snd (wake p w)).
Proof.
  unfold wake. destruct (poll_ret w <=? 0); [reflexivity |].
  rewrite after_command_rebase, after_input_rebase.
  set (p2 := after_input (after_command p w) w).
  change (event (rebase t p2)) with (event p2).
  change (playback_finished (rebase t p2)) with (playback_finished p2).
  change (song (rebase t p2)) with (song p2).
  destruct (event p2); [| apply send_rebase].
  destruct (playback_finished p2).
  - destruct (loopcount (song p2) =? 0); [reflexivity |].
    rewrite rewind_rebase. apply send_rebase.
  - destruct (drain_ret w =? 0); simpl; f_equal; rebase_tac.
Qed.

(** One turn of the loop appends [wake_actions] to the trace. *)
Lemma wake_trace (p : player) (w : wake_input) :
  trace (fst (wake p w)) = trace p ++ wake_actions p w.
Proof.
  rewrite <- (rebase_fresh p) at 1. rewrite wake_rebase. reflexivity.
Qed.

(** ** What a turn of the loop leaves alone *)

Lemma process_frame (p : player) (e : MIDIEvent) (next : list MIDIEvent) (ret : Z) :
  song (process p e next ret) = song p /\
  current_volume (process p e next ret) = current_volume p /\
  queue (process p e next ret) = queue p /\
  playback_finished (process p e next ret) = playback_finished p /\
  pollout (process p e next ret) = pollout p.
Proof.
  unfold process. destruct (translate _ _ _) as [ev1 [|]];
    [| destruct (ret =? - EAGAIN)]; repeat split.
Qed.

Lemma send_frame (p : player) (w : wake_input) :
  song (fst (send p w)) = song p /\
  current_volume (fst (send p w)) = current_volume p /\
  queue (fst (send p w)) = queue p /\
  playback_finished (fst (send p w)) = playback_finished p /\
  pollout (fst (send p w)) = pollout p.
Proof.
  unfold send. destruct (negb (alsa_out w)); [repeat split |].
  destruct (event p); [repeat split |]. apply process_frame.
Qed.

Lemma rewind_frame (p : player) (w : wake_input) :
  constants (song (rewind p w)) = constants (song p) /\
  playerthread (song (rewind p w)) = playerthread (song p) /\
  playerstate (song (rewind p w)) = playerstate (song p) /\
  current_volume (rewind p w) = current_volume p /\
  queue (rewind p w) = queue p.
Proof.
  unfold rewind. destruct (0 <? loopcount (song p)); repeat split.
Qed.

Lemma command_frame (p : player) (op x : Z) :
  constants (song (command p op x)) = constants (song p) /\
  playerthread (song (command p op x)) = playerthread (song p) /\
  queue (command p op x) = queue p /\
  current_volume (command p op x) = (if op =? THREAD_CMD_SETVOL then x else current_volume p).
Proof.
  unfold command.
  destruct (op =? THREAD_CMD_QUIT) eqn:E1.
  { apply Z.eqb_eq in E1. subst op. repeat split. }
  destruct (op =? THREAD_CMD_SETVOL); [repeat split |].
  destruct (op =? THREAD_CMD_PAUSE); [repeat split |].
  destruct (op =? THREAD_CMD_RESUME); repeat split.
Qed.

Lemma after_input_frame (p : player) (w : wake_input) :
  song (after_input p w) = song p /\
  current_volume (after_input p w) = current_volume p /\
  queue (after_input p w) = queue p /\
  event (after_input p w) = event p /\
  trace (after_input p w) = trace p.
Proof.
  unfold after_input. destruct (_ && _); repeat split.
Qed.

(** The volume the thread remembers follows the SETVOL frames it reads. *)
Lemma wake_current_volume (p : player) (w : wake_input) :
  current_volume (fst (wake p w)) = next_volume (current_volume p) w.
Proof.
  unfold wake, next_volume, frame_read.
  destruct (poll_ret w <=? 0) eqn:Hp.
  - apply Z.leb_le in Hp. replace (0 <? poll_ret w) with false by (symmetry; apply Z.ltb_ge; lia).
    reflexivity.
  - apply Z.leb_gt in Hp. replace (0 <? poll_ret w) with true by (symmetry; apply Z.ltb_lt; lia).
    simpl.
    assert (Hc : current_volume (after_input (after_command p w) w) =
                 (if cmdsock_in w && (read_ret w =? CMD_PKT_LEN)
                  then if readbuf_0 w =? THREAD_CMD_SETVOL then readbuf_1 w else current_volume p
                  else current_volume p)).
    { destruct (after_input_frame (after_command p w) w) as (_ & -> & _).
      unfold after_command. destruct (_ && _); [apply command_frame | reflexivity]. }
    set (p2 := after_input (after_command p w) w) in *.
    assert (Hgoal : current_volume
                      (fst (match event p2 with
                            | [] =>
                                if playback_finished p2
                                then if loopcount (song p2) =? 0 then (p2, Break)
                                     else send (rewind p2 w) w
                                else (if drain_ret w =? 0
                                      then set_pollout false (emit [DrainOutput] p2)
                                      else emit [DrainOutput] p2, Continue)
                            | _ :: _ => send p2 w
                            end)) = current_volume p2).
    { destruct (event p2); [| apply send_frame].
      destruct (playback_finished p2).
      - destruct (loopcount (song p2) =? 0); [reflexivity |].
        destruct (send_frame (rewind p2 w) w) as (_ & -> & _). apply rewind_frame.
      - destruct (drain_ret w =? 0); reflexivity. }
    rewrite Hgoal, Hc. destruct (_ && _); reflexivity.
Qed.

Lemma loop_current_volume (ws : list wake_input) (p p' : player) :
  loop p ws = Running p' -> current_volume p' = fold_left next_volume ws (current_volume p).
Proof.
  revert p. induction ws as [| w ws IH]; intros p H; simpl in *.
  - injection H as <-. reflexivity.
  - pose proof (wake_current_volume p w) as Hv.
    destruct (wake p w) as [p1 [| |]]; try discriminate.
    simpl in Hv. rewrite <- Hv. apply IH, H.
Qed.

(** ** Volume *)

Lemma process_extends (p : player) (e : MIDIEvent) (next : list MIDIEvent) (ret : Z) :
  exists rest, trace (process p e next ret) = trace p ++ rest.
Proof.
  unfold process. destruct (translate _ _ _) as [ev1 [|]];
    [| destruct (ret =? - EAGAIN)]; eexists; reflexivity.
Qed.

Lemma send_extends (p : player) (w : wake_input) :
  exists rest, trace (fst (send p w)) = trace p ++ rest.
Proof.
  unfold send. destruct (negb (alsa_out w)); [exists []; symmetry; apply app_nil_r |].
  destruct (event p); [exists []; symmetry; apply app_nil_r |]. apply process_extends.
Qed.

Lemma rewind_extends (p : player) (w : wake_input) :
  exists rest, trace (rewind p w) = trace p ++ rest.
Proof.
  unfold rewind. destruct (0 <? loopcount (song p)); simpl;
    rewrite <- app_assoc; eexists; reflexivity.
Qed.

(** Whatever a turn does after the command stage only adds to the trace. *)
Lemma wake_after_command (p : player) (w : wake_input) :
  0 < poll_ret w ->
  exists rest, trace (fst (wake p w)) = trace (after_command p w) ++ rest.
Proof.
  intros Hp. unfold wake.
  replace (poll_ret w <=? 0) with false by (symmetry; apply Z.leb_gt; lia).
  destruct (after_input_frame (after_command p w) w) as (_ & _ & _ & _ & Ht).
  rewrite <- Ht. set (p2 := after_input (after_command p w) w).
  destruct (event p2); [| apply send_extends].
  destruct (playback_finished p2).
  - destruct (loopcount (song p2) =? 0); [exists []; symmetry; apply app_nil_r |].
    destruct (send_extends (rewind p2 w) w) as [r1 H1].
    destruct (rewind_extends p2 w) as [r2 H2].
    exists (r2 ++ r1). rewrite H1, H2, app_assoc. reflexivity.
  - destruct (drain_ret w =? 0); eexists; reflexivity.
Qed.

Lemma frame_read_some (w : wake_input) (op x : Z) :
  frame_read w = Some (op, x) ->
  0 < poll_ret w /\ readbuf_0 w = op /\ readbuf_1 w = x /\
  forall p, after_command p w = command p op x.
Proof.
  unfold frame_read, after_command. intros H.
  destruct (0 <? poll_ret w) eqn:Hp; [| discriminate].
  apply Z.ltb_lt in Hp. simpl in H.
  destruct (cmdsock_in w && (read_ret w =? CMD_PKT_LEN)); [| discriminate].
  injection H as <- <-. auto.
Qed.

Lemma wake_actions_command (p : player) (w : wake_input) (op x : Z) :
  frame_read w = Some (op, x) ->
  exists rest, wake_actions p w = trace (command (fresh p) op x) ++ rest.
Proof.
  intros H. destruct (frame_read_some w op x H) as (Hp & _ & _ & Hc).
  unfold wake_actions. rewrite <- Hc. apply wake_after_command, Hp.
Qed.

Lemma clamp_volume_spec (volume : Z) :
  clamp_volume volume = Z.max 0 (Z.min 127 volume) /\ 0 <= clamp_volume volume <= 127.
Proof.
  unfold clamp_volume.
  destruct (volume <? 0) eqn:E1; [apply Z.ltb_lt in E1; lia | apply Z.ltb_ge in E1].
  destruct (127 <? volume) eqn:E2; [apply Z.ltb_lt in E2 | apply Z.ltb_ge in E2]; lia.
Qed.

(** C9. [native_midi_setvolume] sends its operand clamped to [0, 127]: 0
    below the range, 127 above it.  In a running session the thread
    remembers the operand of the last SETVOL frame it read, 127 before the
    first one; a SETVOL frame sends that volume at once, a PAUSE frame sends
    volume 0 and stops the queue, and a RESUME frame continues the queue and
    sends the remembered volume. *)
Theorem volume_round_trip
        (s : NativeMidiSong) (env : setup_env) (ws : list wake_input) (p : player) :
  native_midi_player_thread s env ws = Running p ->
  (forall w0 s0 volume wr,
     current w0 = Some s0 -> playerstate s0 = NATIVE_MIDI_PLAYING ->
     native_midi_setvolume w0 volume wr =
       Ret w0 [CtlWrite (mainsock s0) [THREAD_CMD_SETVOL; Z.max 0 (Z.min 127 volume)] wr]) /\
  current_volume p = requested_volume ws /\
  (forall w x, frame_read w = Some (THREAD_CMD_SETVOL, x) ->
     requested_volume (ws ++ [w]) = x /\
     exists rest, wake_actions p w = OutputDirect (volume_event (song p) x) :: rest) /\
  (forall w x, frame_read w = Some (THREAD_CMD_PAUSE, x) ->
     requested_volume (ws ++ [w]) = requested_volume ws /\
     exists rest,
       wake_actions p w =
         [OutputDirect (volume_event (song p) 0);
          OutputDirect (queue_control_event SND_SEQ_EVENT_STOP (queue p));
          SetState NATIVE_MIDI_PAUSED] ++ rest) /\
  (forall w x, frame_read w = Some (THREAD_CMD_RESUME, x) ->
     exists rest,
       wake_actions p w =
         [OutputDirect (queue_control_event SND_SEQ_EVENT_CONTINUE (queue p));
          OutputDirect (volume_event (song p) (requested_volume ws));
          SetState NATIVE_MIDI_PLAYING] ++ rest) /\
  (forall v, data (volume_event (song p) v)
             = DataExt [0xF0; 0x7F; 0x7F; 0x04; 0x01; 0x00; v; 0xF7]
             /\ dest (volume_event (song p) v) = dstaddr (song p)).
Proof.
  intros Hrun.
  assert (Hvol : current_volume p = requested_volume ws).
  { unfold native_midi_player_thread in Hrun.
    apply loop_current_volume in Hrun. exact Hrun. }
  repeat apply conj.
  - intros w0 s0 volume wr Hc Hs.
    rewrite (setvolume_when_playing w0 s0 volume wr Hc Hs).
    rewrite (proj1 (clamp_volume_spec volume)). reflexivity.
  - exact Hvol.
  - intros w x Hf. split.
    + unfold requested_volume. rewrite fold_left_app. simpl.
      unfold next_volume at 1. rewrite Hf. reflexivity.
    + destruct (wake_actions_command p w _ _ Hf) as [rest Hr].
      exists rest. rewrite Hr. reflexivity.
  - intros w x Hf. split.
    + unfold requested_volume. rewrite fold_left_app. simpl.
      unfold next_volume at 1. rewrite Hf. reflexivity.
    + destruct (wake_actions_command p w _ _ Hf) as [rest Hr].
      exists rest. rewrite Hr. reflexivity.
  - intros w x Hf.
    destruct (wake_actions_command p w _ _ Hf) as [rest Hr].
    exists rest. rewrite Hr, <- Hvol. reflexivity.
  - intros v. split; [reflexivity |]. simpl. destruct (dstaddr (song p)); reflexivity.
Qed.

(** ** Loop counts *)

Lemma consumed_app (a b : list action) : consumed (a ++ b) = consumed a ++ consumed b.
Proof. unfold consumed. apply flat_map_app. Qed.

Lemma sentinels_app (a b : list action) : sentinels (a ++ b) = (sentinels a + sentinels b)%nat.
Proof. unfold sentinels. rewrite List.filter_app, length_app. reflexivity. Qed.

Lemma rewinds_app (a b : list action) : rewinds (a ++ b) = (rewinds a + rewinds b)%nat.
Proof. unfold rewinds. rewrite List.filter_app, length_app. reflexivity. Qed.

Lemma passes_snoc (evs : list MIDIEvent) (n : nat) : passes evs n ++ evs = passes evs (S n).
Proof.
  unfold passes. induction n as [| n IH]; simpl.
  - symmetry. apply app_nil_r.
  - rewrite <- app_assoc, IH. reflexivity.
Qed.

(** Counters of a trace that grew by [l]. *)
Lemma counters_grow (tr l : list action) :
  consumed (tr ++ l) = consumed tr ++ consumed l /\
  sentinels (tr ++ l) = (sentinels tr + sentinels l)%nat /\
  rewinds (tr ++ l) = (rewinds tr + rewinds l)%nat.
Proof.
  split; [apply consumed_app | split; [apply sentinels_app | apply rewinds_app]].
Qed.

(** A player that differs from [p] in what the counters do not see. *)
Lemma loop_inv_quiet_step (evs : list MIDIEvent) (L : Z) (p p' : player) (l : list action) :
  loop_inv evs L p ->
  evtlist (song p') = evtlist (song p) ->
  loopcount (song p') = loopcount (song p) ->
  event p' = event p ->
  trace p' = trace p ++ l ->
  consumed l = [] -> sentinels l = 0%nat -> rewinds l = 0%nat ->
  loop_inv evs L p'.
Proof.
  intros (He & n & past & H1 & H2 & H3 & H4 & H5 & H6) Ee El Ev Et Lc Ls Lr.
  split; [congruence |].
  exists n, past. rewrite Ev, Et, El.
  destruct (counters_grow (trace p) l) as (-> & -> & ->).
  rewrite Lc, Ls, Lr, app_nil_r, !Nat.add_0_r. repeat split; assumption.
Qed.

Lemma command_inv (evs : list MIDIEvent) (L : Z) (p : player) (op x : Z) :
  op <> THREAD_CMD_QUIT ->
  loop_inv evs L p -> loop_inv evs L (command p op x).
Proof.
  intros Hq Hi. unfold command.
  replace (op =? THREAD_CMD_QUIT) with false by (symmetry; apply Z.eqb_neq; exact Hq).
  destruct (op =? THREAD_CMD_SETVOL).
  { apply (loop_inv_quiet_step evs L p _ (send_volume_sysex (song p) x) Hi);
      reflexivity. }
  destruct (op =? THREAD_CMD_PAUSE).
  { apply (loop_inv_quiet_step evs L p _
             ((send_volume_sysex (song p) 0 ++ stop_queue (queue p))
              ++ [SetState NATIVE_MIDI_PAUSED]) Hi); try reflexivity.
    simpl. rewrite <- app_assoc. reflexivity. }
  destruct (op =? THREAD_CMD_RESUME); [| exact Hi].
  apply (loop_inv_quiet_step evs L p _
           ((continue_queue (queue p) ++ send_volume_sysex (song p) (current_volume p))
            ++ [SetState NATIVE_MIDI_PLAYING]) Hi); try reflexivity.
  simpl. rewrite <- app_assoc. reflexivity.
Qed.

Lemma after_command_inv (evs : list MIDIEvent) (L : Z) (p : player) (w : wake_input) :
  quiet w -> loop_inv evs L p -> loop_inv evs L (after_command p w).
Proof.
  intros [Hp Hq] Hi. unfold after_command.
  destruct (cmdsock_in w && (read_ret w =? CMD_PKT_LEN)) eqn:Hc; [| exact Hi].
  apply command_inv; [| exact Hi].
  unfold quit_read, frame_read in Hq.
  replace (0 <? poll_ret w) with true in Hq by (symmetry; apply Z.ltb_lt; exact Hp).
  simpl in Hq. rewrite Hc in Hq. apply Z.eqb_neq, Hq.
Qed.

Lemma after_input_inv (evs : list MIDIEvent) (L : Z) (p : player) (w : wake_input) :
  loop_inv evs L p -> loop_inv evs L (after_input p w).
Proof.
  intros Hi. unfold after_input. destruct (_ && _); exact Hi.
Qed.

Lemma loop_inv_advance (evs : list MIDIEvent) (L : Z) (p p' : player)
      (e : MIDIEvent) (next : list MIDIEvent) (l : list action) :
  loop_inv evs L p ->
  event p = e :: next ->
  song p' = song p ->
  event p' = next ->
  trace p' = trace p ++ l ->
  consumed l = [e] -> sentinels l = 0%nat -> rewinds l = 0%nat ->
  loop_inv evs L p'.
Proof.
  intros (He & n & past & H1 & H2 & H3 & H4 & H5 & H6) Ev Es Ev' Et Lc Ls Lr.
  split; [congruence |].
  exists n, (past ++ [e]). rewrite Ev', Et, Es.
  destruct (counters_grow (trace p) l) as (-> & -> & ->).
  rewrite Lc, Ls, Lr, !Nat.add_0_r, H2, <- !app_assoc. simpl.
  rewrite Ev in H1. repeat split; assumption.
Qed.

Lemma process_inv (evs : list MIDIEvent) (L : Z) (p : player)
      (e : MIDIEvent) (next : list MIDIEvent) (ret : Z) :
  loop_inv evs L p -> event p = e :: next -> loop_inv evs L (process p e next ret).
Proof.
  intros Hi Ev. unfold process.
  destruct (translate _ _ _) as [ev1 [|]].
  - apply (loop_inv_advance evs L p _ e next [DbgLog true e] Hi Ev); reflexivity.
  - destruct (ret =? - EAGAIN).
    + apply (loop_inv_quiet_step evs L p _ [Output ev1 ret] Hi); reflexivity.
    + apply (loop_inv_advance evs L p _ e next [Output ev1 ret; DbgLog false e] Hi Ev);
        reflexivity.
Qed.

Lemma send_inv (evs : list MIDIEvent) (L : Z) (p : player) (w : wake_input) :
  loop_inv evs L p -> event p <> [] ->
  snd (send p w) = Continue /\ loop_inv evs L (fst (send p w)).
Proof.
  intros Hi Hne. unfold send. destruct (negb (alsa_out w)); [split; [reflexivity | exact Hi] |].
  destruct (event p) as [| e next] eqn:Ev; [contradiction |].
  split; [reflexivity |]. apply process_inv; assumption.
Qed.

Lemma rewind_inv (evs : list MIDIEvent) (L : Z) (p : player) (w : wake_input) :
  loop_inv evs L p -> event p = [] -> loopcount (song p) <> 0 ->
  loop_inv evs L (rewind p w) /\ event (rewind p w) = evs.
Proof.
  intros (He & n & past & H1 & H2 & H3 & H4 & H5 & H6) Ev Hl.
  rewrite Ev, app_nil_r in H1. subst past.
  assert (Hlc : loopcount (song (rewind p w)) = (if L <? 0 then L else L - Z.of_nat (S n))
                /\ (0 <= L -> Z.of_nat (S n) <= L)).
  { unfold rewind. destruct (L <? 0) eqn:HL.
    - apply Z.ltb_lt in HL.
      replace (0 <? loopcount (song p)) with false by (symmetry; apply Z.ltb_ge; lia).
      simpl. split; [exact H5 | lia].
    - apply Z.ltb_ge in HL. specialize (H6 HL).
      replace (0 <? loopcount (song p)) with true by (symmetry; apply Z.ltb_lt; lia).
      simpl. split; lia. }
  assert (Hrest : evtlist (song (rewind p w)) = evs /\ event (rewind p w) = evs /\
                  trace (rewind p w) =
                    trace p ++ [OutputSpin (queue_reset_event (song p) (queue p))
                                           (reset_again w) (reset_ret w);
                                OutputSpin (echo_event (song p) (queue p))
                                           (echo_again w) (echo_ret w)]).
  { unfold rewind. destruct (0 <? loopcount (song p)); simpl;
      rewrite <- app_assoc; auto. }
  destruct Hrest as (Ee & Ev' & Et). destruct Hlc as [Hlc Hn].
  split; [| exact Ev'].
  split; [exact Ee |].
  exists (S n), []. rewrite Ev', Et, Hlc, app_nil_r.
  rewrite consumed_app, sentinels_app, rewinds_app, H2, H3, H4.
  change (consumed [_; _]) with (@nil MIDIEvent).
  change (sentinels [_; _]) with 1%nat. change (rewinds [_; _]) with 1%nat.
  rewrite !app_nil_r, passes_snoc. repeat split; try lia; assumption.
Qed.

(** One quiet turn keeps the invariant, does not fault, and leaves the
    loop only with the cursor at the end and the counter at zero. *)
Lemma wake_inv (evs : list MIDIEvent) (L : Z) (p : player) (w : wake_input) :
  evs <> [] -> quiet w -> loop_inv evs L p ->
  loop_inv evs L (fst (wake p w)) /\
  snd (wake p w) <> Fault /\
  (snd (wake p w) = Break ->
   event (fst (wake p w)) = [] /\ loopcount (song (fst (wake p w))) = 0).
Proof.
  intros Hne Hq Hi. unfold wake.
  replace (poll_ret w <=? 0) with false by (symmetry; apply Z.leb_gt; apply Hq).
  pose proof (after_input_inv evs L _ w (after_command_inv evs L p w Hq Hi)) as Hi2.
  set (p2 := after_input (after_command p w) w) in *.
  destruct (event p2) as [| e next] eqn:Ev.
  - destruct (playback_finished p2).
    + destruct (loopcount (song p2) =? 0) eqn:Hl.
      * apply Z.eqb_eq in Hl. simpl.
        split; [exact Hi2 | split; [discriminate | intros _; split; assumption]].
      * apply Z.eqb_neq in Hl.
        destruct (rewind_inv evs L p2 w Hi2 Ev Hl) as [Hi3 Ev3].
        destruct (send_inv evs L (rewind p2 w) w Hi3) as [Hc Hi4]; [congruence |].
        rewrite Hc. split; [exact Hi4 | split; discriminate].
    + simpl. split; [| split; discriminate].
      destruct (drain_ret w =? 0);
        apply (loop_inv_quiet_step evs L p2 _ [DrainOutput] Hi2); reflexivity.
  - destruct (send_inv evs L p2 w Hi2) as [Hc Hi4]; [congruence |].
    rewrite Hc. split; [exact Hi4 | split; discriminate].
Qed.

Lemma setup_inv (s : NativeMidiSong) (env : setup_env) :
  loop_inv (evtlist s) (loopcount s) (setup s env).
Proof.
  split; [reflexivity |]. exists 0%nat, []. simpl.
  repeat split; try reflexivity; try lia.
  destruct (loopcount s <? 0); lia.
Qed.

(** The thread writes STOPPED and then runs the cleanup sequence. *)
Lemma teardown_trace (p : player) :
  trace (teardown p) = trace p ++ SetState NATIVE_MIDI_STOPPED :: cleanup p.
Proof.
  unfold teardown, atomic_set, emit, set_evt, set_song. cbn [trace].
  rewrite <- app_assoc. reflexivity.
Qed.

Lemma direct_outputs_silent (l : list snd_seq_event) :
  consumed (map OutputDirect l) = [] /\
  sentinels (map OutputDirect l) = 0%nat /\
  rewinds (map OutputDirect l) = 0%nat.
Proof.
  induction l as [| a l (H1 & H2 & H3)]; [repeat split |].
  repeat split; assumption.
Qed.

Lemma teardown_counters (p : player) :
  consumed (trace (teardown p)) = consumed (trace p) /\
  sentinels (trace (teardown p)) = sentinels (trace p) /\
  rewinds (trace (teardown p)) = rewinds (trace p) /\
  loopcount (song (teardown p)) = loopcount (song p).
Proof.
  rewrite teardown_trace. unfold cleanup.
  set (l := flat_map _ _).
  destruct (direct_outputs_silent l) as (H1 & H2 & H3).
  change (SetState NATIVE_MIDI_STOPPED :: ?a ++ map OutputDirect l)
    with ((SetState NATIVE_MIDI_STOPPED :: a) ++ map OutputDirect l).
  rewrite !consumed_app, !sentinels_app, !rewinds_app, H1, H2, H3.
  simpl. rewrite app_nil_r, !Nat.add_0_r. repeat split.
Qed.

(** A run of quiet turns: the invariant holds throughout, the thread does
    not fault, and it returns only from a state with the cursor at the end
    and the counter at zero. *)
Lemma loop_quiet (evs : list MIDIEvent) (L : Z) (ws : list wake_input) (p : player) :
  evs <> [] -> Forall quiet ws -> loop_inv evs L p ->
  match loop p ws with
  | Running p' => loop_inv evs L p'
  | Returned p' =>
      exists p0, p' = teardown p0 /\ loop_inv evs L p0 /\
                 event p0 = [] /\ loopcount (song p0) = 0
  | Faulted _ => False
  end.
Proof.
  intros Hne Hq. revert p. induction Hq as [| w ws Hw Hq IH]; intros p Hi; simpl.
  - exact Hi.
  - destruct (wake_inv evs L p w Hne Hw Hi) as (Hi' & Hf & Hb).
    destruct (wake p w) as [p' [| |]]; simpl in *.
    + apply IH, Hi'.
    + exists p'. destruct (Hb eq_refl). auto.
    + apply Hf. reflexivity.
Qed.

(** *** A cooperative environment lets the session end *)

Lemma process_advances (p : player) (e : MIDIEvent) (next : list MIDIEvent) :
  event (process p e next 0) = next.
Proof.
  unfold process. destruct (translate _ _ _) as [ev1 [|]]; reflexivity.
Qed.

Lemma wake_send_turn (p : player) (e : MIDIEvent) (next : list MIDIEvent) :
  event p = e :: next ->
  wake p send_turn = (process p e next 0, Continue).
Proof.
  intros Ev. unfold wake, after_command, after_input, send. simpl. rewrite Ev. reflexivity.
Qed.

Lemma send_turns (evs : list MIDIEvent) (p : player) (rest : list wake_input) :
  event p = evs ->
  exists p', loop p (repeat send_turn (length evs) ++ rest) = loop p' rest /\
             event p' = [] /\ song p' = song p /\
             playback_finished p' = playback_finished p.
Proof.
  revert p. induction evs as [| e next IH]; intros p Ev.
  - exists p. auto.
  - simpl. rewrite (wake_send_turn p e next Ev).
    destruct (IH (process p e next 0) (process_advances p e next)) as (p' & Hl & He & Hs & Hf).
    exists p'. destruct (process_frame p e next 0) as (Hs' & _ & _ & Hf' & _).
    repeat split; congruence.
Qed.

Lemma wake_drain_turn (p : player) :
  event p = [] -> playback_finished p = false ->
  exists p', wake p drain_turn = (p', Continue) /\
             event p' = [] /\ song p' = song p /\ playback_finished p' = false.
Proof.
  intros Ev Hf. unfold wake, after_command, after_input. simpl. rewrite Ev, Hf.
  eexists. split; [reflexivity |]. auto.
Qed.

Lemma own_echo_turn (s : NativeMidiSong) :
  own_echo s (input_ret (echo_turn s)) (revt (echo_turn s)) = true.
Proof.
  unfold own_echo. simpl. rewrite !Z.eqb_refl. reflexivity.
Qed.

Lemma wake_echo_turn_last (p : player) :
  event p = [] -> loopcount (song p) = 0 ->
  wake p (echo_turn (song p)) = (set_playback_finished true p, Break).
Proof.
  intros Ev Hl. unfold wake, after_command, after_input.
  cbn [poll_ret cmdsock_in alsa_in echo_turn andb Z.leb Z.compare].
  rewrite own_echo_turn. simpl. rewrite Ev, Hl. reflexivity.
Qed.

Lemma wake_echo_turn_more (p : player) :
  event p = [] -> loopcount (song p) <> 0 ->
  wake p (echo_turn (song p)) =
    (rewind (set_playback_finished true p) (echo_turn (song p)), Continue).
Proof.
  intros Ev Hl. unfold wake, after_command, after_input.
  cbn [poll_ret cmdsock_in alsa_in echo_turn andb Z.leb Z.compare].
  rewrite own_echo_turn. simpl. rewrite Ev.
  apply Z.eqb_neq in Hl. rewrite Hl. reflexivity.
Qed.

(** One cooperative pass from the head of the list: the session ends if
    the counter is zero, and otherwise it is back at the head with the
    counter one less. *)
Lemma cooperative_pass (s : NativeMidiSong) (p : player) (rest : list wake_input) :
  constants (song p) = constants s ->
  event p = evtlist s -> playback_finished p = false -> 0 <= loopcount (song p) ->
  if loopcount (song p) =? 0
  then exists p', loop p (one_pass s ++ rest) = Returned p'
  else exists p', loop p (one_pass s ++ rest) = loop p' rest /\
                  constants (song p') = constants s /\
                  event p' = evtlist s /\ playback_finished p' = false /\
                  loopcount (song p') = loopcount (song p) - 1.
Proof.
  intros Hc Ev Hf Hl. unfold one_pass. rewrite <- app_assoc.
  destruct (send_turns (evtlist s) p ([drain_turn; echo_turn s] ++ rest) Ev)
    as (p1 & Hrun & Ev1 & Hs1 & Hf1).
  rewrite Hrun. rewrite Hf in Hf1.
  destruct (wake_drain_turn p1 Ev1 Hf1) as (p2 & Hw2 & Ev2 & Hs2 & Hf2).
  cbn [app loop]. rewrite Hw2.
  assert (Hsame : echo_turn s = echo_turn (song p2)).
  { unfold echo_turn. rewrite Hs2, Hs1.
    unfold constants in Hc. injection Hc as _ _ _ _ -> -> _ _ _. reflexivity. }
  rewrite Hsame.
  assert (Hl2 : loopcount (song p2) = loopcount (song p)) by congruence.
  destruct (loopcount (song p) =? 0) eqn:Hz.
  - apply Z.eqb_eq in Hz. rewrite wake_echo_turn_last by congruence.
    eexists. reflexivity.
  - apply Z.eqb_neq in Hz. rewrite wake_echo_turn_more by congruence.
    eexists. split; [reflexivity |].
    unfold rewind. cbn [song set_playback_finished].
    replace (0 <? loopcount (song p2)) with true by (symmetry; apply Z.ltb_lt; lia).
    cbn. rewrite Hl2, Hs2, Hs1.
    assert (Hev : evtlist (song p) = evtlist s) by (unfold constants in Hc; congruence).
    split; [exact Hc | auto].
Qed.

Lemma cooperative_run (s : NativeMidiSong) (k : nat) (p : player) :
  constants (song p) = constants s ->
  event p = evtlist s -> playback_finished p = false ->
  loopcount (song p) = Z.of_nat k ->
  exists p', loop p (cooperative s (S k)) = Returned p'.
Proof.
  revert p. induction k as [| k IH]; intros p Hc Ev Hf Hl.
  - pose proof (cooperative_pass s p [] Hc Ev Hf ltac:(lia)) as H.
    rewrite Hl in H. simpl in H. unfold cooperative. simpl. exact H.
  - pose proof (cooperative_pass s p (cooperative s (S k)) Hc Ev Hf ltac:(lia)) as H.
    replace (loopcount (song p) =? 0) with false in H by (symmetry; apply Z.eqb_neq; lia).
    destruct H as (p' & Hrun & Hc' & Ev' & Hf' & Hl').
    change (cooperative s (S (S k))) with (one_pass s ++ cooperative s (S k)).
    rewrite Hrun. apply IH; try assumption. lia.
Qed.

Lemma cooperative_quiet (s : NativeMidiSong) (n : nat) : Forall quiet (cooperative s n).
Proof.
  assert (Hs : quiet send_turn) by (split; [reflexivity | reflexivity]).
  assert (Hd : quiet drain_turn) by (split; reflexivity).
  assert (He : quiet (echo_turn s)) by (split; reflexivity).
  unfold cooperative. induction n as [| n IH]; simpl; [constructor |].
  apply Forall_app. split; [| exact IH].
  unfold one_pass. apply Forall_app. split.
  - induction (length (evtlist s)); simpl; constructor; assumption.
  - repeat constructor; assumption.
Qed.

Lemma quit_breaks (p : player) (w : wake_input) :
  quit_read w = true -> snd (wake p w) = Break.
Proof.
  unfold quit_read. intros H.
  destruct (frame_read w) as [[op x] |] eqn:Hf; [| discriminate].
  apply Z.eqb_eq in H. subst op.
  destruct (frame_read_some w _ _ Hf) as (Hp & _ & _ & Hc).
  unfold wake. replace (poll_ret w <=? 0) with false by (symmetry; apply Z.leb_gt; lia).
  rewrite Hc. unfold after_input, command. simpl.
  destruct (alsa_in w && _); reflexivity.
Qed.

Lemma translate_handled (q : Z) (e : MIDIEvent) (ev : snd_seq_event) :
  snd (translate q e ev) = negb (handled e).
Proof.
  unfold translate, handled, channel_voice, tempo_meta.
  repeat match goal with
         | |- context [if ?c =? ?d then _ else _] => destruct (c =? d); [reflexivity |]
         end.
  simpl. destruct (_ && _); reflexivity.
Qed.

(** *** Every productive turn brings the end nearer *)

Lemma command_quiet (p : player) (op x : Z) :
  op <> THREAD_CMD_QUIT ->
  evtlist (song (command p op x)) = evtlist (song p) /\
  loopcount (song (command p op x)) = loopcount (song p) /\
  event (command p op x) = event p /\
  playback_finished (command p op x) = playback_finished p.
Proof.
  intros Hq. unfold command.
  replace (op =? THREAD_CMD_QUIT) with false by (symmetry; apply Z.eqb_neq; exact Hq).
  destruct (op =? THREAD_CMD_SETVOL); [repeat split |].
  destruct (op =? THREAD_CMD_PAUSE); [repeat split |].
  destruct (op =? THREAD_CMD_RESUME); repeat split.
Qed.

Lemma after_command_quiet (p : player) (w : wake_input) :
  quiet w ->
  evtlist (song (after_command p w)) = evtlist (song p) /\
  loopcount (song (after_command p w)) = loopcount (song p) /\
  event (after_command p w) = event p /\
  playback_finished (after_command p w) = playback_finished p.
Proof.
  intros [Hp Hq]. unfold after_command.
  destruct (cmdsock_in w && (read_ret w =? CMD_PKT_LEN)) eqn:Hc; [| repeat split].
  apply command_quiet.
  unfold quit_read, frame_read in Hq.
  replace (0 <? poll_ret w) with true in Hq by (symmetry; apply Z.ltb_lt; exact Hp).
  simpl in Hq. rewrite Hc in Hq. apply Z.eqb_neq, Hq.
Qed.

(** The stages of a turn before the cursor is looked at leave the list,
    the counter and the cursor alone; they can only bring the sentinel in. *)
Lemma before_cursor (p : player) (w : wake_input) :
  quiet w ->
  let p2 := after_input (after_command p w) w in
  evtlist (song p2) = evtlist (song p) /\
  loopcount (song p2) = loopcount (song p) /\
  event p2 = event p /\
  (playback_finished p2 = playback_finished p \/ playback_finished p2 = true) /\
  remaining p2 + (if negb (playback_finished p) && playback_finished p2 then 1 else 0)
  = remaining p.
Proof.
  intros Hq p2.
  destruct (after_command_quiet p w Hq) as (H1 & H2 & H3 & H4).
  assert (H : song p2 = song (after_command p w) /\ event p2 = event (after_command p w) /\
              (playback_finished p2 = playback_finished (after_command p w)
               \/ playback_finished p2 = true)).
  { subst p2. unfold after_input. destruct (_ && _); simpl; auto. }
  destruct H as (Hs & He & Hf). rewrite H4 in Hf.
  split; [congruence |]. split; [congruence |]. split; [congruence |].
  split; [exact Hf |].
  unfold remaining. rewrite Hs, He, H1, H2, H3.
  destruct Hf as [-> | ->]; destruct (playback_finished p); simpl; lia.
Qed.

Lemma send_progress (p : player) (w : wake_input) :
  event p <> [] ->
  snd (send p w) = Continue /\
  song (fst (send p w)) = song p /\
  remaining (fst (send p w))
  + (match event p with
     | e :: _ => if alsa_out w && (negb (handled e) || negb (output_ret w =? - EAGAIN))
                 then 1 else 0
     | [] => 0
     end) <= remaining p.
Proof.
  intros Hne. unfold send.
  destruct (event p) as [| e next] eqn:Ev; [contradiction |].
  destruct (alsa_out w); simpl.
  2: { split; [reflexivity |]. split; [reflexivity |]. lia. }
  pose proof (translate_handled (queue p) e (addressed p e)) as Hu.
  unfold process. destruct (translate (queue p) e (addressed p e)) as [ev1 u].
  simpl in Hu. subst u.
  destruct (handled e); simpl.
  - destruct (output_ret w =? - EAGAIN); simpl;
      (split; [reflexivity |]); (split; [reflexivity |]);
      unfold remaining; simpl; rewrite ?Ev; simpl length; lia.
  - split; [reflexivity |]. split; [reflexivity |].
    unfold remaining. simpl. rewrite ?Ev. simpl length. lia.
Qed.

Lemma remaining_bound (p : player) :
  0 <= loopcount (song p) -> 0 <= remaining p.
Proof.
  intros Hl. unfold remaining.
  assert (0 <= (Z.of_nat (length (evtlist (song p))) + 1) * loopcount (song p))
    by (apply Z.mul_nonneg_nonneg; lia).
  destruct (playback_finished p); lia.
Qed.

(** One quiet turn of a session with a counter that is not negative: a
    productive turn takes one off what remains, no turn adds to it, and a
    turn with nothing remaining leaves the loop. *)
Lemma wake_progress (p : player) (w : wake_input) :
  quiet w -> evtlist (song p) <> [] -> 0 <= loopcount (song p) ->
  snd (wake p w) <> Fault /\
  evtlist (song (fst (wake p w))) = evtlist (song p) /\
  0 <= loopcount (song (fst (wake p w))) /\
  remaining (fst (wake p w)) + (if productive p w then 1 else 0) <= remaining p /\
  (remaining p = 0 -> snd (wake p w) = Break).
Proof.
  intros Hq Hne Hl.
  destruct (before_cursor p w Hq) as (H1 & H2 & H3 & H4 & H5). cbv zeta in *.
  unfold wake, productive.
  replace (poll_ret w <=? 0) with false by (symmetry; apply Z.leb_gt; apply Hq).
  set (p2 := after_input (after_command p w) w) in *.
  assert (Hflip : 0 <= (if negb (playback_finished p) && playback_finished p2 then 1 else 0))
    by (destruct (_ && _); lia).
  assert (Hzero : remaining p = 0 ->
                  event p2 = [] /\ playback_finished p2 = true /\ loopcount (song p2) = 0).
  { intros Hz. unfold remaining in Hz.
    assert (Hlen : (0 < length (evtlist (song p)))%nat)
      by (destruct (evtlist (song p)); [contradiction | simpl; lia]).
    assert (Hprod : 0 <= (Z.of_nat (length (evtlist (song p))) + 1) * loopcount (song p))
      by (apply Z.mul_nonneg_nonneg; lia).
    assert (Hf : playback_finished p = true) by (destruct (playback_finished p); [reflexivity | lia]).
    rewrite Hf in Hz.
    assert (Hev : event p = []) by (destruct (event p); [reflexivity | simpl in Hz; lia]).
    rewrite Hev in Hz. simpl in Hz.
    assert (Hlc : loopcount (song p) = 0) by nia.
    split; [congruence |]. split; [| congruence].
    destruct H4 as [H4 | H4]; congruence. }
  destruct (event p2) as [| e next] eqn:Ev.
  - destruct (playback_finished p2) eqn:Hf.
    + destruct (loopcount (song p2) =? 0) eqn:Hz.
      { simpl. split; [discriminate |]. split; [exact H1 |]. split; [lia |].
        split; [lia | reflexivity]. }
      apply Z.eqb_neq in Hz.
      assert (Hr : evtlist (song (rewind p2 w)) = evtlist (song p2) /\
                   event (rewind p2 w) = evtlist (song p2) /\
                   loopcount (song (rewind p2 w)) = loopcount (song p2) - 1 /\
                   playback_finished (rewind p2 w) = false).
      { unfold rewind.
        replace (0 <? loopcount (song p2)) with true by (symmetry; apply Z.ltb_lt; lia).
        repeat split. }
      destruct Hr as (R1 & R2 & R3 & R4).
      destruct (send_progress (rewind p2 w) w) as (Hc & Hs & Hm); [congruence |].
      split; [rewrite Hc; discriminate |].
      rewrite Hs. split; [congruence |]. split; [lia |].
      assert (Hrem : remaining (rewind p2 w) = remaining p2).
      { unfold remaining. rewrite R1, R2, R3, R4, Ev, Hf. simpl length. lia. }
      assert (0 <= match event (rewind p2 w) with
                   | [] => 0
                   | e :: _ => if alsa_out w && (negb (handled e)
                                                 || negb (output_ret w =? - EAGAIN))
                               then 1 else 0
                   end).
      { destruct (event (rewind p2 w)); [lia |]. destruct (alsa_out w && _); lia. }
      split; [lia |].
      intros Hz0. destruct (Hzero Hz0) as (_ & _ & Hlc). contradiction.
    + simpl.
      assert (Hsame : forall q, song q = song p2 -> event q = event p2 ->
                                playback_finished q = playback_finished p2 ->
                                remaining q = remaining p2).
      { intros q Es Ee Ef. unfold remaining. rewrite Es, Ee, Ef. reflexivity. }
      rewrite andb_false_r in *.
      split; [discriminate |].
      assert (Hno : remaining p = 0 -> False).
      { intros Hz0. destruct (Hzero Hz0) as (_ & Hft & _). discriminate. }
      destruct (drain_ret w =? 0); simpl;
        (split; [congruence |]); (split; [lia |]);
        (split; [| intros Hz0; destruct (Hno Hz0)]);
        match goal with
        | |- remaining ?q + 0 <= _ => rewrite (Hsame q) by reflexivity
        end; lia.
  - destruct (send_progress p2 w) as (Hc & Hs & Hm); [congruence |].
    rewrite Ev in Hm.
    split; [rewrite Hc; discriminate |].
    rewrite Hs. split; [congruence |]. split; [lia |]. split; [lia |].
    intros Hz0. destruct (Hzero Hz0) as (Hev & _). discriminate.
Qed.

(** A session with a counter that is not negative never makes more
    productive turns than remain. *)
Lemma loop_progress (ws : list wake_input) (p : player) :
  Forall quiet ws -> evtlist (song p) <> [] -> 0 <= loopcount (song p) ->
  Z.of_nat (productive_turns p ws) <= remaining p.
Proof.
  intros Hq. revert p. induction Hq as [| w ws Hw Hq IH]; intros p Hne Hl.
  - simpl. apply remaining_bound, Hl.
  - destruct (wake_progress p w Hw Hne Hl) as (Hf & He & Hl' & Hr & _).
    simpl.
    destruct (wake p w) as [p' [| |]]; simpl in *.
    + assert (Hi : Z.of_nat (productive_turns p' ws) <= remaining p')
        by (apply IH; [congruence | exact Hl']).
      destruct (productive p w); lia.
    + pose proof (remaining_bound p' Hl'). destruct (productive p w); simpl; lia.
    + exfalso. apply Hf. reflexivity.
Qed.

Lemma loop_app (a b : list wake_input) (p : player) :
  loop p (a ++ b) = match loop p a with Running p' => loop p' b | r => r end.
Proof.
  revert p. induction a as [| w a IH]; intros p; simpl; [reflexivity |].
  destruct (wake p w) as [p' [| |]]; [apply IH | reflexivity | reflexivity].
Qed.

(** Once it has made as many productive turns as remained, the session
    returns in the next turn at the latest. *)
Lemma loop_done (ws : list wake_input) (p : player) (w : wake_input) :
  Forall quiet ws -> quiet w -> evtlist (song p) <> [] -> 0 <= loopcount (song p) ->
  remaining p <= Z.of_nat (productive_turns p ws) ->
  returned (loop p (ws ++ [w])) = true.
Proof.
  intros Hq Hw. revert p. induction Hq as [| w0 ws Hw0 Hq IH]; intros p Hne Hl Hm.
  - simpl in Hm. pose proof (remaining_bound p Hl) as Hb.
    destruct (wake_progress p w Hw Hne Hl) as (_ & _ & _ & _ & Hz).
    simpl. destruct (wake p w) as [p' o]. simpl in Hz. rewrite Hz by lia. reflexivity.
  - destruct (wake_progress p w0 Hw0 Hne Hl) as (Hf & He & Hl' & Hr & _).
    simpl in Hm |- *.
    destruct (wake p w0) as [p' [| |]]; simpl in *.
    + apply IH; [congruence | exact Hl' |]. destruct (productive p w0); lia.
    + reflexivity.
    + exfalso. apply Hf. reflexivity.
Qed.

(** A turn in which [poll] fails ends the session. *)
Lemma failed_poll_ends (p : player) (w : wake_input) (ws : list wake_input) :
  poll_ret w <= 0 ->
  wake p w = (p, Break) /\ loop p (w :: ws) = Returned (teardown p).
Proof.
  intros Hp.
  assert (Hw : wake p w = (p, Break)).
  { unfold wake. replace (poll_ret w <=? 0) with true by (symmetry; apply Z.leb_le; exact Hp).
    reflexivity. }
  split; [exact Hw |]. simpl. rewrite Hw. reflexivity.
Qed.

(** C1, counterexample.  A failing [poll] ends a session that loops for
    ever although no QUIT frame was read, and it ends a session started with
    loop count 0 before the first pass is over. *)
Lemma loop_count_counterexample :
  loopcount (set_loopcount (-1) sample_song) < 0 /\
  existsb quit_read [failed_poll] = false /\
  returned (native_midi_player_thread (set_loopcount (-1) sample_song)
                                      sample_setup [failed_poll]) = true /\
  loopcount sample_song = 0 /\
  returned (native_midi_player_thread sample_song sample_setup [failed_poll]) = true /\
  consumed (trace (run_player
                     (native_midi_player_thread sample_song sample_setup [failed_poll])))
    = [] /\
  evtlist sample_song <> [].
Proof.
  repeat split; try reflexivity. discriminate.
Qed.

(** C1, amended.  Take a session on a non-empty event list, started with
    loop count [L], in whose turns [poll] never fails and no QUIT frame is
    read.  It never faults.  With [L = 0] exactly one sentinel is ever
    enqueued.  Whenever the thread returns, [L] is not negative, the cursor
    has moved over exactly [L + 1] copies of the event list, [L + 1]
    sentinels and [L] queue resets were enqueued, and the counter is 0.  With
    [L < 0] the thread does not return and the counter stays [L].  With
    [L >= 0] the thread does return in a cooperative environment after
    [L + 1] passes; in any environment of such turns it makes at most
    [(n + 1) * (L + 1)] productive turns, and once it has made that many it
    returns in the next turn at the latest, where [n] is the length of the
    event list and a turn is productive when the transport has room for the
    event under the cursor and takes it (or the loop skips it), or when the
    cursor is at the end and the sentinel comes back.  The counter is
    decremented on a rewind only when it is positive, and a turn that reads a
    QUIT frame leaves the loop.  A turn in which [poll] answers 0 or less
    ends the session at once, whatever the loop count and whatever the session
    has done so far: nothing else is done in that turn, and the thread goes
    on to its cleanup and returns. *)
Theorem loop_count_semantics (s : NativeMidiSong) (env : setup_env) (ws : list wake_input) :
  evtlist s <> [] ->
  Forall quiet ws ->
  let L := loopcount s in
  let r := native_midi_player_thread s env ws in
  let tr := trace (run_player r) in
  faulted r = false /\
  (L = 0 -> sentinels tr = 1%nat) /\
  (returned r = true ->
     0 <= L /\
     consumed tr = passes (evtlist s) (S (Z.to_nat L)) /\
     sentinels tr = S (Z.to_nat L) /\
     rewinds tr = Z.to_nat L /\
     loopcount (song (run_player r)) = 0) /\
  (L < 0 -> returned r = false /\ loopcount (song (run_player r)) = L) /\
  (0 <= L ->
     Forall quiet (cooperative s (S (Z.to_nat L))) /\
     returned (native_midi_player_thread s env (cooperative s (S (Z.to_nat L)))) = true) /\
  (forall p w, loopcount (song (rewind p w)) =
               (if 0 <? loopcount (song p)
                then loopcount (song p) - 1 else loopcount (song p))) /\
  (forall p w, quit_read w = true -> snd (wake p w) = Break) /\
  (0 <= L ->
     Z.of_nat (productive_turns (setup s env) ws)
       <= (Z.of_nat (length (evtlist s)) + 1) * (L + 1)) /\
  (0 <= L ->
     (Z.of_nat (length (evtlist s)) + 1) * (L + 1)
       <= Z.of_nat (productive_turns (setup s env) ws) ->
     forall w, quiet w ->
       returned (native_midi_player_thread s env (ws ++ [w])) = true) /\
  (forall p w ws', poll_ret w <= 0 ->
     wake p w = (p, Break) /\ loop p (w :: ws') = Returned (teardown p)) /\
  (forall s0 env0 ws0 p w ws', native_midi_player_thread s0 env0 ws0 = Running p ->
     poll_ret w <= 0 ->
     native_midi_player_thread s0 env0 (ws0 ++ w :: ws') = Returned (teardown p)).
Proof.
  intros Hne Hq L r tr.
  pose proof (loop_quiet (evtlist s) L ws (setup s env) Hne Hq (setup_inv s env)) as H.
  fold (native_midi_player_thread s env ws) in H. fold r in H.
  assert (Hret : returned r = true ->
                 0 <= L /\ consumed tr = passes (evtlist s) (S (Z.to_nat L)) /\
                 sentinels tr = S (Z.to_nat L) /\ rewinds tr = Z.to_nat L /\
                 loopcount (song (run_player r)) = 0).
  { subst tr. destruct r as [p | p | p]; try discriminate. intros _.
    destruct H as (p0 & -> & (He & n & past & H1 & H2 & H3 & H4 & H5 & H6) & Ev & Hl).
    simpl run_player.
    destruct (teardown_counters p0) as (-> & -> & -> & ->).
    rewrite Ev, app_nil_r in H1. subst past.
    destruct (L <? 0) eqn:HL; [apply Z.ltb_lt in HL; lia | apply Z.ltb_ge in HL].
    assert (Hn : Z.to_nat L = n) by lia. rewrite Hn.
    rewrite H2, passes_snoc. auto. }
  repeat apply conj.
  - destruct r; [reflexivity | reflexivity | contradiction].
  - intros HL0. subst tr. destruct r as [p | p | p]; [| | contradiction].
    + destruct H as (_ & n & past & _ & _ & H3 & _ & _ & H6).
      simpl. rewrite H3. assert (n = 0%nat) by lia. subst n. reflexivity.
    + destruct (Hret eq_refl) as (_ & _ & -> & _). rewrite HL0. reflexivity.
  - exact Hret.
  - intros HL. destruct r as [p | p | p]; [| | contradiction].
    + split; [reflexivity |].
      destruct H as (_ & n & past & _ & _ & _ & _ & H5 & _).
      replace (L <? 0) with true in H5 by (symmetry; apply Z.ltb_lt; lia). exact H5.
    + destruct (Hret eq_refl) as (H0 & _). lia.
  - intros HL. split; [apply cooperative_quiet |].
    unfold native_midi_player_thread.
    destruct (cooperative_run s (Z.to_nat L) (setup s env)) as [p' Hp'];
      try reflexivity.
    + simpl. fold L. lia.
    + rewrite Hp'. reflexivity.
  - intros p w. unfold rewind. destruct (0 <? loopcount (song p)); reflexivity.
  - apply quit_breaks.
  - intros HL.
    pose proof (loop_progress ws (setup s env) Hq Hne HL) as Hm.
    unfold remaining in Hm. simpl in Hm. fold L in Hm. lia.
  - intros HL Hm w Hw. unfold native_midi_player_thread.
    apply (loop_done ws (setup s env) w Hq Hw Hne HL).
    unfold remaining. simpl. fold L. lia.
  - apply failed_poll_ends.
  - intros s0 env0 ws0 p w ws' Hrun Hp. unfold native_midi_player_thread in *.
    rewrite loop_app, Hrun. apply failed_poll_ends, Hp.
Qed.

(** ** The playback state *)

Lemma state_writes_app (a b : list action) :
  state_writes (a ++ b) = state_writes a ++ state_writes b.
Proof. unfold state_writes. apply flat_map_app. Qed.

Lemma path_app (edge : native_midi_state -> native_midi_state -> bool)
      (from : native_midi_state) (l1 l2 : list native_midi_state) :
  path edge from (l1 ++ l2) = path edge from l1 && path edge (final from l1) l2.
Proof.
  revert from. induction l1 as [| v l1 IH]; intros from; [reflexivity |].
  simpl. rewrite IH, andb_assoc. reflexivity.
Qed.

Lemma final_app (from : native_midi_state) (l1 l2 : list native_midi_state) :
  final from (l1 ++ l2) = final (final from l1) l2.
Proof.
  revert from. induction l1 as [| v l1 IH]; intros from; [reflexivity |]. apply IH.
Qed.

Lemma writes_of_app (l : nat) (a b : list (nat * native_midi_state)) :
  writes_of l (a ++ b) = writes_of l a ++ writes_of l b.
Proof. unfold writes_of. rewrite List.filter_app, map_app. reflexivity. Qed.

Lemma writes_of_tag (l l' : nat) (vs : list native_midi_state) :
  writes_of l (tag l' vs) = if Nat.eqb l' l then vs else [].
Proof.
  unfold writes_of, tag. induction vs as [| v vs IH]; simpl.
  - destruct (Nat.eqb l' l); reflexivity.
  - destruct (Nat.eqb l' l) eqn:E; simpl; rewrite IH; reflexivity.
Qed.

(** More writes to the song at [l0]: the paths of all songs go on. *)
Lemma path_extend (ws : list (nat * native_midi_state)) (l0 l : nat)
      (st st' : native_midi_state) (vs : list native_midi_state) :
  (l = l0 -> path transition NATIVE_MIDI_STOPPED (writes_of l ws) = true /\
             st = final NATIVE_MIDI_STOPPED (writes_of l ws) /\
             path transition st vs = true /\ st' = final st vs) ->
  (l <> l0 -> path transition NATIVE_MIDI_STOPPED (writes_of l ws) = true /\
              st' = final NATIVE_MIDI_STOPPED (writes_of l ws)) ->
  path transition NATIVE_MIDI_STOPPED (writes_of l (ws ++ tag l0 vs)) = true /\
  st' = final NATIVE_MIDI_STOPPED (writes_of l (ws ++ tag l0 vs)).
Proof.
  intros Hsame Hother. rewrite writes_of_app, writes_of_tag.
  destruct (Nat.eqb l0 l) eqn:E.
  - apply Nat.eqb_eq in E. destruct (Hsame (eq_sym E)) as (H1 & H2 & H3 & H4).
    rewrite path_app, final_app, H1, <- H2, H3. auto.
  - apply Nat.eqb_neq in E. rewrite app_nil_r. apply Hother. congruence.
Qed.

Lemma stage_refl (p : player) : stage p p.
Proof.
  split; [reflexivity |]. exists []. rewrite app_nil_r. repeat split. constructor.
Qed.

Lemma stage_trans (p1 p2 p3 : player) : stage p1 p2 -> stage p2 p3 -> stage p1 p3.
Proof.
  intros (Ht1 & vs1 & Hw1 & Hf1 & Hs1) (Ht2 & vs2 & Hw2 & Hf2 & Hs2).
  split; [congruence |]. exists (vs1 ++ vs2).
  rewrite Hw2, Hw1, <- app_assoc, final_app, <- Hs1.
  repeat split; [apply Forall_app; split; assumption | exact Hs2].
Qed.

(** A stage that writes nothing to the playback state. *)
Lemma stage_silent (p p' : player) (l : list action) :
  playerthread (song p') = playerthread (song p) ->
  playerstate (song p') = playerstate (song p) ->
  trace p' = trace p ++ l -> state_writes l = [] ->
  stage p p'.
Proof.
  intros Ht Hs Hl Hw. split; [exact Ht |]. exists [].
  rewrite Hl, state_writes_app, Hw. repeat split; [constructor | exact Hs].
Qed.

Lemma command_stage (p : player) (op x : Z) : stage p (command p op x).
Proof.
  unfold command.
  destruct (op =? THREAD_CMD_QUIT).
  { apply (stage_silent _ _ []); try reflexivity. symmetry. apply app_nil_r. }
  destruct (op =? THREAD_CMD_SETVOL).
  { apply (stage_silent _ _ (send_volume_sysex (song p) x)); reflexivity. }
  destruct (op =? THREAD_CMD_PAUSE).
  { split; [reflexivity |]. exists [NATIVE_MIDI_PAUSED].
    unfold atomic_set. simpl. rewrite !state_writes_app. simpl. rewrite app_nil_r.
    split; [reflexivity | split; [| reflexivity]]. constructor; [auto | constructor]. }
  destruct (op =? THREAD_CMD_RESUME); [| apply stage_refl].
  split; [reflexivity |]. exists [NATIVE_MIDI_PLAYING].
  unfold atomic_set. simpl. rewrite !state_writes_app. simpl. rewrite app_nil_r.
  split; [reflexivity | split; [| reflexivity]]. constructor; [auto | constructor].
Qed.

Lemma process_stage (p : player) (e : MIDIEvent) (next : list MIDIEvent) (ret : Z) :
  stage p (process p e next ret).
Proof.
  unfold process. destruct (translate _ _ _) as [ev1 [|]].
  - apply (stage_silent _ _ [DbgLog true e]); reflexivity.
  - destruct (ret =? - EAGAIN).
    + apply (stage_silent _ _ [Output ev1 ret]); reflexivity.
    + apply (stage_silent _ _ [Output ev1 ret; DbgLog false e]); reflexivity.
Qed.

Lemma send_stage (p : player) (w : wake_input) : stage p (fst (send p w)).
Proof.
  unfold send. destruct (negb (alsa_out w)); [apply stage_refl |].
  destruct (event p); [apply stage_refl | apply process_stage].
Qed.

Lemma rewind_stage (p : player) (w : wake_input) : stage p (rewind p w).
Proof.
  unfold rewind.
  destruct (0 <? loopcount (song p));
    apply (stage_silent _ _
             (enqueue_queue_reset_event (song p) (queue p) (reset_again w) (reset_ret w)
              ++ enqueue_echo_event (song p) (queue p) (echo_again w) (echo_ret w)));
    try reflexivity; simpl; rewrite <- app_assoc; reflexivity.
Qed.

(** A turn of the loop writes only PLAYING and PAUSED, and keeps the
    thread handle of the song. *)
Lemma wake_stage (p : player) (w : wake_input) : stage p (fst (wake p w)).
Proof.
  unfold wake. destruct (poll_ret w <=? 0); [apply stage_refl |].
  assert (H2 : stage p (after_input (after_command p w) w)).
  { apply stage_trans with (after_command p w).
    - unfold after_command. destruct (_ && _); [apply command_stage | apply stage_refl].
    - unfold after_input. destruct (_ && _); [| apply stage_refl].
      apply (stage_silent _ _ []); try reflexivity. symmetry. apply app_nil_r. }
  set (p2 := after_input (after_command p w) w) in *.
  apply stage_trans with p2; [exact H2 |].
  destruct (event p2); [| apply send_stage].
  destruct (playback_finished p2).
  - destruct (loopcount (song p2) =? 0); [apply stage_refl |].
    apply stage_trans with (rewind p2 w); [apply rewind_stage | apply send_stage].
  - destruct (drain_ret w =? 0);
      apply (stage_silent _ _ [DrainOutput]); reflexivity.
Qed.

Lemma teardown_state (p : player) :
  state_writes (trace (teardown p)) = state_writes (trace p) ++ [NATIVE_MIDI_STOPPED] /\
  playerstate (song (teardown p)) = NATIVE_MIDI_STOPPED /\
  playerthread (song (teardown p)) = playerthread (song p).
Proof.
  rewrite teardown_trace, state_writes_app. unfold cleanup.
  set (l := flat_map _ _).
  assert (Hl : state_writes (map OutputDirect l) = []).
  { clearbody l. induction l as [| a l IH]; [reflexivity | exact IH]. }
  change (SetState NATIVE_MIDI_STOPPED :: ?a ++ map OutputDirect l)
    with ((SetState NATIVE_MIDI_STOPPED :: a) ++ map OutputDirect l).
  rewrite state_writes_app, Hl. repeat split.
Qed.

(** From PLAYING or PAUSED, writes of PLAYING and PAUSED follow edges and
    end in one of the two. *)
Lemma playing_paused_path (st : native_midi_state) (vs : list native_midi_state) :
  st = NATIVE_MIDI_PLAYING \/ st = NATIVE_MIDI_PAUSED ->
  Forall (fun v => v = NATIVE_MIDI_PLAYING \/ v = NATIVE_MIDI_PAUSED) vs ->
  path diagram st vs = true /\ path transition st vs = true /\
  (final st vs = NATIVE_MIDI_PLAYING \/ final st vs = NATIVE_MIDI_PAUSED).
Proof.
  intros Hst Hvs. revert st Hst. induction Hvs as [| v vs Hv Hvs IH]; intros st Hst.
  - simpl. auto.
  - simpl. destruct (IH v Hv) as (H1 & H2 & H3). rewrite H1, H2.
    destruct Hst as [-> | ->], Hv as [-> | ->]; auto.
Qed.

(** ** Invariants of the system *)

Lemma initial_inv : sys_inv initial.
Proof.
  constructor; simpl; intros;
    first [discriminate | reflexivity | exfalso; eapply lookup_empty_Some; eassumption].
Qed.

(** A step of the thread [t] of the song at [l] that keeps the handle,
    writes [vs] along edges and ends in a state of the new phase. *)
Lemma thread_step_inv (σ : system) (t l : nat) (ph ph' : phase)
      (s s' : NativeMidiSong) (vs : list native_midi_state) :
  sys_inv σ ->
  threads σ !! t = Some (l, ph) ->
  heap (shared σ) !! l = Some s ->
  playerthread s' = playerthread s ->
  phase_state ph' (playerstate s') ->
  path transition (playerstate s) vs = true ->
  playerstate s' = final (playerstate s) vs ->
  sys_inv {| shared := store l s' (shared σ);
             threads := <[t := (l, ph')]> (threads σ);
             ctl := ctl σ;
             writes := writes σ ++ tag l vs |}.
Proof.
  intros Hinv Ht Hl Hth Hph Hpath Hfin.
  destruct (inv_thread σ Hinv t l ph Ht) as (s0 & Hl0 & Hs0 & _).
  assert (s0 = s) by congruence. subst s0.
  constructor; simpl.
  - intros t0 l0 ph0 H0.
    destruct (decide (t = t0)) as [<- | Hne].
    + rewrite lookup_insert_eq in H0. injection H0 as <- <-.
      exists s'. rewrite lookup_insert_eq. split; [reflexivity |].
      split; [congruence | exact Hph].
    + rewrite lookup_insert_ne in H0 by exact Hne.
      destruct (inv_thread σ Hinv t0 l0 ph0 H0) as (s0 & Hl0' & Hs0' & Hph0).
      destruct (decide (l = l0)) as [<- | Hl'].
      * exfalso. apply Hne. congruence.
      * exists s0. rewrite lookup_insert_ne by exact Hl'. auto.
  - intros l0 s0 t0 H0 Hp0.
    destruct (decide (l = l0)) as [<- | Hl'].
    + rewrite lookup_insert_eq in H0. injection H0 as <-.
      assert (t0 = t) by congruence. subst t0.
      exists ph'. apply lookup_insert_eq.
    + rewrite lookup_insert_ne in H0 by exact Hl'.
      destruct (inv_handle σ Hinv l0 s0 t0 H0 Hp0) as [ph0 Hph0].
      exists ph0. rewrite lookup_insert_ne; [exact Hph0 |].
      intros <-. apply Hl'. congruence.
  - intros l0 s0 H0 Hp0.
    destruct (decide (l = l0)) as [<- | Hl'].
    + rewrite lookup_insert_eq in H0. injection H0 as <-. congruence.
    + rewrite lookup_insert_ne in H0 by exact Hl'.
      apply (inv_idle σ Hinv l0 s0 H0 Hp0).
  - intros l0 s0 H0.
    apply (path_extend (writes σ) l l0 (playerstate s) (playerstate s0) vs).
    + intros ->. rewrite lookup_insert_eq in H0. injection H0 as <-.
      destruct (inv_path σ Hinv l s Hl) as [H1 H2]. auto.
    + intros Hl'. rewrite lookup_insert_ne in H0 by congruence.
      apply (inv_path σ Hinv l0 s0 H0).
  - intros l0 H0.
    destruct (decide (l = l0)) as [<- | Hl'].
    + rewrite lookup_insert_eq in H0. discriminate.
    + rewrite lookup_insert_ne in H0 by exact Hl'.
      rewrite writes_of_app, writes_of_tag, (inv_fresh σ Hinv l0 H0).
      replace (Nat.eqb l l0) with false by (symmetry; apply Nat.eqb_neq; exact Hl').
      reflexivity.
  - intros t0 rest H0.
    destruct (inv_wait σ Hinv t0 rest H0) as (s0 & Hl0' & Hs0').
    destruct (decide (l = pending_song rest)) as [Heq | Hl'].
    + rewrite <- Heq in *. exists s'. rewrite lookup_insert_eq. split; congruence.
    + exists s0. rewrite lookup_insert_ne by exact Hl'. auto.
Qed.

(** The controller back at rest changes nothing else. *)
Lemma idle_inv (σ : system) (c : controller) :
  sys_inv σ ->
  (forall t rest, c = Waiting t rest ->
     exists s, heap (shared σ) !! pending_song rest = Some s /\ playerthread s = Some t) ->
  sys_inv {| shared := shared σ; threads := threads σ; ctl := c;
             writes := writes σ |}.
Proof.
  intros Hinv Hc. constructor; simpl.
  - apply (inv_thread σ Hinv).
  - apply (inv_handle σ Hinv).
  - apply (inv_idle σ Hinv).
  - apply (inv_path σ Hinv).
  - apply (inv_fresh σ Hinv).
  - exact Hc.
Qed.

Lemma load_inv (σ : system) (l : nat) (env : load_env) (w' : world) :
  sys_inv σ ->
  heap (shared σ) !! l = None ->
  native_midi_loadsong_RW (shared σ) l env = Some w' ->
  sys_inv {| shared := w'; threads := threads σ; ctl := Idle;
             writes := writes σ ++ [(l, NATIVE_MIDI_STOPPED)] |}.
Proof.
  intros Hinv Hl Hload. unfold native_midi_loadsong_RW in Hload.
  destruct (loadsong env) as [s |] eqn:Hs; [| discriminate].
  injection Hload as <-.
  destruct (loadsong_endtime env s note_on Hs) as (_ & _ & _ & Hst & Hth).
  constructor; simpl.
  - intros t0 l0 ph0 H0.
    destruct (inv_thread σ Hinv t0 l0 ph0 H0) as (s0 & Hl0 & Hs0 & Hph0).
    exists s0. rewrite lookup_insert_ne by congruence. auto.
  - intros l0 s0 t0 H0 Hp0.
    destruct (decide (l = l0)) as [<- | Hl'].
    + rewrite lookup_insert_eq in H0. injection H0 as <-. congruence.
    + rewrite lookup_insert_ne in H0 by exact Hl'.
      apply (inv_handle σ Hinv l0 s0 t0 H0 Hp0).
  - intros l0 s0 H0 Hp0.
    destruct (decide (l = l0)) as [<- | Hl'].
    + rewrite lookup_insert_eq in H0. injection H0 as <-. auto.
    + rewrite lookup_insert_ne in H0 by exact Hl'.
      apply (inv_idle σ Hinv l0 s0 H0 Hp0).
  - intros l0 s0 H0.
    apply (path_extend (writes σ) l l0 NATIVE_MIDI_STOPPED (playerstate s0)
                       [NATIVE_MIDI_STOPPED]).
    + intros ->. rewrite lookup_insert_eq in H0. injection H0 as <-.
      rewrite (inv_fresh σ Hinv l Hl), Hst. auto.
    + intros Hl'. rewrite lookup_insert_ne in H0 by congruence.
      apply (inv_path σ Hinv l0 s0 H0).
  - intros l0 H0.
    destruct (decide (l = l0)) as [<- | Hl'].
    + rewrite lookup_insert_eq in H0. discriminate.
    + rewrite lookup_insert_ne in H0 by exact Hl'.
      change [(l, NATIVE_MIDI_STOPPED)] with (tag l [NATIVE_MIDI_STOPPED]).
      rewrite writes_of_app, writes_of_tag, (inv_fresh σ Hinv l0 H0).
      replace (Nat.eqb l l0) with false by (symmetry; apply Nat.eqb_neq; exact Hl').
      reflexivity.
  - intros t0 rest H0. discriminate H0.
Qed.

(** [start_thread] on a song that no thread of [ths0] plays and whose
    state is STOPPED or STARTING. *)
Lemma start_thread_inv (σ : system) (ths0 : gmap nat (nat * phase))
      (l : nat) (s : NativeMidiSong) (loops : Z) (created : option nat) :
  sys_inv σ ->
  heap (shared σ) !! l = Some s ->
  playerstate s = NATIVE_MIDI_STOPPED \/ playerstate s = NATIVE_MIDI_STARTING ->
  (forall t0 l0 ph0, ths0 !! t0 = Some (l0, ph0) <->
                     threads σ !! t0 = Some (l0, ph0) /\ l0 <> l) ->
  (forall t, created = Some t -> ths0 !! t = None) ->
  sys_inv {| shared := fst (start_thread (shared σ) l loops created);
             threads := spawn [CtlCreateThread l created] ths0;
             ctl := Idle;
             writes := writes σ ++ [(l, NATIVE_MIDI_STARTING)] |}.
Proof.
  intros Hinv Hl Hst Hths Hfresh. unfold start_thread. rewrite Hl. simpl fst.
  set (s' := set_playerthread created _).
  assert (Hths' : forall t0 l0 ph0,
            spawn [CtlCreateThread l created] ths0 !! t0 = Some (l0, ph0) <->
            (created = Some t0 /\ l0 = l /\ ph0 = InSetup) \/
            (created <> Some t0 /\ ths0 !! t0 = Some (l0, ph0))).
  { intros t0 l0 ph0. simpl. destruct created as [t' |]; simpl.
    - destruct (decide (t' = t0)) as [<- | Hne].
      + rewrite lookup_insert_eq. split.
        * intros H. injection H as <- <-. auto.
        * intros [(_ & -> & ->) | [H _]]; [reflexivity | congruence].
      + rewrite lookup_insert_ne by exact Hne. split.
        * intros H. right. split; [congruence | exact H].
        * intros [(H & _) | [_ H]]; [congruence | exact H].
    - split; [intros H; right; split; [discriminate | exact H] |].
      intros [(H & _) | [_ H]]; [discriminate | exact H]. }
  constructor; cbn [shared threads ctl writes store heap].
  - intros t0 l0 ph0 H0. apply Hths' in H0.
    destruct H0 as [(Hc & -> & ->) | [Hc H0]].
    + exists s'. rewrite lookup_insert_eq. repeat split. exact Hc.
    + apply Hths in H0. destruct H0 as [H0 Hne].
      destruct (inv_thread σ Hinv t0 l0 ph0 H0) as (s0 & Hl0 & Hs0 & Hph0).
      exists s0. rewrite lookup_insert_ne by congruence. auto.
  - intros l0 s0 t0 H0 Hp0.
    destruct (decide (l = l0)) as [<- | Hl'].
    + rewrite lookup_insert_eq in H0. injection H0 as <-.
      exists InSetup. apply Hths'. left. auto.
    + rewrite lookup_insert_ne in H0 by exact Hl'.
      destruct (inv_handle σ Hinv l0 s0 t0 H0 Hp0) as [ph0 Hph0].
      exists ph0. apply Hths'. right.
      assert (Hin : ths0 !! t0 = Some (l0, ph0)) by (apply Hths; split; congruence).
      split; [| exact Hin].
      intros Hc. rewrite (Hfresh t0 Hc) in Hin. discriminate.
  - intros l0 s0 H0 Hp0.
    destruct (decide (l = l0)) as [<- | Hl'].
    + rewrite lookup_insert_eq in H0. injection H0 as <-. right. reflexivity.
    + rewrite lookup_insert_ne in H0 by exact Hl'.
      apply (inv_idle σ Hinv l0 s0 H0 Hp0).
  - intros l0 s0 H0.
    apply (path_extend (writes σ) l l0 (playerstate s) (playerstate s0)
                       [NATIVE_MIDI_STARTING]).
    + intros ->. rewrite lookup_insert_eq in H0. injection H0 as <-.
      destruct (inv_path σ Hinv l s Hl) as [H1 H2].
      repeat split; try assumption.
      destruct Hst as [-> | ->]; reflexivity.
    + intros Hl'. rewrite lookup_insert_ne in H0 by congruence.
      apply (inv_path σ Hinv l0 s0 H0).
  - intros l0 H0.
    destruct (decide (l = l0)) as [<- | Hl'].
    + rewrite lookup_insert_eq in H0. discriminate.
    + rewrite lookup_insert_ne in H0 by exact Hl'.
      change [(l, NATIVE_MIDI_STARTING)] with (tag l [NATIVE_MIDI_STARTING]).
      rewrite writes_of_app, writes_of_tag, (inv_fresh σ Hinv l0 H0).
      replace (Nat.eqb l l0) with false by (symmetry; apply Nat.eqb_neq; exact Hl').
      reflexivity.
  - intros t0 rest H0. discriminate H0.
Qed.

(** The end of [native_midi_stop]: the thread has returned, the handle is
    cleared. *)
Lemma stop_join_inv (σ : system) (t l : nat) (s : NativeMidiSong) :
  sys_inv σ ->
  threads σ !! t = Some (l, Done) ->
  heap (shared σ) !! l = Some s ->
  sys_inv {| shared := store l (set_playerthread None s) (shared σ);
             threads := delete t (threads σ);
             ctl := Idle;
             writes := writes σ ++ [] |}.
Proof.
  intros Hinv Ht Hl. rewrite app_nil_r.
  destruct (inv_thread σ Hinv t l Done Ht) as (s0 & Hl0 & Hs0 & Hph0).
  assert (s0 = s) by congruence. subst s0. simpl in Hph0.
  constructor; cbn [shared threads ctl writes store heap].
  - intros t0 l0 ph0 H0.
    destruct (decide (t = t0)) as [<- | Hne];
      [rewrite lookup_delete_eq in H0; discriminate |].
    rewrite lookup_delete_ne in H0 by exact Hne.
    destruct (inv_thread σ Hinv t0 l0 ph0 H0) as (s0 & Hl0' & Hs0' & Hph0').
    destruct (decide (l = l0)) as [<- | Hl'].
    + exfalso. apply Hne. congruence.
    + exists s0. rewrite lookup_insert_ne by exact Hl'. auto.
  - intros l0 s0 t0 H0 Hp0.
    destruct (decide (l = l0)) as [<- | Hl'].
    + rewrite lookup_insert_eq in H0. injection H0 as <-. discriminate Hp0.
    + rewrite lookup_insert_ne in H0 by exact Hl'.
      destruct (inv_handle σ Hinv l0 s0 t0 H0 Hp0) as [ph0 Hph0'].
      exists ph0. rewrite lookup_delete_ne; [exact Hph0' |].
      intros <-. apply Hl'. congruence.
  - intros l0 s0 H0 Hp0.
    destruct (decide (l = l0)) as [<- | Hl'].
    + rewrite lookup_insert_eq in H0. injection H0 as <-. left. exact Hph0.
    + rewrite lookup_insert_ne in H0 by exact Hl'.
      apply (inv_idle σ Hinv l0 s0 H0 Hp0).
  - intros l0 s0 H0.
    destruct (decide (l = l0)) as [<- | Hl'].
    + rewrite lookup_insert_eq in H0. injection H0 as <-.
      apply (inv_path σ Hinv l s Hl).
    + rewrite lookup_insert_ne in H0 by exact Hl'.
      apply (inv_path σ Hinv l0 s0 H0).
  - intros l0 H0.
    destruct (decide (l = l0)) as [<- | Hl'].
    + rewrite lookup_insert_eq in H0. discriminate.
    + rewrite lookup_insert_ne in H0 by exact Hl'.
      apply (inv_fresh σ Hinv l0 H0).
  - intros t0 rest H0. discriminate H0.
Qed.

(** What a call that returns has done: nothing to the world and to the
    threads, or [start_thread] on a song without a thread handle. *)
Lemma perform_ret (w w' : world) (a : api) (acts : list ctl_action) :
  perform w a = Ret w' acts ->
  (w' = w /\ starting_writes acts = [] /\ forall ths, spawn acts ths = ths) \/
  (exists l s loops created,
     heap w !! l = Some s /\ playerthread s = None /\
     w' = fst (start_thread w l loops created) /\
     acts = [CtlCreateThread l created]).
Proof.
  destruct a as [song loops wr created | wr | wr | wr | volume wr]; simpl.
  - unfold native_midi_start.
    destruct song as [l |]; [| intros H; injection H as <- <-; auto].
    destruct (heap w !! l) as [s |] eqn:Hl; [| intros H; injection H as <- <-; auto].
    destruct (playerthread s) as [t |] eqn:Hp.
    + destruct (deref w (currentsong w)); [| discriminate].
      destruct (_ <? _); [| discriminate].
      destruct (negb _); [| discriminate].
      intros H. injection H as <- <-. auto.
    + intros H. right. exists l, s, loops, created.
      unfold start_thread in *. rewrite Hl in *. injection H as <- <-. auto.
  - unfold native_midi_pause. destruct (deref w (currentsong w)); [| intros H; injection H as <- <-; auto].
    destruct (_ || _); intros H; injection H as <- <-; auto.
  - unfold native_midi_resume. destruct (deref w (currentsong w)); [| intros H; injection H as <- <-; auto].
    destruct (_ || _); intros H; injection H as <- <-; auto.
  - unfold native_midi_stop.
    destruct (currentsong w) as [l |]; [| intros H; injection H as <- <-; auto].
    destruct (heap w !! l) as [s |]; [| intros H; injection H as <- <-; auto].
    destruct (playerthread s); [| intros H; injection H as <- <-; auto].
    destruct (_ <? _); [| discriminate].
    destruct (negb _); [| discriminate].
    intros H. injection H as <- <-. auto.
  - unfold native_midi_setvolume.
    destruct (deref w (currentsong w)); [| intros H; injection H as <- <-; auto].
    destruct (negb _); intros H; injection H as <- <-; auto.
Qed.

(** A call that waits, waits for the thread whose handle the song holds. *)
Lemma perform_join (w : world) (a : api) (t : nat) (acts : list ctl_action) (rest : pending) :
  perform w a = Join t acts rest ->
  exists s, heap w !! pending_song rest = Some s /\ playerthread s = Some t.
Proof.
  destruct a as [song loops wr created | wr | wr | wr | volume wr]; simpl.
  - unfold native_midi_start.
    destruct song as [l |]; [| discriminate].
    destruct (heap w !! l) as [s |] eqn:Hl; [| discriminate].
    destruct (playerthread s) as [t' |] eqn:Hp.
    + destruct (deref w (currentsong w)); [| discriminate].
      destruct (_ <? _); [destruct (negb _); [discriminate |] |];
        intros H; injection H as <- _ <-; exists s; auto.
    + unfold start_thread. rewrite Hl. discriminate.
  - unfold native_midi_pause. destruct (deref w (currentsong w)); [| discriminate].
    destruct (_ || _); discriminate.
  - unfold native_midi_resume. destruct (deref w (currentsong w)); [| discriminate].
    destruct (_ || _); discriminate.
  - unfold native_midi_stop.
    destruct (currentsong w) as [l |]; [| discriminate].
    destruct (heap w !! l) as [s |] eqn:Hl; [| discriminate].
    destruct (playerthread s) as [t' |] eqn:Hp; [| discriminate].
    destruct (_ <? _); [destruct (negb _); [discriminate |] |];
      intros H; injection H as <- _ <-; exists s; auto.
  - unfold native_midi_setvolume.
    destruct (deref w (currentsong w)); [| discriminate].
    destruct (negb _); discriminate.
Qed.

(** Every step keeps the invariant. *)
Lemma step_inv (σ σ' : system) : sys_inv σ -> step σ σ' -> sys_inv σ'.
Proof.
  intros Hinv Hstep.
  destruct Hstep as [σ l env w' Hc Hl Hload
                    | σ a w' acts Hc Hp Hfresh
                    | σ a t acts rest Hc Hp
                    | σ t l rest created w' acts Hc Ht Hr Hfresh
                    | σ t l s env Ht Hl
                    | σ t l s p p' w o Ht Hl Hw Ho
                    | σ t l s p Ht Hl].
  - apply (load_inv σ l env); assumption.
  - destruct (perform_ret _ _ _ _ Hp) as [(-> & Hsw & Hsp) | (l & s & loops & created & Hl & Hth & -> & ->)].
    + rewrite Hsw, Hsp, app_nil_r. apply idle_inv; [exact Hinv | discriminate].
    + apply (start_thread_inv σ (threads σ) l s loops created Hinv Hl).
      * apply (inv_idle σ Hinv l s Hl Hth).
      * intros t0 l0 ph0. split; [| tauto]. intros H0. split; [exact H0 |].
        destruct (inv_thread σ Hinv t0 l0 ph0 H0) as (s0 & Hl0 & Hs0 & _).
        intros ->. congruence.
      * intros t0 ->. apply (Hfresh l t0). left. reflexivity.
  - apply idle_inv; [exact Hinv |].
    intros t0 rest0 H0. injection H0 as <- <-. apply (perform_join _ _ _ _ _ Hp).
  - destruct (inv_wait σ Hinv t rest Hc) as (s & Hl & Hth).
    destruct (inv_handle σ Hinv _ s t Hl Hth) as [ph Hph].
    assert (Heq : pending_song rest = l /\ ph = Done) by (split; congruence).
    destruct Heq as [Heq ->]. clear Hph.
    destruct (inv_thread σ Hinv t l Done Ht) as (s0 & Hl0 & Hs0 & Hst).
    rewrite Heq in Hl. assert (s0 = s) by congruence. subst s0. simpl in Hst.
    destruct rest as [l' loops | l']; simpl in Heq; subst l'; simpl in Hr.
    + assert (Hw : w' = fst (start_thread (shared σ) l loops created)) by (rewrite Hr; reflexivity).
      assert (Ha : acts = [CtlCreateThread l created]).
      { unfold start_thread in Hr. rewrite Hl in Hr. injection Hr as _ <-. reflexivity. }
      subst w' acts.
      apply (start_thread_inv σ (delete t (threads σ)) l s loops created Hinv Hl).
      * left. exact Hst.
      * intros t0 l0 ph0. destruct (decide (t = t0)) as [<- | Hne].
        -- rewrite lookup_delete_eq. split; [discriminate |].
           intros [H0 Hl']. exfalso. apply Hl'. congruence.
        -- rewrite lookup_delete_ne by exact Hne. split; [| tauto].
           intros H0. split; [exact H0 |].
           destruct (inv_thread σ Hinv t0 l0 ph0 H0) as (s0 & Hl0' & Hs0' & _).
           intros ->. apply Hne. congruence.
      * intros t0 ->. apply (Hfresh l t0). left. reflexivity.
    + rewrite Hl in Hr. injection Hr as <- <-.
      apply stop_join_inv; assumption.
  - destruct (inv_thread σ Hinv t l InSetup Ht) as (s0 & Hl0 & Hs0 & Hst).
    assert (s0 = s) by congruence. subst s0. simpl in Hst.
    apply (thread_step_inv σ t l InSetup _ s _ _ Hinv Ht Hl); simpl; auto.
    rewrite Hst. reflexivity.
  - destruct (inv_thread σ Hinv t l (InLoop p) Ht) as (s0 & Hl0 & Hs0 & Hst).
    assert (s0 = s) by congruence. subst s0. simpl in Hst.
    pose proof (wake_stage (view s p) w) as (Hth & vs & Hvs & Hall & Hfin).
    rewrite Hw in Hth, Hvs, Hfin. simpl in Hth, Hvs, Hfin.
    destruct (playing_paused_path (playerstate s) vs Hst Hall) as (_ & Hpath & Hend).
    rewrite Hvs.
    apply (thread_step_inv σ t l (InLoop p) _ s _ _ Hinv Ht Hl); auto.
    rewrite <- Hfin in Hend. destruct o; exact Hend.
  - destruct (inv_thread σ Hinv t l (LeftLoop p) Ht) as (s0 & Hl0 & Hs0 & Hst).
    assert (s0 = s) by congruence. subst s0. simpl in Hst.
    destruct (teardown_state (view s p)) as (Hvs & Hfin & Hth).
    rewrite Hvs.
    apply (thread_step_inv σ t l (LeftLoop p) Done s (song (teardown (view s p)))
                           [NATIVE_MIDI_STOPPED] Hinv Ht Hl); auto.
    simpl. destruct Hst as [-> | ->]; reflexivity.
Qed.

Lemma reachable_inv (σ : system) : reachable σ -> sys_inv σ.
Proof.
  unfold reachable. revert σ.
  apply rtc_ind_r; [apply initial_inv |].
  intros σ1 σ2 _ Hs IH. apply (step_inv σ1); assumption.
Qed.

(** ** The state machine *)

(** C8, counterexample.  Load a song of one event, start it with loop
    count 0, and let it play to its end: the writes to its playback state are
    STOPPED, STARTING, PLAYING, STOPPED, and the step from PLAYING to STOPPED
    is no edge of the diagram as it is drawn. *)
Lemma state_diagram_counterexample :
  reachable played_system /\
  writes_of 0 (writes played_system) =
    [NATIVE_MIDI_STOPPED; NATIVE_MIDI_STARTING; NATIVE_MIDI_PLAYING; NATIVE_MIDI_STOPPED] /\
  path diagram NATIVE_MIDI_STOPPED (writes_of 0 (writes played_system)) = false /\
  diagram NATIVE_MIDI_PLAYING NATIVE_MIDI_STOPPED = false.
Proof.
  split; [apply played_reachable |]. repeat split.
Qed.

Lemma transition_cases (a b : native_midi_state) :
  transition a b = true ->
  diagram a b = true \/ (a = NATIVE_MIDI_PLAYING /\ b = NATIVE_MIDI_STOPPED).
Proof.
  destruct a, b; simpl; auto; discriminate.
Qed.

Lemma transition_into_paused (a : native_midi_state) :
  transition a NATIVE_MIDI_PAUSED = true ->
  a = NATIVE_MIDI_PLAYING \/ a = NATIVE_MIDI_PAUSED.
Proof.
  destruct a; simpl; auto; discriminate.
Qed.

Lemma cleanup_state_writes (p : player) : state_writes (cleanup p) = [].
Proof.
  unfold cleanup. set (l := flat_map _ _). rewrite state_writes_app.
  clearbody l. induction l as [| a l IH]; [reflexivity | exact IH].
Qed.

(** C8, amended.  In every system the program can get into, the values
    written to the playback state of a song, from the STOPPED its allocation
    leaves, each follow an edge of the diagram STOPPED -> STARTING -> PLAYING
    <-> PAUSED -> STOPPED, the edge PLAYING -> STOPPED, or a loop on a state,
    and the state of the song is the last value written.  PAUSED is written
    only over PLAYING or PAUSED.  A thread that has left the loop writes
    STOPPED and then runs its cleanup sequence, which writes no state. *)
Theorem playback_state_transitions (σ : system) (l : nat) (s : NativeMidiSong) :
  reachable σ ->
  heap (shared σ) !! l = Some s ->
  path transition NATIVE_MIDI_STOPPED (writes_of l (writes σ)) = true /\
  playerstate s = final NATIVE_MIDI_STOPPED (writes_of l (writes σ)) /\
  (forall a b, transition a b = true ->
     diagram a b = true \/ (a = NATIVE_MIDI_PLAYING /\ b = NATIVE_MIDI_STOPPED)) /\
  (forall before after,
     writes_of l (writes σ) = before ++ NATIVE_MIDI_PAUSED :: after ->
     final NATIVE_MIDI_STOPPED before = NATIVE_MIDI_PLAYING \/
     final NATIVE_MIDI_STOPPED before = NATIVE_MIDI_PAUSED) /\
  (forall p, trace (teardown p) = trace p ++ SetState NATIVE_MIDI_STOPPED :: cleanup p /\
             state_writes (cleanup p) = [] /\
             playerstate (song (teardown p)) = NATIVE_MIDI_STOPPED).
Proof.
  intros Hr Hl.
  destruct (inv_path σ (reachable_inv σ Hr) l s Hl) as [Hpath Hfin].
  repeat apply conj.
  - exact Hpath.
  - exact Hfin.
  - apply transition_cases.
  - intros before after Hw. rewrite Hw, path_app in Hpath.
    apply andb_prop in Hpath. destruct Hpath as [_ Hpath]. simpl in Hpath.
    apply andb_prop in Hpath. destruct Hpath as [Hedge _].
    apply transition_into_paused, Hedge.
  - intros p. split; [apply teardown_trace |].
    split; [apply cleanup_state_writes | apply teardown_state].
Qed.

(** ** Instances *)

Lemma loop_count_semantics_witness :
  evtlist (set_loopcount 1 short_song) <> [] /\
  Forall quiet (cooperative short_song 2) /\
  returned (native_midi_player_thread (set_loopcount 1 short_song) sample_setup
                                      (cooperative short_song 2)) = true /\
  consumed (trace (run_player
                     (native_midi_player_thread (set_loopcount 1 short_song) sample_setup
                                                (cooperative short_song 2))))
    = passes [note_on] 2 /\
  sentinels (trace (run_player
                      (native_midi_player_thread (set_loopcount 1 short_song) sample_setup
                                                 (cooperative short_song 2))))
    = 2%nat /\
  productive_turns (setup (set_loopcount 1 short_song) sample_setup)
                   (cooperative short_song 2) = 4%nat /\
  returned (native_midi_player_thread (set_loopcount 1 short_song) sample_setup
                                      (cooperative short_song 2 ++ [idle_turn])) = true /\
  native_midi_player_thread (set_loopcount (-1) sample_song) sample_setup
                            ([send_turn] ++ failed_poll :: [send_turn])
  = Returned (teardown (run_player
                          (native_midi_player_thread (set_loopcount (-1) sample_song)
                                                     sample_setup [send_turn]))).
Proof.
  assert (Hne : evtlist (set_loopcount 1 short_song) <> []) by (simpl; discriminate).
  assert (Hq : Forall quiet (cooperative short_song 2)).
  { repeat (constructor; [split; reflexivity |]). constructor. }
  assert (Hr : returned (native_midi_player_thread (set_loopcount 1 short_song) sample_setup
                           (cooperative short_song 2)) = true)
    by (vm_compute; reflexivity).
  assert (Hn : productive_turns (setup (set_loopcount 1 short_song) sample_setup)
                                (cooperative short_song 2) = 4%nat)
    by (vm_compute; reflexivity).
  destruct (loop_count_semantics (set_loopcount 1 short_song) sample_setup
              (cooperative short_song 2) Hne Hq)
    as (_ & _ & Hret & _ & _ & _ & _ & _ & Hdone & _ & Hpoll).
  destruct (Hret Hr) as (_ & Hc & Hs & _).
  split; [exact Hne |]. split; [exact Hq |]. split; [exact Hr |].
  split; [exact Hc |]. split; [exact Hs |]. split; [exact Hn |].
  split.
  - apply Hdone; [simpl; lia | rewrite Hn; simpl; lia | split; reflexivity].
  - apply Hpoll; [vm_compute; reflexivity | simpl; lia].
Defined.

Lemma setup_sequence_witness :
  loadsong sample_load = Some sample_song /\
  trace (setup sample_song sample_setup) =
    [AllocQueue 1; StartQueue 1; PollDescriptors; Nonblock true;
     SetQueueTempo 1 500000 96;
     OutputSpin (echo_event sample_song 1) 0 0;
     SetState NATIVE_MIDI_PLAYING] /\
  sched (echo_event sample_song 1) = QueueTick 1 21 /\
  sched (echo_event sample_song (-1)) = QueueTick 255 21.
Proof.
  assert (Hl : loadsong sample_load = Some sample_song) by reflexivity.
  destruct (setup_sequence sample_load sample_song sample_setup note_on Hl)
    as (Ht & _ & _ & _ & _ & Hs & _).
  destruct (setup_sequence sample_load sample_song
              {| se_queue := -1; se_echo_again := 0; se_echo_ret := 0 |} note_on Hl)
    as (_ & _ & _ & _ & _ & Hs' & _).
  split; [exact Hl |]. split; [exact Ht |].
  split; [apply Hs; simpl; lia | apply Hs'; simpl; lia].
Defined.

Lemma stop_when_stopped_witness :
  currentsong (world_of NATIVE_MIDI_STOPPED None true) = Some 0%nat /\
  heap (world_of NATIVE_MIDI_STOPPED None true) !! 0%nat
    = Some (song_of NATIVE_MIDI_STOPPED None true) /\
  no_op (world_of NATIVE_MIDI_STOPPED None true)
        (native_midi_stop (world_of NATIVE_MIDI_STOPPED None true) 2).
Proof.
  assert (Hc : currentsong (world_of NATIVE_MIDI_STOPPED None true) = Some 0%nat)
    by reflexivity.
  assert (Hl : heap (world_of NATIVE_MIDI_STOPPED None true) !! 0%nat
               = Some (song_of NATIVE_MIDI_STOPPED None true))
    by (vm_compute; reflexivity).
  destruct (stop_when_stopped (world_of NATIVE_MIDI_STOPPED None true) 0%nat
              (song_of NATIVE_MIDI_STOPPED None true) 2 Hc Hl eq_refl) as (_ & Hn & _).
  split; [exact Hc |]. split; [exact Hl |]. apply Hn. reflexivity.
Defined.

Lemma pause_resume_preconditions_witness :
  no_op (world_of NATIVE_MIDI_STOPPED (Some 7%nat) true)
        (native_midi_pause (world_of NATIVE_MIDI_STOPPED (Some 7%nat) true) 2) /\
  no_op (world_of NATIVE_MIDI_PLAYING (Some 7%nat) false)
        (native_midi_pause (world_of NATIVE_MIDI_PLAYING (Some 7%nat) false) 2) /\
  no_op (world_of NATIVE_MIDI_PLAYING (Some 7%nat) true)
        (native_midi_resume (world_of NATIVE_MIDI_PLAYING (Some 7%nat) true) 2).
Proof.
  split; [| split].
  - apply (proj1 (pause_resume_preconditions
                    (world_of NATIVE_MIDI_STOPPED (Some 7%nat) true) 2)).
    intros (s & Hc & Hlt & _). vm_compute in Hc. injection Hc as <-.
    simpl in Hlt. lia.
  - apply (proj1 (pause_resume_preconditions
                    (world_of NATIVE_MIDI_PLAYING (Some 7%nat) false) 2)).
    intros (s & Hc & _ & Hal). vm_compute in Hc. injection Hc as <-.
    simpl in Hal. discriminate Hal.
  - apply (proj2 (pause_resume_preconditions
                    (world_of NATIVE_MIDI_PLAYING (Some 7%nat) true) 2)).
    intros (s & Hc & Hst). vm_compute in Hc. injection Hc as <-.
    simpl in Hst. discriminate Hst.
Defined.

Lemma meta_tempo_translation_witness :
  Forall is_byte (extraData tempo_change) /\
  trace (process sample_player tempo_change [note_off] 0) =
    trace sample_player
    ++ [Output (snd_seq_ev_set_queue_tempo 1 (be24 0x07 0xA1 0x20)
                  (addressed sample_player tempo_change)) 0;
        DbgLog false tempo_change] /\
  be24 0x07 0xA1 0x20 = 500000 /\
  trace (process sample_player tempo_short [note_off] 0) =
    trace sample_player ++ [DbgLog true tempo_short] /\
  data (snd_seq_ev_set_queue_tempo 1 (be24 0x07 0xA1 0x20)
          (addressed sample_player tempo_change)) = DataQueueValue 1 500000.
Proof.
  assert (Hb : Forall is_byte (extraData tempo_change)).
  { repeat (constructor; [unfold is_byte; lia |]). constructor. }
  assert (Hb' : Forall is_byte (extraData tempo_short)).
  { repeat (constructor; [unfold is_byte; lia |]). constructor. }
  pose proof (meta_tempo_translation sample_player tempo_change [note_off] 0
                eq_refl eq_refl Hb) as H1.
  pose proof (meta_tempo_translation sample_player tempo_short [note_off] 0
                eq_refl eq_refl Hb') as H2.
  simpl in H1, H2.
  destruct H1 as (Ht & _ & Hdata & _ & _ & Hv & _). destruct H2 as (Ht' & _).
  split; [exact Hb |]. split; [exact Ht |]. split; [rewrite Hv; reflexivity |].
  split; [exact Ht' |].
  transitivity (DataQueueValue (queue_id 1) (be24 0x07 0xA1 0x20)); [exact Hdata |].
  rewrite Hv. reflexivity.
Defined.

Lemma pitch_bend_translation_witness :
  Z.land (status bend) 0xF0 = MIDI_CMD_BENDER /\
  exists ev1 rest,
    trace (process sample_player bend [note_off] 0) = trace sample_player ++ Output ev1 0 :: rest /\
    type ev1 = SND_SEQ_EVENT_PITCHBEND /\
    data ev1 = DataChannelValue 3 0 /\
    sched ev1 = QueueTick 1 15.
Proof.
  assert (Hc : Z.land (status bend) 0xF0 = MIDI_CMD_BENDER) by reflexivity.
  assert (H0 : is_byte (data_0 bend)) by (unfold is_byte; simpl; lia).
  assert (H1 : 0 <= data_1 bend < 128) by (simpl; lia).
  destruct (pitch_bend_translation sample_player bend [note_off] 0 Hc H0 H1)
    as (ev1 & rest & Ht & Hty & Hd & _ & Hs & _).
  split; [exact Hc |]. exists ev1, rest. auto.
Defined.

Lemma control_send_failure_witness :
  -1 <> CMD_PKT_LEN /\
  native_midi_stop (world_of NATIVE_MIDI_PLAYING (Some 7%nat) true) (-1) =
    Ret (world_of NATIVE_MIDI_PLAYING (Some 7%nat) true) [quit_write 3 (-1)] /\
  native_midi_start (world_of NATIVE_MIDI_PLAYING (Some 7%nat) true) (Some 0%nat) 0 (-1) (Some 8%nat) =
    Ret (world_of NATIVE_MIDI_PLAYING (Some 7%nat) true) [quit_write 3 (-1)].
Proof.
  assert (Hwr : -1 <> CMD_PKT_LEN) by (unfold CMD_PKT_LEN; lia).
  destruct (control_send_failure (world_of NATIVE_MIDI_PLAYING (Some 7%nat) true) (-1) Hwr)
    as (_ & _ & _ & Hstart & Hstop & _).
  split; [exact Hwr |]. split.
  - apply Hstop. vm_compute. left. reflexivity.
  - apply Hstart. vm_compute. left. reflexivity.
Defined.

Lemma playback_state_transitions_witness :
  heap (shared played_system) !! 0%nat = Some (set_playerthread (Some 5%nat) short_song) /\
  path transition NATIVE_MIDI_STOPPED (writes_of 0 (writes played_system)) = true /\
  playerstate (set_playerthread (Some 5%nat) short_song)
    = final NATIVE_MIDI_STOPPED (writes_of 0 (writes played_system)).
Proof.
  assert (Hl : heap (shared played_system) !! 0%nat
               = Some (set_playerthread (Some 5%nat) short_song))
    by (vm_compute; reflexivity).
  destruct (playback_state_transitions played_system 0%nat _ played_reachable Hl)
    as (Hp & Hf & _).
  repeat split; assumption.
Defined.

Lemma volume_round_trip_witness :
  native_midi_player_thread sample_song sample_setup [frame_turn THREAD_CMD_SETVOL 100] =
    Running (run_player (native_midi_player_thread sample_song sample_setup
                                                   [frame_turn THREAD_CMD_SETVOL 100])) /\
  current_volume (run_player (native_midi_player_thread sample_song sample_setup
                                                        [frame_turn THREAD_CMD_SETVOL 100]))
    = 100 /\
  exists rest,
    wake_actions (run_player (native_midi_player_thread sample_song sample_setup
                                                        [frame_turn THREAD_CMD_SETVOL 100]))
                 (frame_turn THREAD_CMD_RESUME 0) =
      [OutputDirect (queue_control_event SND_SEQ_EVENT_CONTINUE 1);
       OutputDirect (volume_event sample_song 100);
       SetState NATIVE_MIDI_PLAYING] ++ rest.
Proof.
  assert (Hrun : native_midi_player_thread sample_song sample_setup
                   [frame_turn THREAD_CMD_SETVOL 100] =
                 Running (run_player (native_midi_player_thread sample_song sample_setup
                                        [frame_turn THREAD_CMD_SETVOL 100])))
    by (vm_compute; reflexivity).
  destruct (volume_round_trip sample_song sample_setup [frame_turn THREAD_CMD_SETVOL 100] _ Hrun)
    as (_ & Hv & _ & _ & Hres & _).
  split; [exact Hrun |]. split; [exact Hv |].
  destruct (Hres (frame_turn THREAD_CMD_RESUME 0) 0 eq_refl) as [rest Hrest].
  exists rest. exact Hrest.
Defined.

Lemma setvolume_only_when_playing_witness :
  no_op (world_of NATIVE_MIDI_PAUSED (Some 7%nat) true)
        (native_midi_setvolume (world_of NATIVE_MIDI_PAUSED (Some 7%nat) true) 100 2).
Proof.
  apply (setvolume_only_when_playing (world_of NATIVE_MIDI_PAUSED (Some 7%nat) true) 100 2).
  intros s Hc. vm_compute in Hc. injection Hc as <-. discriminate.
Defined.

(** * More of the code *)

(** ** The client name *)

Lemma cstring_no_nul (buf : list Ascii.ascii) : ~ In "000"%char (cstring buf).
Proof.
  induction buf as [| c buf IH]; simpl; [tauto |].
  destruct (Ascii.eqb c "000"%char) eqn:E; simpl; [tauto |].
  apply Ascii.eqb_neq in E. intros [H | H]; [congruence | exact (IH H)].
Qed.

Lemma cstring_terminated (s rest : list Ascii.ascii) :
  ~ In "000"%char s -> cstring (s ++ "000"%char :: rest) = s.
Proof.
  induction s as [| c s IH]; simpl; intros H; [reflexivity |].
  destruct (Ascii.eqb c "000"%char) eqn:E.
  - apply Ascii.eqb_eq in E. exfalso. apply H. left. exact E.
  - f_equal. apply IH. intros Hin. apply H. right. exact Hin.
Qed.

Lemma after_last_absent (c : Ascii.ascii) (s : list Ascii.ascii) :
  ~ In c s -> after_last c s = None.
Proof.
  induction s as [| x s IH]; simpl; intros H; [reflexivity |].
  rewrite IH by tauto.
  destruct (Ascii.eqb x c) eqn:E; [| reflexivity].
  apply Ascii.eqb_eq in E. exfalso. apply H. left. exact E.
Qed.

Lemma after_last_found (c : Ascii.ascii) (dir base : list Ascii.ascii) :
  ~ In c base -> after_last c (dir ++ c :: base) = Some base.
Proof.
  intros H. induction dir as [| x dir IH]; simpl.
  - rewrite (after_last_absent c base H), Ascii.eqb_refl. reflexivity.
  - rewrite IH. reflexivity.
Qed.

Lemma after_last_none (c : Ascii.ascii) (s : list Ascii.ascii) :
  after_last c s = None -> ~ In c s.
Proof.
  induction s as [| y s IH]; simpl; [tauto |].
  destruct (after_last c s); [discriminate |].
  destruct (Ascii.eqb y c) eqn:Ey; [discriminate |].
  apply Ascii.eqb_neq in Ey. intros _ [Hy | Hl]; [congruence | exact (IH eq_refl Hl)].
Qed.

Lemma after_last_suffix (c : Ascii.ascii) (s r : list Ascii.ascii) :
  after_last c s = Some r -> exists dir, s = dir ++ c :: r /\ ~ In c r.
Proof.
  revert r. induction s as [| x s IH]; simpl; intros r H; [discriminate |].
  destruct (after_last c s) as [r' |] eqn:E.
  - injection H as <-. destruct (IH r' eq_refl) as (dir & -> & Hn).
    exists (x :: dir). split; [reflexivity | exact Hn].
  - destruct (Ascii.eqb x c) eqn:Ex; [| discriminate].
    apply Ascii.eqb_eq in Ex. injection H as <-. subst x.
    exists []. split; [reflexivity | apply after_last_none, E].
Qed.

Lemma usable_wellformed (h : option (list Ascii.ascii)) (s : list Ascii.ascii) :
  usable h = Some s -> s <> [] /\ ~ In "000"%char s.
Proof.
  unfold usable. destruct h as [buf |]; [| discriminate].
  pose proof (cstring_no_nul buf) as Hn.
  destruct (cstring buf) as [| c r]; [discriminate |].
  intros H. injection H as <-. split; [discriminate | exact Hn].
Qed.

Lemma in_firstn (A : Type) (x : A) (n : nat) (l : list A) : In x (firstn n l) -> In x l.
Proof.
  intros H. rewrite <- (firstn_skipn n l). apply in_or_app. left. exact H.
Qed.

Lemma fallback_name_wellformed (env : name_env) :
  0 < pathmax env ->
  fallback_name env <> [] /\
  ~ In "000"%char (fallback_name env) /\ ~ In "/"%char (fallback_name env).
Proof.
  intros Hp. unfold fallback_name.
  destruct (Z.to_nat (pathmax env)) as [| n] eqn:E; [lia |].
  split; [discriminate |].
  split; intros H; apply in_firstn in H; vm_compute in H;
    repeat (destruct H as [H | H]; [discriminate H |]); exact H.
Qed.

(** X1. A name [get_app_name] returns is not empty, holds no NUL, and,
    unless it was taken from a hint, holds no slash. *)
Theorem app_name_wellformed (env : name_env) (s : list Ascii.ascii) :
  get_app_name env = Name s ->
  0 < pathmax env ->
  s <> [] /\ ~ In "000"%char s /\ (get_app_name_hint env = None -> ~ In "/"%char s).
Proof.
  intros H Hp. unfold get_app_name in H.
  destruct (get_app_name_hint env) as [hint |] eqn:Hh.
  - destruct (strdup_ok env); [| discriminate]. injection H as ->.
    assert (Hu : s <> [] /\ ~ In "000"%char s).
    { unfold get_app_name_hint in Hh.
      destruct (usable (hint_audio env)) as [a |] eqn:Ha.
      - injection Hh as <-. apply (usable_wellformed _ _ Ha).
      - apply (usable_wellformed _ _ Hh). }
    destruct Hu. repeat split; try assumption. discriminate.
  - destruct (fallback_name_wellformed env Hp) as (F1 & F2 & F3).
    destruct (negb (calloc_ok env)); [discriminate |].
    destruct (cmdline_read env) as [bytes |].
    + destruct (firstn (Z.to_nat (pathmax env)) bytes) as [| b0 stored];
        [injection H as <-; auto |].
      set (cmdline := cstring _) in H.
      destruct (after_last "/"%char cmdline) as [base |] eqn:Ha; [| discriminate].
      destruct (after_last_suffix _ _ _ Ha) as (dir & Hc & Hns).
      destruct base as [| b base'].
      * injection H as <-. auto.
      * injection H as <-. split; [discriminate |]. split; [| auto].
        intros Hin. apply (cstring_no_nul (b0 :: stored)).
        fold cmdline. rewrite Hc. apply in_or_app. right. right. exact Hin.
    + injection H as <-. auto.
Qed.

Lemma firstn_terminated (A : Type) (n : nat) (a : list A) (x : A) (rest : list A) :
  (length a < n)%nat ->
  exists rest', firstn n (a ++ x :: rest) = a ++ x :: rest'.
Proof.
  revert n. induction a as [| y a IH]; intros n Hn; simpl in *.
  - destruct n as [| n]; [lia |]. eexists. reflexivity.
  - destruct n as [| n]; [lia |]. destruct (IH n ltac:(lia)) as [r Hr].
    exists r. simpl. rewrite Hr. reflexivity.
Qed.

(** X2. Without a usable hint, when the command line of the process starts
    with a path that has a slash in it, the name is what follows the last
    slash of that path (and the fallback name if nothing follows it). *)
Theorem app_name_basename (env : name_env) (dir base rest : list Ascii.ascii) :
  get_app_name_hint env = None ->
  calloc_ok env = true ->
  cmdline_read env = Some (dir ++ "/"%char :: base ++ "000"%char :: rest) ->
  ~ In "000"%char dir -> ~ In "000"%char base -> ~ In "/"%char base ->
  Z.of_nat (length (dir ++ "/"%char :: base)) < pathmax env ->
  get_app_name env = match base with [] => Name (fallback_name env) | _ => Name base end.
Proof.
  intros Hh Hc Hr Hd Hb Hs Hlen. unfold get_app_name. rewrite Hh, Hc, Hr. simpl negb. cbv iota.
  assert (Hbuf : (dir ++ "/"%char :: base ++ "000"%char :: rest)
                 = (dir ++ "/"%char :: base) ++ "000"%char :: rest).
  { rewrite <- app_assoc. reflexivity. }
  rewrite Hbuf.
  destruct (firstn_terminated _ (Z.to_nat (pathmax env)) (dir ++ "/"%char :: base)
                              "000"%char rest ltac:(lia)) as [rest' ->].
  destruct ((dir ++ "/"%char :: base) ++ "000"%char :: rest') as [| b0 stored] eqn:Es;
    [destruct dir; discriminate |].
  rewrite <- Es. rewrite cstring_terminated.
  - rewrite (after_last_found _ dir base Hs). destruct base; reflexivity.
  - intros Hin. apply in_app_or in Hin. destruct Hin as [Hin | [Hin | Hin]];
      [exact (Hd Hin) | discriminate Hin | exact (Hb Hin)].
Qed.

(** X3. Without a usable hint, when the first string of the command line
    has no slash in it, [SDL_strrchr] answers [NULL] and the code hands the
    pointer [NULL + 1] to [strlen]. *)
Theorem app_name_without_slash (env : name_env) (arg0 rest : list Ascii.ascii) :
  get_app_name_hint env = None ->
  calloc_ok env = true ->
  cmdline_read env = Some (arg0 ++ "000"%char :: rest) ->
  ~ In "000"%char arg0 -> ~ In "/"%char arg0 ->
  Z.of_nat (length arg0) < pathmax env ->
  get_app_name env = NameFault.
Proof.
  intros Hh Hc Hr Hn Hs Hlen. unfold get_app_name. rewrite Hh, Hc, Hr. simpl negb. cbv iota.
  destruct (firstn_terminated _ (Z.to_nat (pathmax env)) arg0 "000"%char rest ltac:(lia))
    as [rest' ->].
  destruct (arg0 ++ "000"%char :: rest') as [| b0 stored] eqn:Es;
    [destruct arg0; discriminate |].
  rewrite <- Es, (cstring_terminated _ _ Hn), (after_last_absent _ _ Hs). reflexivity.
Qed.

(** ** Port discovery *)

Lemma try_ports_attempts (env : seq_env) (required_type client : Z)
      (ports : list port_info) (n : nat) :
  try_ports env required_type client ports n =
  attempts (connect env)
           (map (fun pi => (client, pi_port pi)) (List.filter (wanted required_type) ports)) n.
Proof.
  revert n. induction ports as [| pi ports IH]; intros n; simpl; [reflexivity |].
  destruct (wanted required_type pi); simpl; [| apply IH].
  destruct (connect env n client (pi_port pi) =? 0); [reflexivity |].
  rewrite IH. reflexivity.
Qed.

Lemma attempts_app (conn : nat -> Z -> Z -> Z) (a b : list (Z * Z)) (n : nat) :
  attempts conn (a ++ b) n =
  let '(ok, calls, n') := attempts conn a n in
  if ok then (true, calls, n')
  else let '(ok', calls', n'') := attempts conn b n' in (ok', calls ++ calls', n'').
Proof.
  revert n. induction a as [| [c p] a IH]; intros n; simpl.
  - destruct (attempts conn b n) as [[ok' calls'] n'']. reflexivity.
  - destruct (conn n c p =? 0); [reflexivity |].
    rewrite IH. destruct (attempts conn a (S n)) as [[ok calls] n'].
    destruct ok; [reflexivity |].
    destruct (attempts conn b n') as [[ok' calls'] n'']. reflexivity.
Qed.

(** The two nested loops of the discovery are one scan over the
    candidates. *)
Lemma try_clients_attempts (env : seq_env) (required_type : Z) (n : nat) :
  try_clients env required_type (clients env) n =
  attempts (connect env) (candidates env required_type) n.
Proof.
  unfold candidates. generalize (clients env) as cs. intros cs. revert n.
  induction cs as [| c cs IH]; intros n; [reflexivity |].
  cbn [try_clients flat_map].
  destruct (ci_client c =? own_client env); [apply IH |].
  unfold ports_of at 1. destruct (ci_port0 c) as [p0 |]; [| apply IH].
  rewrite attempts_app, try_ports_attempts.
  destruct (attempts _ _ n) as [[ok calls] n'].
  destruct ok; [reflexivity |]. rewrite IH. reflexivity.
Qed.

(** What a scan does: it tries a prefix of the candidates in order, it
    counts its calls, every answer but the last is a failure, and it stops
    with success on an answer 0 or with failure after the last candidate. *)
Lemma attempts_spec (conn : nat -> Z -> Z -> Z) (cands : list (Z * Z)) (n : nat) :
  let '(ok, calls, n') := attempts conn cands n in
  n' = (n + length calls)%nat /\
  (exists rest, cands = map target calls ++ rest /\ (ok = false -> rest = [])) /\
  (forall i c, nth_error calls i = Some c ->
     cc_ret c = conn (n + i)%nat (cc_client c) (cc_port c)) /\
  (ok = true -> exists init c, calls = init ++ [c] /\ cc_ret c = 0 /\
                               Forall (fun c => cc_ret c <> 0) init) /\
  (ok = false -> Forall (fun c => cc_ret c <> 0) calls).
Proof.
  revert n. induction cands as [| [c p] cands IH]; intros n; simpl.
  - rewrite Nat.add_0_r. repeat split; try constructor.
    + exists []. auto.
    + intros [| i] c' H; discriminate.
    + discriminate.
  - destruct (conn n c p =? 0) eqn:E.
    + apply Z.eqb_eq in E. simpl. repeat split; try discriminate.
      * lia.
      * exists cands. split; [reflexivity | discriminate].
      * intros [| [| i]] c' H; try discriminate. injection H as <-.
        simpl. rewrite Nat.add_0_r. reflexivity.
      * intros _. exists [], {| cc_client := c; cc_port := p; cc_ret := conn n c p |}.
        split; [reflexivity |]. split; [exact E | constructor].
    + apply Z.eqb_neq in E. specialize (IH (S n)).
      destruct (attempts conn cands (S n)) as [[ok calls] n'].
      destruct IH as (Hn & (rest & Hc & Hr) & Hret & Hok & Hfail).
      repeat split.
      * simpl. lia.
      * exists rest. split; [simpl; rewrite Hc; reflexivity | exact Hr].
      * intros [| i] c' H; simpl in H.
        -- injection H as <-. simpl. rewrite Nat.add_0_r. reflexivity.
        -- rewrite (Hret i c' H). f_equal. lia.
      * intros Ht. destruct (Hok Ht) as (init & c' & Hl & Hz & Hinit).
        exists ({| cc_client := c; cc_port := p; cc_ret := conn n c p |} :: init), c'.
        split; [rewrite Hl; reflexivity |]. split; [exact Hz |].
        constructor; [exact E | exact Hinit].
      * intros Hf. constructor; [exact E | exact (Hfail Hf)].
Qed.

Lemma candidates_offered (env : seq_env) (required_type : Z) (cp : Z * Z) :
  In cp (candidates env required_type) -> offered env required_type cp.
Proof.
  unfold candidates, offered. intros H.
  apply in_flat_map in H. destruct H as (c & Hc & H).
  destruct (ci_client c =? own_client env) eqn:E; [destruct H |].
  apply Z.eqb_neq in E.
  apply in_map_iff in H. destruct H as (pi & <- & Hpi).
  apply List.filter_In in Hpi. destruct Hpi as [Hin Hw].
  simpl. split; [exact E |]. exists c, pi. auto.
Qed.

Lemma calls_offered (env : seq_env) (required_type : Z)
      (calls : list connect_call) (rest : list (Z * Z)) :
  candidates env required_type = map target calls ++ rest ->
  Forall (fun c => offered env required_type (target c)) calls.
Proof.
  intros H. apply List.Forall_forall. intros c Hc.
  apply candidates_offered. rewrite H. apply in_or_app. left.
  apply in_map. exact Hc.
Qed.

(** A port is offered only by a client other than the own one whose port 0
    can be queried. *)
Lemma offered_queried (env : seq_env) (required_type : Z) (cp : Z * Z) :
  offered env required_type cp ->
  exists ci, In ci (clients env) /\ ci_client ci = fst cp /\
             ci_client ci <> own_client env /\ ci_port0 ci <> None.
Proof.
  intros (Hown & c & pi & Hc & Hid & Hpi & _).
  exists c. split; [exact Hc |]. split; [exact Hid |]. split; [congruence |].
  unfold ports_of in Hpi. destruct (ci_port0 c); [discriminate | destruct Hpi].
Qed.

Lemma calls_queried (env : seq_env) (required_type : Z) (calls : list connect_call) :
  Forall (fun c => offered env required_type (target c)) calls ->
  Forall (fun c => exists ci, In ci (clients env) /\ ci_client ci = cc_client c /\
                              ci_client ci <> own_client env /\ ci_port0 ci <> None) calls.
Proof.
  induction 1 as [| c l Hc Hl IH]; constructor; [| exact IH].
  apply (offered_queried env required_type (target c) Hc).
Qed.

(** One run of the discovery, in full. *)
Lemma subscribe_scan (env : seq_env) (required_type : Z) (n : nat)
        (r : Z) (calls : list connect_call) (n' : nat) :
  subscribe_to_first_available_port env required_type n = (r, calls, n') ->
  (any_client_ret env <> 0 -> r = -1 /\ calls = []) /\
  (any_client_ret env = 0 -> r = 0 \/ r = 1) /\
  (exists rest, candidates env required_type = map target calls ++ rest /\
                (r = 1 -> rest = [])) /\
  Forall (fun c => offered env required_type (target c)) calls /\
  (r = 0 -> exists init c, calls = init ++ [c] /\ cc_ret c = 0 /\
                           Forall (fun c => cc_ret c <> 0) init) /\
  (r <> 0 -> Forall (fun c => cc_ret c <> 0) calls) /\
  (forall i c, nth_error calls i = Some c ->
     cc_ret c = connect env (n + i)%nat (cc_client c) (cc_port c)) /\
  n' = (n + length calls)%nat.
Proof.
  unfold subscribe_to_first_available_port.
  destruct (any_client_ret env =? 0) eqn:E; simpl.
  - apply Z.eqb_eq in E. rewrite try_clients_attempts.
    pose proof (attempts_spec (connect env) (candidates env required_type) n) as H.
    destruct (attempts _ _ n) as [[ok cs] m].
    destruct H as (Hn & (rest & Hc & Hr) & Hret & Hok & Hfail).
    intros Heq. injection Heq as <- <- <-.
    split; [intros Hne; contradiction |].
    split; [intros _; destruct ok; auto |].
    split; [exists rest; split; [exact Hc |]; destruct ok; [discriminate | auto] |].
    split; [apply (calls_offered env required_type cs rest Hc) |].
    split; [destruct ok; [auto | discriminate] |].
    split; [destruct ok; [intros Hne; contradiction | auto] |].
    split; assumption.
  - apply Z.eqb_neq in E. intros Heq. injection Heq as <- <- <-.
    split; [auto |]. split; [intros H0; contradiction |].
    split; [exists (candidates env required_type); split; [reflexivity | discriminate] |].
    split; [constructor |]. split; [discriminate |].
    split; [constructor |]. split; [intros [| i] c H; discriminate | simpl; lia].
Qed.

(** X4. [subscribe_to_first_available_port] answers -1 without a call when
    the first client query fails.  Otherwise its candidates are the ports
    that pass its test on type and capabilities, of the clients other than
    itself whose port 0 can be queried; a client whose port 0 cannot be
    queried is passed over with all its ports (line 251).  It calls
    [snd_seq_connect_to] for the candidates in the order of the enumeration
    until a call answers 0: it answers 0 after a successful call, which is
    its last, and 1 after every candidate has been tried in vain. *)
Theorem subscribe_first_available (env : seq_env) (required_type : Z) (n : nat)
        (r : Z) (calls : list connect_call) (n' : nat) :
  subscribe_to_first_available_port env required_type n = (r, calls, n') ->
  (any_client_ret env <> 0 -> r = -1 /\ calls = []) /\
  (any_client_ret env = 0 -> r = 0 \/ r = 1) /\
  (exists rest, candidates env required_type = map target calls ++ rest /\
                (r = 1 -> rest = [])) /\
  Forall (fun c => offered env required_type (target c)) calls /\
  (r = 0 -> exists init c, calls = init ++ [c] /\ cc_ret c = 0 /\
                           Forall (fun c => cc_ret c <> 0) init) /\
  (r <> 0 -> Forall (fun c => cc_ret c <> 0) calls) /\
  (forall i c, nth_error calls i = Some c ->
     cc_ret c = connect env (n + i)%nat (cc_client c) (cc_port c)) /\
  n' = (n + length calls)%nat /\
  Forall (fun c => exists ci, In ci (clients env) /\ ci_client ci = cc_client c /\
                              ci_client ci <> own_client env /\ ci_port0 ci <> None) calls.
Proof.
  intros H.
  destruct (subscribe_scan env required_type n r calls n' H)
    as (H1 & H2 & H3 & H4 & H5 & H6 & H7 & H8).
  split; [exact H1 |]. split; [exact H2 |]. split; [exact H3 |]. split; [exact H4 |].
  split; [exact H5 |]. split; [exact H6 |]. split; [exact H7 |]. split; [exact H8 |].
  apply (calls_queried env required_type calls H4).
Qed.

Lemma land_lor_left (t a b : Z) :
  Z.land t (Z.lor a b) = Z.lor a b -> Z.land t a = a.
Proof.
  intros H. apply Z.bits_inj'. intros n Hn.
  assert (Hb : Z.testbit (Z.land t (Z.lor a b)) n = Z.testbit (Z.lor a b) n) by (rewrite H; reflexivity).
  rewrite Z.land_spec, Z.lor_spec in Hb. rewrite Z.land_spec.
  destruct (Z.testbit t n), (Z.testbit a n), (Z.testbit b n); simpl in *; congruence.
Qed.

Lemma wanted_generic (pi : port_info) :
  wanted (Z.lor SND_SEQ_PORT_TYPE_MIDI_GENERIC SND_SEQ_PORT_TYPE_SYNTHESIZER) pi = true ->
  wanted SND_SEQ_PORT_TYPE_MIDI_GENERIC pi = true.
Proof.
  unfold wanted. intros H.
  apply andb_prop in H. destruct H as [H H4].
  apply andb_prop in H. destruct H as [H H3].
  apply andb_prop in H. destruct H as [H1 H2].
  apply Z.eqb_eq in H1. apply land_lor_left in H1.
  rewrite H1, Z.eqb_refl, H2, H3, H4. reflexivity.
Qed.

Lemma offered_generic (env : seq_env) (cp : Z * Z) :
  offered env (Z.lor SND_SEQ_PORT_TYPE_MIDI_GENERIC SND_SEQ_PORT_TYPE_SYNTHESIZER) cp ->
  offered env SND_SEQ_PORT_TYPE_MIDI_GENERIC cp.
Proof.
  intros (Hown & c & pi & H1 & H2 & H3 & H4 & H5).
  split; [exact Hown |]. exists c, pi. repeat split; try assumption.
  apply wanted_generic, H5.
Qed.

Lemma Forall_removelast (A : Type) (P : A -> Prop) (l : list A) :
  Forall P l -> Forall P (removelast l).
Proof.
  induction 1 as [| x l Hx Hl IH]; [constructor |].
  destruct l as [| y l]; [constructor |].
  change (removelast (x :: y :: l)) with (x :: removelast (y :: l)).
  constructor; assumption.
Qed.

(** The calls of one run of [subscribe_to_first_available_port]: all but
    the last one failed. *)
Lemma subscribe_removelast (env : seq_env) (required_type : Z) (n : nat)
      (r : Z) (calls : list connect_call) (n' : nat) :
  subscribe_to_first_available_port env required_type n = (r, calls, n') ->
  Forall (fun c => cc_ret c <> 0) (removelast calls).
Proof.
  intros H. destruct (subscribe_scan _ _ _ _ _ _ H)
    as (_ & _ & _ & _ & Hok & Hfail & _).
  destruct (Z.eq_dec r 0) as [Hr | Hr].
  - destruct (Hok Hr) as (init & c & -> & _ & Hinit).
    rewrite removelast_last. exact Hinit.
  - apply Forall_removelast, Hfail, Hr.
Qed.

(** The enumeration of lines 293 to 300: the first run looks for
    synthesizers, and the second run is made only after the first one has
    tried every synthesizer in vain. *)
Lemma enumerate_spec (q : seq_env) (n : nat) :
  exists calls1 calls2,
    enumerate q n = calls1 ++ calls2 /\
    Forall (fun c => offered q (Z.lor SND_SEQ_PORT_TYPE_MIDI_GENERIC
                                      SND_SEQ_PORT_TYPE_SYNTHESIZER) (target c)) calls1 /\
    Forall (fun c => offered q SND_SEQ_PORT_TYPE_MIDI_GENERIC (target c)) calls2 /\
    Forall (fun c => cc_ret c <> 0) (removelast (calls1 ++ calls2)) /\
    (calls2 <> [] ->
       Forall (fun c => cc_ret c <> 0) calls1 /\
       map target calls1 = candidates q (Z.lor SND_SEQ_PORT_TYPE_MIDI_GENERIC
                                               SND_SEQ_PORT_TYPE_SYNTHESIZER)).
Proof.
  unfold enumerate.
  destruct (subscribe_to_first_available_port q _ n) as [[r1 calls1] n1] eqn:E1.
  destruct (subscribe_scan _ _ _ _ _ _ E1)
    as (Hfail1 & _ & (rest & Hc & Hrest) & Hoff1 & _ & Hnz1 & _).
  destruct (r1 =? 0) eqn:Er.
  - exists calls1, []. rewrite app_nil_r.
    split; [reflexivity |]. split; [exact Hoff1 |]. split; [constructor |].
    split; [apply (subscribe_removelast _ _ _ _ _ _ E1) |].
    intros Hne. contradiction.
  - apply Z.eqb_neq in Er.
    destruct (subscribe_to_first_available_port q _ n1) as [[r2 calls2] n2] eqn:E2.
    destruct (subscribe_scan _ _ _ _ _ _ E2) as (_ & _ & _ & Hoff2 & _).
    exists calls1, calls2.
    split; [reflexivity |]. split; [exact Hoff1 |]. split; [exact Hoff2 |].
    split; [| intros Hne; split].
    + destruct calls2 as [| c2 calls2'].
      * rewrite app_nil_r. apply Forall_removelast, Hnz1, Er.
      * rewrite removelast_app by discriminate. apply Forall_app. split.
        -- apply Hnz1, Er.
        -- apply (subscribe_removelast _ _ _ _ _ _ E2).
    + apply Hnz1, Er.
    + destruct (Z.eq_dec (any_client_ret q) 0) as [Ha | Ha].
      * destruct (subscribe_scan _ _ _ _ _ _ E1) as (_ & H01 & _).
        destruct (H01 Ha) as [H0 | H1]; [contradiction |].
        rewrite Hc, (Hrest H1), app_nil_r. reflexivity.
      * destruct (subscribe_scan _ _ _ _ _ _ E2) as (Hf2 & _).
        destruct (Hf2 Ha) as [_ ->]. contradiction.
Qed.

Lemma enumerated_generic (q : seq_env) (calls1 calls2 : list connect_call) :
  Forall (fun c => offered q (Z.lor SND_SEQ_PORT_TYPE_MIDI_GENERIC
                                    SND_SEQ_PORT_TYPE_SYNTHESIZER) (target c)) calls1 ->
  Forall (fun c => offered q SND_SEQ_PORT_TYPE_MIDI_GENERIC (target c)) calls2 ->
  Forall (fun c => offered q SND_SEQ_PORT_TYPE_MIDI_GENERIC (target c)) (calls1 ++ calls2).
Proof.
  intros H1 H2. apply Forall_app. split; [| exact H2].
  induction H1 as [| c l Hc Hl IH]; constructor; [apply offered_generic, Hc | exact IH].
Qed.

(** X5. [pick_seq_dest_addr] makes no connection attempt when
    SDL_NATIVE_MUSIC_NO_CONNECT_PORTS is set.  Otherwise its attempts are,
    in this order: the address of ALSA_OUTPUT_PORTS if there is one, ports
    offered as synthesizers, and ports offered as generic MIDI ports, where a
    port is offered only by a client other than itself whose port 0 can be
    queried (the ports of any other client are never tried).  A generic port
    is tried only after every synthesizer so offered has been tried, and no
    attempt follows one that succeeded.  Every port the enumeration tries is
    a generic MIDI port that passes the capability test. *)
Theorem pick_dest_attempts (env : pick_env) :
  (no_connect env = true -> pick_seq_dest_addr env = []) /\
  Forall (fun c => cc_ret c <> 0) (removelast (pick_seq_dest_addr env)) /\
  exists direct calls1 calls2,
    pick_seq_dest_addr env = direct ++ calls1 ++ calls2 /\
    (no_connect env = false ->
       direct = match output_ports env with
                | Some a => [{| cc_client := client a; cc_port := port a;
                                cc_ret := connect (sequencer env) 0%nat (client a) (port a) |}]
                | None => []
                end) /\
    Forall (fun c => offered (sequencer env)
                             (Z.lor SND_SEQ_PORT_TYPE_MIDI_GENERIC
                                    SND_SEQ_PORT_TYPE_SYNTHESIZER) (target c)) calls1 /\
    Forall (fun c => offered (sequencer env) SND_SEQ_PORT_TYPE_MIDI_GENERIC (target c)) calls2 /\
    (calls2 <> [] ->
       map target calls1 = candidates (sequencer env)
                                      (Z.lor SND_SEQ_PORT_TYPE_MIDI_GENERIC
                                             SND_SEQ_PORT_TYPE_SYNTHESIZER)) /\
    Forall (fun c => offered (sequencer env) SND_SEQ_PORT_TYPE_MIDI_GENERIC (target c))
           (calls1 ++ calls2) /\
    Forall (fun c => exists ci, In ci (clients (sequencer env)) /\
                                ci_client ci = cc_client c /\
                                ci_client ci <> own_client (sequencer env) /\
                                ci_port0 ci <> None)
           (calls1 ++ calls2).
Proof.
  unfold pick_seq_dest_addr.
  destruct (no_connect env) eqn:Enc.
  - split; [reflexivity |]. split; [constructor |].
    exists [], [], []. split; [reflexivity |]. split; [discriminate |].
    split; [constructor |]. split; [constructor |]. split; [intros H; contradiction | split; constructor].
  - split; [discriminate |].
    destruct (output_ports env) as [a |] eqn:Eo.
    + cbv zeta. destruct (connect (sequencer env) 0%nat (client a) (port a) =? 0) eqn:Er.
      * split; [constructor |].
        exists [{| cc_client := client a; cc_port := port a;
                   cc_ret := connect (sequencer env) 0%nat (client a) (port a) |}], [], [].
        split; [reflexivity |]. split; [reflexivity |].
        split; [constructor |]. split; [constructor |]. split; [intros H; contradiction | split; constructor].
      * apply Z.eqb_neq in Er.
        destruct (enumerate_spec (sequencer env) 1%nat)
          as (calls1 & calls2 & -> & H1 & H2 & H3 & H4).
        split.
        -- destruct (calls1 ++ calls2) as [| c l] eqn:El; [constructor |].
           change (removelast (?x :: c :: l)) with (x :: removelast (c :: l)).
           constructor; [exact Er | exact H3].
        -- exists [{| cc_client := client a; cc_port := port a;
                      cc_ret := connect (sequencer env) 0%nat (client a) (port a) |}],
                  calls1, calls2.
           split; [reflexivity |]. split; [reflexivity |].
           split; [exact H1 |]. split; [exact H2 |]. split; [intros H; apply H4, H | split; [apply enumerated_generic; assumption |];
              apply (calls_queried _ SND_SEQ_PORT_TYPE_MIDI_GENERIC);
              apply enumerated_generic; assumption].
    + destruct (enumerate_spec (sequencer env) 0%nat)
        as (calls1 & calls2 & -> & H1 & H2 & H3 & H4).
      split; [exact H3 |].
      exists [], calls1, calls2.
      split; [reflexivity |]. split; [reflexivity |].
      split; [exact H1 |]. split; [exact H2 |]. split; [intros H; apply H4, H | split; [apply enumerated_generic; assumption |];
              apply (calls_queried _ SND_SEQ_PORT_TYPE_MIDI_GENERIC);
              apply enumerated_generic; assumption].
Qed.

(** ** Opening, loading and freeing *)

Lemma held_after_app (a b : list res_action) (held : list resource) :
  held_after (a ++ b) held =
  match held_after a held with
  | Some held' => held_after b held'
  | None => None
  end.
Proof.
  revert held. induction a as [| x a IH]; intros held; simpl; [reflexivity |].
  destruct (releases x) as [r |]; [| apply IH].
  destruct (give_up_one r held); [apply IH | reflexivity].
Qed.

Ltac held_tac := repeat progress (simpl; rewrite ?Z.eqb_refl); try reflexivity.

Lemma resource_eqb_refl (r : resource) : resource_eqb r r = true.
Proof.
  destruct r; simpl; try reflexivity; apply Z.eqb_refl.
Qed.

Lemma give_up_one_skip (r : resource) (held l : list resource) :
  Forall (fun x => resource_eqb x r = false) held ->
  give_up_one r (held ++ r :: l) = Some (held ++ l).
Proof.
  induction 1 as [| x held Hx Hh IH]; simpl.
  - rewrite resource_eqb_refl. reflexivity.
  - rewrite Hx, IH. reflexivity.
Qed.

(** What [open_seq] leaves held on top of [held], when no handle and no
    name is held already. *)
Lemma open_seq_held (env : open_env) (e : errors) (held : list resource)
      (r : opened) (tr : list res_action) (e' : errors) :
  open_seq env e = (r, tr, e') ->
  Forall (fun x => resource_eqb x RSeq = false) held ->
  Forall (fun x => resource_eqb x RName = false) held ->
  match r with
  | Opened c p => held_after tr held = Some (held ++ [RSeq; RPort p])
  | OpenFailed => held_after tr held = Some held
  | OpenCrashed => True
  end.
Proof.
  intros H Hs Hn.
  assert (Hn' : Forall (fun x => resource_eqb x RName = false) (held ++ [RSeq])).
  { apply Forall_app. split; [exact Hn | repeat constructor]. }
  unfold open_seq in H.
  destruct (seq_open_ret env <? 0) eqn:E1.
  - injection H as <- <- <-. simpl. rewrite E1, app_nil_r. reflexivity.
  - destruct (get_app_name (naming env)) as [s | |] eqn:En.
    + destruct (port_ret env <? 0) eqn:E2; injection H as <- <- <-.
      * simpl. rewrite E1, E2. simpl. rewrite !app_nil_r, <- app_assoc.
        change ([RSeq] ++ [RName]) with (RSeq :: [RName]).
        rewrite (give_up_one_skip RSeq held [RName] Hs).
        rewrite (give_up_one_skip RName held [] Hn), app_nil_r. reflexivity.
      * simpl. rewrite E1, E2. simpl. rewrite app_nil_r.
        replace (((held ++ [RSeq]) ++ [RName]) ++ [RPort (port_ret env)])
          with ((held ++ [RSeq]) ++ RName :: [RPort (port_ret env)])
          by (rewrite <- !app_assoc; reflexivity).
        rewrite (give_up_one_skip RName _ [RPort (port_ret env)] Hn').
        rewrite <- app_assoc. reflexivity.
    + injection H as <- <- <-. simpl. rewrite E1. simpl. rewrite app_nil_r.
      rewrite (give_up_one_skip RSeq held [] Hs), app_nil_r. reflexivity.
    + injection H as <- <- <-. exact I.
Qed.

(** The outcomes of [open_seq]. *)
Lemma open_seq_cases (env : open_env) (e : errors)
        (r : opened) (tr : list res_action) (e' : errors) :
  open_seq env e = (r, tr, e') ->
  match r with
  | Opened c p =>
      0 <= seq_open_ret env /\ (exists s, get_app_name (naming env) = Name s) /\
      c = seq_client env /\ p = port_ret env /\ 0 <= p /\
      held_after tr [] = Some [RSeq; RPort p] /\ e' = e
  | OpenFailed =>
      (seq_open_ret env < 0 \/ get_app_name (naming env) = NameOom \/ port_ret env < 0) /\
      held_after tr [] = Some []
  | OpenCrashed =>
      0 <= seq_open_ret env /\ get_app_name (naming env) = NameFault
  end.
Proof.
  intros H.
  pose proof (open_seq_held env e [] r tr e' H ltac:(constructor) ltac:(constructor)) as Hheld.
  unfold open_seq in H.
  destruct (seq_open_ret env <? 0) eqn:E1.
  - apply Z.ltb_lt in E1. injection H as <- <- <-. split; [auto | exact Hheld].
  - apply Z.ltb_ge in E1.
    destruct (get_app_name (naming env)) as [s | |] eqn:En.
    + destruct (port_ret env <? 0) eqn:E2; injection H as <- <- <-.
      * apply Z.ltb_lt in E2. split; [auto | exact Hheld].
      * apply Z.ltb_ge in E2.
        split; [exact E1 |]. split; [exists s; reflexivity |].
        split; [reflexivity |]. split; [reflexivity |]. split; [exact E2 |].
        split; [exact Hheld | reflexivity].
    + injection H as <- <- <-. split; [auto | exact Hheld].
    + injection H as <- <- <-. split; [exact E1 | reflexivity].
Qed.

(** X6. [open_seq] answers a handle exactly when [snd_seq_open] answered
    no negative number, [get_app_name] a name and
    [snd_seq_create_simple_port] no negative number; the handle and the port
    are then all it leaves behind, and the error text is not touched.  When
    it answers [NULL] it leaves nothing behind: the handle is closed and the
    name is freed. *)
Theorem open_seq_outcome (env : open_env) (e : errors)
        (r : opened) (tr : list res_action) (e' : errors) :
  open_seq env e = (r, tr, e') ->
  match r with
  | Opened c p =>
      0 <= seq_open_ret env /\ (exists s, get_app_name (naming env) = Name s) /\
      c = seq_client env /\ p = port_ret env /\ 0 <= p /\
      held_after tr [] = Some [RSeq; RPort p] /\ e' = e
  | OpenFailed =>
      (seq_open_ret env < 0 \/ get_app_name (naming env) = NameOom \/ port_ret env < 0) /\
      held_after tr [] = Some []
  | OpenCrashed =>
      0 <= seq_open_ret env /\ get_app_name (naming env) = NameFault
  end.
Proof.
  apply open_seq_cases.
Qed.

(** X7. [native_midi_detect] answers 1 exactly when [open_seq] can open a
    handle with a port, and 0 otherwise; in both cases it leaves nothing
    open behind, and an answer 1 leaves the error text as it was. *)
Theorem detect_probe (env : open_env) (e : errors)
        (r : Z) (tr : list res_action) (e' : errors) :
  native_midi_detect env e = (Some r, tr, e') ->
  (r = 0 \/ r = 1) /\
  (r = 1 <-> 0 <= seq_open_ret env /\ 0 <= port_ret env /\
             exists s, get_app_name (naming env) = Name s) /\
  held_after tr [] = Some [] /\
  (r = 1 -> e' = e).
Proof.
  unfold native_midi_detect.
  destruct (open_seq env e) as [[o tr0] e0] eqn:Ho.
  pose proof (open_seq_cases env e o tr0 e0 Ho) as H.
  destruct o as [c p | |]; intros Heq; [| | discriminate].
  - injection Heq as <- <- <-.
    destruct H as (H1 & H2 & _ & Hp & H3 & Hh & He).
    split; [auto |]. split; [split; [intros _; subst p; auto | reflexivity] |].
    split; [| intros _; exact He].
    rewrite held_after_app, Hh. held_tac.
  - injection Heq as <- <- <-. destruct H as (Hf & Hh).
    split; [auto |]. split; [| split; [exact Hh | discriminate]].
    split; [discriminate |]. intros (H1 & H2 & s & Hs).
    destruct Hf as [Hf | [Hf | Hf]]; [lia | congruence | lia].
Qed.

Lemma load_cases (env : full_env) (e : errors) :
  load env e =
  if negb (song_calloc_ok env) then
    (LoadFailed, [CallocSong false], MIDI_Mix_OutOfMemory e)
  else if socketpair_ret env =? -1 then
    (LoadFailed, [CallocSong true; Socketpair false (fst (sv env)) (snd (sv env)); FreeSong],
     MIDI_SET_ERROR (MsgSocketpair (errno env)) e)
  else
    match events env with
    | [] =>
      (LoadFailed,
       [CallocSong true; Socketpair true (fst (sv env)) (snd (sv env));
        CreateMIDIEventList false;
        ShutdownSock (fst (sv env)); ShutdownSock (snd (sv env));
        CloseSock (fst (sv env)); CloseSock (snd (sv env)); FreeSong],
       MIDI_SET_ERROR MsgEventList e)
    | ev :: next =>
      let t1 := [CallocSong true; Socketpair true (fst (sv env)) (snd (sv env));
                 CreateMIDIEventList true] in
      let socks := [ShutdownSock (fst (sv env)); ShutdownSock (snd (sv env));
                    CloseSock (fst (sv env)); CloseSock (snd (sv env))] in
      match open_seq (opening env) e with
      | (OpenCrashed, tr, e') => (LoadCrashed, t1 ++ tr, e')
      | (OpenFailed, tr, e') =>
        (LoadFailed, t1 ++ tr ++ FreeMIDIEventList :: socks ++ [FreeSong], e')
      | (Opened cl sp, tr, e') =>
        (Loaded {| playerthread := None;
                   mainsock := fst (sv env); threadsock := snd (sv env);
                   ppqn := events_ppqn env; evtlist := ev :: next;
                   seq := cl; srcport := sp; dstaddr := subscribers;
                   loopcount := 0; endtime := last_time ev next;
                   playerstate := NATIVE_MIDI_STOPPED;
                   allow_pause := pause_hint env |},
         t1 ++ tr ++ SetEventFilter
            :: map ConnectTo (pick_seq_dest_addr (as_client cl (picking env)))
            ++ (if freesrc env =? 0 then [] else [RWclose]),
         e')
      end
    end.
Proof.
  unfold load.
  destruct (negb (song_calloc_ok env)); [reflexivity |].
  destruct (socketpair_ret env =? -1); [reflexivity |].
  destruct (events env) as [| ev next]; [reflexivity |].
  destruct (open_seq (opening env) e) as [[[c p | |] tr] e0]; reflexivity.
Qed.

Lemma give_up_sock (a b : Z) (l : list resource) :
  give_up_one (RSock a) (RSong :: RSock a :: RSock b :: l) = Some (RSong :: RSock b :: l) /\
  give_up_one (RSock b) (RSong :: RSock b :: l) = Some (RSong :: l).
Proof.
  split; held_tac.
Qed.

Lemma connects_hold (calls : list connect_call) (tail : list res_action)
      (held : list resource) :
  held_after (map ConnectTo calls ++ tail) held = held_after tail held.
Proof.
  induction calls as [| c calls IH]; simpl; [reflexivity |].
  rewrite app_nil_r. exact IH.
Qed.

(** X8. A load that fails gives back everything it had taken: the song
    structure, both sockets, the event list and the sequencer handle.  It
    has made no connection attempt and has not closed the source, whatever
    [freesrc] says. *)
Theorem load_failure_releases (env : full_env) (e : errors)
        (tr : list res_action) (e' : errors) :
  load env e = (LoadFailed, tr, e') ->
  held_after tr [] = Some [] /\
  ~ In RWclose tr /\
  (forall c, ~ In (ConnectTo c) tr) /\
  ~ In SetEventFilter tr.
Proof.
  rewrite load_cases.
  destruct (negb (song_calloc_ok env)).
  { intros H. injection H as <- <-. split; [reflexivity |].
    split; [| split; [intros c |]]; intros [Hin | []]; discriminate. }
  destruct (socketpair_ret env =? -1).
  { intros H. injection H as <- <-. split; [reflexivity |].
    split; [| split; [intros c |]]; simpl; intuition discriminate. }
  destruct (events env) as [| ev next].
  { intros H. injection H as <- <-.
    split; [held_tac |].
    split; [| split; [intros c |]]; simpl; intuition discriminate. }
  destruct (open_seq (opening env) e) as [[o tr0] e0] eqn:Ho.
  destruct o as [c p | |]; cbv zeta; intros H; try discriminate.
  injection H as <- <-.
  set (held := [RSong; RSock (fst (sv env)); RSock (snd (sv env)); REvents]).
  pose proof (open_seq_held (opening env) e held OpenFailed tr0 e0 Ho
                ltac:(repeat constructor) ltac:(repeat constructor)) as Hh.
  simpl in Hh.
  assert (Hno : forall a, In a tr0 ->
                  a <> RWclose /\ a <> SetEventFilter /\ forall c, a <> ConnectTo c).
  { unfold open_seq in Ho.
    destruct (seq_open_ret (opening env) <? 0);
      [| destruct (get_app_name (naming (opening env)));
         [destruct (port_ret (opening env) <? 0) | |]];
      try discriminate; injection Ho as <- <-; simpl; intros a Ha;
      repeat (destruct Ha as [<- | Ha]; [repeat split; try intros c0; discriminate |]);
      destruct Ha. }
  split.
  - simpl. rewrite held_after_app. fold held. rewrite Hh.
    unfold held. held_tac.
  - assert (Hin : forall a, In a ([CallocSong true;
                     Socketpair true (fst (sv env)) (snd (sv env)); CreateMIDIEventList true]
                     ++ tr0 ++ FreeMIDIEventList ::
                        [ShutdownSock (fst (sv env)); ShutdownSock (snd (sv env));
                         CloseSock (fst (sv env)); CloseSock (snd (sv env))] ++ [FreeSong]) ->
                     a <> RWclose /\ a <> SetEventFilter /\ forall c, a <> ConnectTo c).
    { intros a Ha. apply in_app_or in Ha. destruct Ha as [Ha | Ha].
      - simpl in Ha.
        repeat (destruct Ha as [<- | Ha]; [repeat split; try intros c0; discriminate |]).
        destruct Ha.
      - apply in_app_or in Ha. destruct Ha as [Ha | Ha]; [apply Hno, Ha |].
        simpl in Ha.
        repeat (destruct Ha as [<- | Ha]; [repeat split; try intros c0; discriminate |]).
        destruct Ha. }
    split; [intros Ha; destruct (Hin _ Ha) as (Hc & _); apply Hc; reflexivity |].
    split; [intros c Ha; destruct (Hin _ Ha) as (_ & _ & Hc); apply (Hc c); reflexivity |].
    intros Ha. destruct (Hin _ Ha) as (_ & Hc & _). apply Hc. reflexivity.
Qed.

(** X9. A load that succeeds returns the song of the loading model, with
    the destination address "all subscribers", no thread and state STOPPED.
    It holds the song structure, both sockets, the event list, the handle
    and the port; [native_midi_freesong] gives all of them back.  The source
    is closed exactly when [freesrc] is not 0, and the error text is left as
    it was. *)
Theorem load_then_free (env : full_env) (e : errors)
        (s : NativeMidiSong) (tr : list res_action) (e' : errors) :
  load env e = (Loaded s, tr, e') ->
  loadsong (load_env_of env e) = Some s /\
  dstaddr s = subscribers /\ playerthread s = None /\
  playerstate s = NATIVE_MIDI_STOPPED /\ evtlist s <> [] /\
  held_after tr [] =
    Some [RSong; RSock (mainsock s); RSock (threadsock s); REvents; RSeq; RPort (srcport s)] /\
  held_after (tr ++ native_midi_freesong (Some s)) [] = Some [] /\
  (In RWclose tr <-> freesrc env <> 0) /\
  e' = e.
Proof.
  rewrite load_cases.
  destruct (negb (song_calloc_ok env)); [discriminate |].
  destruct (socketpair_ret env =? -1) eqn:Esp; [discriminate |].
  destruct (events env) as [| ev next] eqn:Eev; [discriminate |].
  destruct (open_seq (opening env) e) as [[o tr0] e0] eqn:Ho.
  destruct o as [c p | |]; cbv zeta; intros H; try discriminate.
  injection H as <- <- <-.
  set (held := [RSong; RSock (fst (sv env)); RSock (snd (sv env)); REvents]).
  pose proof (open_seq_held (opening env) e held (Opened c p) tr0 e0 Ho
                ltac:(repeat constructor) ltac:(repeat constructor)) as Hh.
  simpl in Hh.
  destruct (open_seq_cases (opening env) e _ _ _ Ho) as (_ & _ & _ & _ & _ & _ & He).
  assert (Hheld : held_after
            ([CallocSong true; Socketpair true (fst (sv env)) (snd (sv env));
              CreateMIDIEventList true] ++ tr0 ++ SetEventFilter
              :: map ConnectTo (pick_seq_dest_addr (as_client c (picking env)))
              ++ (if freesrc env =? 0 then [] else [RWclose])) [] =
            Some [RSong; RSock (fst (sv env)); RSock (snd (sv env)); REvents;
                  RSeq; RPort p]).
  { simpl. rewrite held_after_app. fold held. rewrite Hh.
    simpl. rewrite ?app_nil_r, connects_hold.
    destruct (freesrc env =? 0); simpl; rewrite ?app_nil_r; reflexivity. }
  split.
  { unfold loadsong, load_env_of. cbn [le_sockets le_events le_seq le_ppqn le_dstaddr
                                      le_allow_pause].
    rewrite Esp, Eev, Ho. destruct (sv env) as [a b]. reflexivity. }
  split; [reflexivity |]. split; [reflexivity |]. split; [reflexivity |].
  split; [discriminate |].
  split; [exact Hheld |].
  split.
  { rewrite held_after_app.
    match goal with
    | |- context [held_after ?x []] =>
        replace (held_after x []) with
          (Some [RSong; RSock (fst (sv env)); RSock (snd (sv env)); REvents; RSeq; RPort p])
          by (symmetry; exact Hheld)
    end.
    held_tac. }
  split; [| exact He].
  assert (Hno : ~ In RWclose tr0).
  { unfold open_seq in Ho.
    destruct (seq_open_ret (opening env) <? 0);
      [| destruct (get_app_name (naming (opening env)));
         [destruct (port_ret (opening env) <? 0) | |]];
      try discriminate; injection Ho as _ _ <- _; simpl; intuition discriminate. }
  split.
  - intros Hin. destruct (freesrc env =? 0) eqn:Ef; [| apply Z.eqb_neq, Ef].
    exfalso. repeat (destruct Hin as [Hin | Hin]; [discriminate |]).
    apply in_app_or in Hin. destruct Hin as [Hin | Hin]; [exact (Hno Hin) |].
    destruct Hin as [Hin | Hin]; [discriminate |].
    rewrite app_nil_r in Hin. apply in_map_iff in Hin.
    destruct Hin as (x & Hx & _). discriminate.
  - intros Hf. apply Z.eqb_neq in Hf. rewrite Hf.
    do 3 right. apply in_or_app. right. right.
    apply in_or_app. right. left. reflexivity.
Qed.

(** X10. Once an allocation has failed, [native_midi_error] answers "Out of
    memory" for good, whatever fails later.  Before that a failed load
    always leaves a text, and a load that succeeds leaves the text alone. *)
Theorem error_text_after_load (env : full_env) (e : errors)
        (r : loaded) (tr : list res_action) (e' : errors) :
  load env e = (r, tr, e') ->
  (final_is_oom e = true -> native_midi_error e' = MsgOom) /\
  (r = LoadFailed -> native_midi_error e' <> MsgEmpty) /\
  (final_is_oom e = false -> final_is_oom e' = true ->
     song_calloc_ok env = false \/ get_app_name (naming (opening env)) = NameOom) /\
  (forall s, r = Loaded s -> e' = e).
Proof.
  rewrite load_cases. unfold native_midi_error.
  destruct (song_calloc_ok env) eqn:Ec; simpl negb; cbv iota.
  2: { intros H. injection H as <- <- <-. simpl.
       split; [auto |]. split; [discriminate |]. split; [auto | discriminate]. }
  destruct (socketpair_ret env =? -1).
  { intros H. injection H as <- <- <-. simpl.
    split; [intros ->; reflexivity |].
    split; [destruct (final_is_oom e); discriminate |].
    split; [congruence | discriminate]. }
  destruct (events env) as [| ev next].
  { intros H. injection H as <- <- <-. simpl.
    split; [intros ->; reflexivity |].
    split; [destruct (final_is_oom e); discriminate |].
    split; [congruence | discriminate]. }
  destruct (open_seq (opening env) e) as [[o tr0] e0] eqn:Ho.
  assert (Hopen : (final_is_oom e = true -> final_is_oom e0 = true) /\
                  (o = OpenFailed -> (if final_is_oom e0 then MsgOom else errmsg e0) <> MsgEmpty) /\
                  (final_is_oom e = false -> final_is_oom e0 = true ->
                   get_app_name (naming (opening env)) = NameOom) /\
                  (forall c p, o = Opened c p -> e0 = e)).
  { unfold open_seq in Ho.
    destruct (seq_open_ret (opening env) <? 0);
      [| destruct (get_app_name (naming (opening env)));
         [destruct (port_ret (opening env) <? 0) | |]];
      injection Ho as <- <- <-; simpl;
      (split; [auto |]; split; [try discriminate; intros _; destruct (final_is_oom e); discriminate |];
       split; [try congruence; auto | try discriminate; auto]). }
  destruct Hopen as (H1 & H2 & H3 & H4).
  destruct o as [c p | |]; cbv zeta; intros H; injection H as <- <- <-.
  - split; [intros H; rewrite (H1 H); reflexivity |]. split; [discriminate |].
    split; [auto |]. intros s _. apply (H4 c p eq_refl).
  - split; [intros H; rewrite (H1 H); reflexivity |]. split; [intros _; apply H2; reflexivity |].
    split; [auto | discriminate].
  - split; [intros H; rewrite (H1 H); reflexivity |]. split; [discriminate |].
    split; [auto | discriminate].
Qed.

(** ** The loop body, for every event *)

(** Translating again the event that a translation left in the main event
    gives the same event. *)
Lemma translate_again (q : Z) (e : MIDIEvent) (ev : snd_seq_event) (c p : Z) :
  let ev1 := fst (translate q e (snd_seq_ev_schedule_tick q (time e)
                                   (snd_seq_ev_set_dest c p ev))) in
  handled e = true ->
  fst (translate q e (snd_seq_ev_schedule_tick q (time e) (snd_seq_ev_set_dest c p ev1)))
  = ev1.
Proof.
  intros ev1 Hh. subst ev1.
  pose proof (translate_handled q e
                (snd_seq_ev_schedule_tick q (time e) (snd_seq_ev_set_dest c p ev))) as Hu.
  rewrite Hh in Hu. revert Hu. unfold translate.
  repeat match goal with
         | |- context [if ?a =? ?b then _ else _] => destruct (a =? b); [reflexivity |]
         end.
  destruct (_ && _); [reflexivity | discriminate].
Qed.

(** X11. With room in the output buffer, the event under the cursor is
    handed to the sequencer exactly when it is a note off, note on, key
    pressure, controller, program change or pitch bend message, or a tempo
    meta event with three bytes.  Every other event, among them channel
    pressure and system exclusive messages, is logged as unhandled and
    skipped without a call to the sequencer. *)
Theorem send_classification (p : player) (w : wake_input)
        (e : MIDIEvent) (next : list MIDIEvent) :
  event p = e :: next ->
  alsa_out w = true ->
  let p' := fst (send p w) in
  (handled e = false ->
     trace p' = trace p ++ [DbgLog true e] /\ event p' = next) /\
  (handled e = true ->
     exists ev, trace p' = trace p ++ Output ev (output_ret w)
                             :: (if output_ret w =? - EAGAIN then [] else [DbgLog false e]) /\
                evt p' = ev /\
                event p' = (if output_ret w =? - EAGAIN then e :: next else next)) /\
  (Z.land (status e) 0xF0 = 0xD0 \/ Z.land (status e) 0xF0 = 0xF0 /\ status e <> 0xFF ->
     handled e = false).
Proof.
  intros Ev Ho p'. subst p'. unfold send. rewrite Ho, Ev. simpl fst.
  pose proof (translate_handled (queue p) e (addressed p e)) as Hu.
  unfold process.
  destruct (translate (queue p) e (addressed p e)) as [ev1 u]. simpl in Hu. subst u.
  split; [| split].
  - intros Hh. rewrite Hh. simpl. auto.
  - intros Hh. rewrite Hh. simpl. exists ev1.
    destruct (output_ret w =? - EAGAIN); simpl; auto.
  - unfold handled, channel_voice, tempo_meta. intros [H | [H1 H2]].
    + rewrite H. simpl.
      destruct (status e =? MIDI_SMF_META_EVENT) eqn:E; [| reflexivity].
      apply Z.eqb_eq in E. rewrite E in H. vm_compute in H. discriminate.
    + rewrite H1. simpl.
      replace (status e =? MIDI_SMF_META_EVENT) with false; [reflexivity |].
      symmetry. apply Z.eqb_neq. exact H2.
Qed.

Lemma send_some (p : player) (w : wake_input) (e : MIDIEvent) (next : list MIDIEvent) :
  event p = e :: next -> alsa_out w = true ->
  send p w = (process p e next (output_ret w), Continue).
Proof.
  intros Ev Ho. unfold send. rewrite Ho, Ev. reflexivity.
Qed.

Lemma process_sent (p : player) (e : MIDIEvent) (next : list MIDIEvent) (ret : Z) :
  handled e = true ->
  let ev1 := fst (translate (queue p) e (addressed p e)) in
  process p e next ret =
    (if ret =? - EAGAIN
     then emit [Output ev1 ret] (set_evt ev1 p)
     else set_event next (emit [Output ev1 ret; DbgLog false e] (set_evt ev1 p))).
Proof.
  intros Hh ev1. subst ev1.
  pose proof (translate_handled (queue p) e (addressed p e)) as Hu.
  unfold process. destruct (translate (queue p) e (addressed p e)) as [ev1 u].
  simpl in Hu. subst u. rewrite Hh. reflexivity.
Qed.

(** X12. When the sequencer answers [-EAGAIN] the cursor stays where it is,
    nothing is logged, and the next turn with room in the buffer hands over
    the very same event. *)
Theorem output_retry (p : player) (w w' : wake_input)
        (e : MIDIEvent) (next : list MIDIEvent) :
  event p = e :: next ->
  handled e = true ->
  alsa_out w = true -> output_ret w = - EAGAIN ->
  alsa_out w' = true ->
  let p1 := fst (send p w) in
  exists ev,
    trace p1 = trace p ++ [Output ev (- EAGAIN)] /\
    event p1 = e :: next /\
    consumed (trace p1) = consumed (trace p) /\
    trace (fst (send p1 w')) =
      trace p1 ++ Output ev (output_ret w')
               :: (if output_ret w' =? - EAGAIN then [] else [DbgLog false e]).
Proof.
  intros Ev Hh Ho Hr Ho' p1.
  set (ev1 := fst (translate (queue p) e (addressed p e))).
  assert (Hp1 : p1 = emit [Output ev1 (- EAGAIN)] (set_evt ev1 p)).
  { subst p1. rewrite (send_some p w e next Ev Ho), Hr. simpl fst.
    rewrite (process_sent p e next (- EAGAIN) Hh). rewrite Z.eqb_refl. reflexivity. }
  assert (Ev1 : event p1 = e :: next) by (rewrite Hp1; exact Ev).
  exists ev1. split; [rewrite Hp1; reflexivity |]. split; [exact Ev1 |].
  split; [rewrite Hp1; simpl; rewrite consumed_app, app_nil_r; reflexivity |].
  rewrite (send_some p1 w' e next Ev1 Ho'). simpl fst.
  rewrite (process_sent p1 e next (output_ret w') Hh).
  assert (Hsame : fst (translate (queue p1) e (addressed p1 e)) = ev1).
  { rewrite Hp1.
    apply (translate_again (queue p) e (evt p)
             (client (dstaddr (song p))) (port (dstaddr (song p))) Hh). }
  rewrite Hsame.
  destruct (output_ret w' =? - EAGAIN); simpl; rewrite <- ?app_assoc; reflexivity.
Qed.

(** ** Leaving the loop *)

Lemma direct_outputs_app (a b : list action) :
  direct_outputs (a ++ b) = direct_outputs a ++ direct_outputs b.
Proof. unfold direct_outputs. apply flat_map_app. Qed.

Lemma direct_outputs_map (l : list snd_seq_event) :
  direct_outputs (map OutputDirect l) = l.
Proof.
  induction l as [| ev l IH]; [reflexivity |]. simpl. rewrite IH. reflexivity.
Qed.

(** The messages of the cleanup sequence. *)
Lemma cleanup_messages (p : player) :
  let l := direct_outputs (cleanup p) in
  cleanup p = [Nonblock false; DropOutput; StopQueue (queue p); DrainOutput;
               FreeQueue (queue p)] ++ map OutputDirect l /\
  length l = 64%nat /\
  forall i, (i < 64)%nat ->
    nth i l snd_seq_ev_clear =
      {| type := SND_SEQ_EVENT_CONTROLLER; sched := QueueDirect;
         source := source (evt p); dest := dest (evt p);
         data := DataControl (Z.of_nat (i / 4))
                             (nth (i mod 4) closing_controllers 0) 0 |}.
Proof.
  intros l. subst l. unfold cleanup.
  rewrite direct_outputs_app, direct_outputs_map.
  split; [reflexivity |]. split; [reflexivity |].
  intros i Hi.
  do 64 (destruct i as [| i]; [reflexivity |]). lia.
Qed.

(** X13. The closing broadcast: after the queue is freed the thread sends
    64 controller messages without a queue, for each of the channels 0 to 15
    in turn the controllers 64 (sustain), 123 (all notes off), 121 (reset
    controllers) and 120 (all sounds off) with value 0, all from the source
    and to the destination the main event has when the loop is left. *)
Theorem closing_broadcast (p : player) :
  let l := direct_outputs (cleanup p) in
  cleanup p = [Nonblock false; DropOutput; StopQueue (queue p); DrainOutput;
               FreeQueue (queue p)] ++ map OutputDirect l /\
  length l = 64%nat /\
  forall i, (i < 64)%nat ->
    nth i l snd_seq_ev_clear =
      {| type := SND_SEQ_EVENT_CONTROLLER; sched := QueueDirect;
         source := source (evt p); dest := dest (evt p);
         data := DataControl (Z.of_nat (i / 4))
                             (nth (i mod 4) closing_controllers 0) 0 |}.
Proof.
  apply cleanup_messages.
Qed.

(** With the cursor at the end and the counter at zero, a turn leaves the
    main event alone. *)
Lemma wake_tail (p : player) (w : wake_input) :
  event p = [] -> loopcount (song p) = 0 ->
  evt (fst (wake p w)) = evt p /\ event (fst (wake p w)) = [] /\
  loopcount (song (fst (wake p w))) = 0 /\ snd (wake p w) <> Fault.
Proof.
  intros Ev Hl. unfold wake.
  destruct (poll_ret w <=? 0); [simpl; repeat split; auto; try discriminate |].
  assert (H2 : evt (after_input (after_command p w) w) = evt p /\
               event (after_input (after_command p w) w) = [] /\
               loopcount (song (after_input (after_command p w) w)) = 0).
  { assert (Hc : evt (after_command p w) = evt p /\ event (after_command p w) = [] /\
                 loopcount (song (after_command p w)) = 0).
    { unfold after_command. destruct (_ && _); [| auto].
      unfold command.
      repeat match goal with
             | |- context [if ?c then _ else _] => destruct c; [simpl; auto |]
             end.
      auto. }
    destruct Hc as (H1 & H2 & H3).
    unfold after_input. destruct (_ && _); simpl; auto. }
  destruct H2 as (H1 & H2 & H3).
  set (p2 := after_input (after_command p w) w) in *.
  rewrite H2. destruct (playback_finished p2).
  - rewrite H3. simpl. repeat split; auto; try discriminate.
  - simpl. destruct (drain_ret w =? 0); simpl; repeat split; auto; try discriminate.
Qed.

Lemma loop_tail (ws : list wake_input) (p : player) :
  event p = [] -> loopcount (song p) = 0 ->
  match loop p ws with
  | Running p' => evt p' = evt p
  | Returned p' => exists p0, p' = teardown p0 /\ evt p0 = evt p
  | Faulted _ => False
  end.
Proof.
  revert p. induction ws as [| w ws IH]; intros p Ev Hl; simpl; [reflexivity |].
  destruct (wake_tail p w Ev Hl) as (H1 & H2 & H3 & H4).
  destruct (wake p w) as [p1 [| |]]; simpl in *.
  - specialize (IH p1 H2 H3). destruct (loop p1 ws) as [p' | p' | p'].
    + congruence.
    + destruct IH as (p0 & Hp & He). exists p0. split; [exact Hp | congruence].
    + exact IH.
  - exists p1. auto.
  - apply H4. reflexivity.
Qed.

(** X14. When the last event of a session that does not loop is a tempo
    change, the main event is still addressed to the system timer when the
    loop is left, whatever happens in between: every message of the closing
    broadcast goes to the system timer and none to the destination of the
    song. *)
Theorem broadcast_after_tempo (p : player) (e : MIDIEvent) (w : wake_input)
        (ws : list wake_input) (p' : player) :
  event p = [e] -> tempo_meta e = true -> loopcount (song p) = 0 ->
  0 < poll_ret w -> frame_read w = None ->
  alsa_out w = true -> output_ret w <> - EAGAIN ->
  loop p (w :: ws) = Returned p' ->
  exists p0, p' = teardown p0 /\
    trace p' = trace p0 ++ SetState NATIVE_MIDI_STOPPED :: cleanup p0 /\
    Forall (fun ev => dest ev = system_timer) (direct_outputs (cleanup p0)).
Proof.
  intros Ev Ht Hl Hp Hf Ho Hr Hrun.
  assert (Hc : after_command p w = p).
  { unfold after_command. unfold frame_read in Hf.
    replace (0 <? poll_ret w) with true in Hf by (symmetry; apply Z.ltb_lt; exact Hp).
    simpl in Hf. destruct (cmdsock_in w && (read_ret w =? CMD_PKT_LEN)); [discriminate |].
    reflexivity. }
  destruct (after_input_frame p w) as (Hs2 & _ & Hq2 & He2 & _).
  set (p2 := after_input p w) in *.
  assert (Hw : wake p w = (process p2 e [] (output_ret w), Continue)).
  { unfold wake. replace (poll_ret w <=? 0) with false by (symmetry; apply Z.leb_gt; exact Hp).
    rewrite Hc. fold p2. rewrite He2, Ev. apply send_some; [congruence | exact Ho]. }
  simpl in Hrun. rewrite Hw in Hrun.
  assert (Hh : handled e = true) by (unfold handled; rewrite Ht; apply orb_true_r).
  pose proof (process_sent p2 e [] (output_ret w) Hh) as Hps. cbv zeta in Hps.
  replace (output_ret w =? - EAGAIN) with false in Hps
    by (symmetry; apply Z.eqb_neq; exact Hr).
  set (p3 := process p2 e [] (output_ret w)) in *.
  assert (Hd : dest (evt p3) = system_timer).
  { rewrite Hps. cbn [evt set_event emit set_evt].
    unfold translate, tempo_meta in *.
    apply andb_prop in Ht. destruct Ht as [Ht H3]. apply andb_prop in Ht.
    destruct Ht as [H1 H2]. apply Z.eqb_eq in H1.
    rewrite H1, H2, H3. reflexivity. }
  assert (Ev3 : event p3 = []) by (rewrite Hps; reflexivity).
  assert (Hl3 : loopcount (song p3) = 0) by (rewrite Hps; simpl; congruence).
  pose proof (loop_tail ws p3 Ev3 Hl3) as Htail. rewrite Hrun in Htail.
  destruct Htail as (p0 & Hp0 & He0).
  exists p0. split; [exact Hp0 |]. split; [rewrite Hp0; apply teardown_trace |].
  destruct (cleanup_messages p0) as (_ & Hlen & Hnth).
  apply List.Forall_forall. intros ev Hin.
  destruct (In_nth _ _ snd_seq_ev_clear Hin) as (i & Hi & <-).
  rewrite Hlen in Hi. rewrite (Hnth i Hi). simpl. rewrite He0. exact Hd.
Qed.

(** ** The session in any environment *)

Lemma loop_inv_left (evs : list MIDIEvent) (L : Z) (p : player) :
  loop_inv evs L p -> left_inv evs L p.
Proof.
  intros (_ & n & past & H1 & H2 & H3 & H4 & _ & H6).
  exists n, past, (event p). auto.
Qed.

Lemma wake_quit (p : player) (w : wake_input) :
  quit_read w = true ->
  wake p w = (after_input (command p THREAD_CMD_QUIT (readbuf_1 w)) w, Break).
Proof.
  unfold quit_read. intros H.
  destruct (frame_read w) as [[op x] |] eqn:Hf; [| discriminate].
  apply Z.eqb_eq in H. subst op.
  destruct (frame_read_some w _ _ Hf) as (Hp & _ & <- & Hc).
  unfold wake. replace (poll_ret w <=? 0) with false by (symmetry; apply Z.leb_gt; lia).
  rewrite Hc. unfold after_input, command. simpl.
  destruct (alsa_in w && _); reflexivity.
Qed.

(** One turn in any environment: it does not fault, it keeps the
    invariant if the loop goes on, and it leaves the events consumed in
    order if the loop is left. *)
Lemma wake_any (evs : list MIDIEvent) (L : Z) (p : player) (w : wake_input) :
  evs <> [] -> loop_inv evs L p ->
  snd (wake p w) <> Fault /\
  (snd (wake p w) = Continue -> loop_inv evs L (fst (wake p w))) /\
  (snd (wake p w) = Break -> left_inv evs L (fst (wake p w))).
Proof.
  intros Hne Hi.
  destruct (poll_ret w <=? 0) eqn:Hp.
  { unfold wake. rewrite Hp. simpl.
    split; [discriminate |]. split; [discriminate |]. intros _. apply loop_inv_left, Hi. }
  apply Z.leb_gt in Hp.
  destruct (quit_read w) eqn:Hq.
  - rewrite (wake_quit p w Hq). simpl.
    split; [discriminate |]. split; [discriminate |]. intros _.
    destruct Hi as (_ & n & past & H1 & H2 & H3 & H4 & _ & H6).
    exists n, past, (event p).
    destruct (after_input_frame (command p THREAD_CMD_QUIT (readbuf_1 w)) w)
      as (_ & _ & _ & _ & ->).
    auto.
  - destruct (wake_inv evs L p w Hne (conj Hp Hq) Hi) as (Hi' & Hf & _).
    split; [exact Hf |]. split; [intros _; exact Hi' |].
    intros _. apply loop_inv_left, Hi'.
Qed.

Lemma teardown_left (evs : list MIDIEvent) (L : Z) (p : player) :
  left_inv evs L p -> left_inv evs L (teardown p).
Proof.
  intros (n & past & rest & H1 & H2 & H3 & H4 & H5).
  destruct (teardown_counters p) as (E1 & E2 & E3 & _).
  exists n, past, rest. rewrite E1, E2, E3. auto.
Qed.

Lemma loop_any (evs : list MIDIEvent) (L : Z) (ws : list wake_input) (p : player) :
  evs <> [] -> loop_inv evs L p ->
  match loop p ws with
  | Running p' => loop_inv evs L p'
  | Returned p' => left_inv evs L p'
  | Faulted _ => False
  end.
Proof.
  intros Hne. revert p. induction ws as [| w ws IH]; intros p Hi; simpl; [exact Hi |].
  destruct (wake_any evs L p w Hne Hi) as (Hf & Hc & Hb).
  destruct (wake p w) as [p' [| |]]; simpl in *.
  - apply IH, Hc. reflexivity.
  - apply teardown_left, Hb. reflexivity.
  - apply Hf. reflexivity.
Qed.

Lemma wake_constants (p : player) (w : wake_input) :
  constants (song (fst (wake p w))) = constants (song p) /\
  playerthread (song (fst (wake p w))) = playerthread (song p).
Proof.
  unfold wake. destruct (poll_ret w <=? 0); [split; reflexivity |].
  assert (H2 : constants (song (after_input (after_command p w) w)) = constants (song p) /\
               playerthread (song (after_input (after_command p w) w)) = playerthread (song p)).
  { destruct (after_input_frame (after_command p w) w) as (-> & _).
    unfold after_command. destruct (_ && _); [| split; reflexivity].
    destruct (command_frame p (readbuf_0 w) (readbuf_1 w)) as (H1 & H2 & _). auto. }
  destruct H2 as [H1 H2].
  set (p2 := after_input (after_command p w) w) in *.
  destruct (event p2).
  - destruct (playback_finished p2).
    + destruct (loopcount (song p2) =? 0); [auto |].
      destruct (send_frame (rewind p2 w) w) as (-> & _).
      destruct (rewind_frame p2 w) as (-> & -> & _). auto.
    + destruct (drain_ret w =? 0); auto.
  - destruct (send_frame p2 w) as (-> & _). auto.
Qed.

Lemma loop_constants (ws : list wake_input) (p : player) :
  constants (song (run_player (loop p ws))) = constants (song p) /\
  playerthread (song (run_player (loop p ws))) = playerthread (song p).
Proof.
  revert p. induction ws as [| w ws IH]; intros p; simpl; [auto |].
  destruct (wake_constants p w) as [H1 H2].
  destruct (wake p w) as [p' [| |]]; simpl in *.
  - destruct (IH p') as [H3 H4]. split; congruence.
  - auto.
  - auto.
Qed.

(** X15. Whatever the environment answers (failing polls, short reads,
    any frames, any sequencer errors), a session on a non-empty event list
    never uses the cursor when it is [NULL]; the events its cursor went over
    are whole passes over the list followed by a prefix of it, in list order;
    with [n] rewinds it has enqueued [n + 1] sentinels; with a loop count
    [L >= 0] it makes at most [L] rewinds; and it changes nothing of the song
    but the loop count and the playback state. *)
Theorem session_in_any_environment
        (s : NativeMidiSong) (env : setup_env) (ws : list wake_input) :
  evtlist s <> [] ->
  let r := native_midi_player_thread s env ws in
  let tr := trace (run_player r) in
  faulted r = false /\
  (exists (n : nat) (past rest : list MIDIEvent),
     evtlist s = past ++ rest /\
     consumed tr = passes (evtlist s) n ++ past /\
     sentinels tr = S n /\ rewinds tr = n /\
     (0 <= loopcount s -> Z.of_nat n <= loopcount s)) /\
  constants (song (run_player r)) = constants s /\
  playerthread (song (run_player r)) = playerthread s.
Proof.
  intros Hne r tr. subst tr r. unfold native_midi_player_thread.
  pose proof (loop_any (evtlist s) (loopcount s) ws (setup s env) Hne (setup_inv s env)) as H.
  destruct (loop_constants ws (setup s env)) as [Hc Ht].
  split; [destruct (loop _ ws); [reflexivity | reflexivity | contradiction] |].
  split; [| split; [exact Hc | exact Ht]].
  destruct (loop _ ws) as [p | p | p]; simpl.
  - apply loop_inv_left in H. exact H.
  - exact H.
  - contradiction.
Qed.

(** ** Write readiness *)

Lemma wake_pollout (p : player) (w : wake_input) :
  (event p <> [] -> pollout p = true) ->
  event (fst (wake p w)) <> [] -> pollout (fst (wake p w)) = true.
Proof.
  intros Hi. unfold wake. destruct (poll_ret w <=? 0); [exact Hi |].
  assert (H2 : event (after_input (after_command p w) w) <> [] ->
               pollout (after_input (after_command p w) w) = true).
  { assert (Hc : event (after_command p w) <> [] -> pollout (after_command p w) = true).
    { unfold after_command. destruct (_ && _); [| exact Hi].
      unfold command.
      repeat match goal with
             | |- context [if ?c then _ else _] => destruct c; [simpl; auto |]
             end.
      exact Hi. }
    unfold after_input. destruct (_ && _); simpl; exact Hc. }
  set (p2 := after_input (after_command p w) w) in *.
  assert (Hsend : forall q, pollout q = true -> pollout (fst (send q w)) = true).
  { intros q Hq. destruct (send_frame q w) as (_ & _ & _ & _ & ->). exact Hq. }
  destruct (event p2) as [| e next] eqn:Ev.
  - destruct (playback_finished p2).
    + destruct (loopcount (song p2) =? 0); [simpl; rewrite Ev; intros H; contradiction |].
      intros _. apply Hsend. unfold rewind.
      destruct (0 <? loopcount (song p2)); reflexivity.
    + destruct (drain_ret w =? 0); simpl; rewrite Ev; intros H; contradiction.
  - intros _. apply Hsend, H2. discriminate.
Qed.

(** X16. The thread stops asking [poll] for write readiness only with the
    cursor at the end of the list: as long as an event is left to send,
    POLLOUT is among the events it waits for, in every environment. *)
Theorem pollout_while_events_remain
        (s : NativeMidiSong) (env : setup_env) (ws : list wake_input) (p : player) :
  native_midi_player_thread s env ws = Running p ->
  event p <> [] -> pollout p = true.
Proof.
  unfold native_midi_player_thread.
  assert (H0 : event (setup s env) <> [] -> pollout (setup s env) = true)
    by (intros _; reflexivity).
  revert H0. generalize (setup s env) as p0. intros p0. revert p0.
  induction ws as [| w ws IH]; intros p0 H0 Hrun; simpl in Hrun.
  - injection Hrun as <-. exact H0.
  - pose proof (wake_pollout p0 w H0) as H1.
    destruct (wake p0 w) as [p1 [| |]]; try discriminate.
    apply (IH p1 H1 Hrun).
Qed.

(** ** More about threads and controller together *)

Lemma wake_no_fault (p : player) (w : wake_input) :
  evtlist (song p) <> [] -> snd (wake p w) <> Fault.
Proof.
  intros Hne. unfold wake. destruct (poll_ret w <=? 0); [discriminate |].
  assert (H2 : evtlist (song (after_input (after_command p w) w)) = evtlist (song p)).
  { destruct (after_input_frame (after_command p w) w) as (-> & _).
    unfold after_command. destruct (_ && _); [| reflexivity].
    destruct (command_frame p (readbuf_0 w) (readbuf_1 w)) as (H1 & _).
    unfold constants in H1. congruence. }
  set (p2 := after_input (after_command p w) w) in *.
  assert (Hsend : forall q, event q <> [] -> snd (send q w) <> Fault).
  { intros q Hq. unfold send. destruct (negb (alsa_out w)); [discriminate |].
    destruct (event q); [contradiction | discriminate]. }
  destruct (event p2) as [| e next] eqn:Ev.
  - destruct (playback_finished p2).
    + destruct (loopcount (song p2) =? 0); [discriminate |].
      apply Hsend. unfold rewind.
      destruct (0 <? loopcount (song p2)); simpl; congruence.
    + discriminate.
  - apply Hsend. congruence.
Qed.

Lemma start_thread_heap (w : world) (l : nat) (loops : Z) (created : option nat)
      (l0 : nat) (s0 : NativeMidiSong) :
  heap (fst (start_thread w l loops created)) !! l0 = Some s0 ->
  exists s, heap w !! l0 = Some s /\ evtlist s0 = evtlist s.
Proof.
  unfold start_thread. destruct (heap w !! l) as [s |] eqn:Hl; simpl.
  - destruct (decide (l = l0)) as [Heq | Hne].
    + rewrite <- Heq, lookup_insert_eq. intros H. injection H as <-.
      exists s. auto.
    + rewrite lookup_insert_ne by exact Hne. intros H. exists s0. auto.
  - intros H. exists s0. auto.
Qed.

Lemma store_heap (w : world) (l : nat) (s s' : NativeMidiSong)
      (l0 : nat) (s0 : NativeMidiSong) :
  heap w !! l = Some s -> evtlist s' = evtlist s ->
  heap (store l s' w) !! l0 = Some s0 ->
  exists s1, heap w !! l0 = Some s1 /\ evtlist s0 = evtlist s1.
Proof.
  intros Hl He. simpl. destruct (decide (l = l0)) as [Heq | Hne].
  - rewrite <- Heq, lookup_insert_eq. intros H. injection H as <-. exists s. auto.
  - rewrite lookup_insert_ne by exact Hne. intros H. exists s0. auto.
Qed.

(** Every song of a reachable system has events. *)
Lemma reachable_events (σ : system) :
  reachable σ -> forall l s, heap (shared σ) !! l = Some s -> evtlist s <> [].
Proof.
  unfold reachable. revert σ.
  apply (rtc_ind_r (fun σ => forall l s, heap (shared σ) !! l = Some s -> evtlist s <> [])).
  { intros l s H. simpl in H. rewrite lookup_empty in H. discriminate. }
  intros σ1 σ2 _ Hstep IH l0 s0.
  assert (Hkeep : (forall s1, heap (shared σ1) !! l0 = Some s1 /\ evtlist s0 = evtlist s1 ->
                              evtlist s0 <> [])).
  { intros s1 [H1 H2]. rewrite H2. apply (IH l0 s1 H1). }
  destruct Hstep as [σ l env w' Hc Hl Hload
                    | σ a w' acts Hc Hp Hfresh
                    | σ a t acts rest Hc Hp
                    | σ t l rest created w' acts Hc Ht Hr Hfresh
                    | σ t l s env Ht Hl
                    | σ t l s p p' w o Ht Hl Hw Ho
                    | σ t l s p Ht Hl]; simpl.
  - unfold native_midi_loadsong_RW in Hload.
    destruct (loadsong env) as [s |] eqn:Hs; [| discriminate].
    injection Hload as <-. simpl.
    destruct (decide (l = l0)) as [Heq | Hne].
    + rewrite <- Heq, lookup_insert_eq. intros H. injection H as <-.
      unfold loadsong in Hs.
      destruct (le_sockets env) as [[a b] |]; [| discriminate].
      destruct (le_events env) as [| e next]; [discriminate |].
      destruct (le_seq env) as [[c q] |]; [| discriminate].
      injection Hs as <-. discriminate.
    + rewrite lookup_insert_ne by exact Hne. apply IH.
  - destruct (perform_ret _ _ _ _ Hp) as [(-> & _) | (l & s & loops & created & _ & _ & -> & _)].
    + apply IH.
    + intros H. destruct (start_thread_heap _ _ _ _ _ _ H) as (s1 & H1). apply (Hkeep s1 H1).
  - apply IH.
  - destruct rest as [l' loops | l']; simpl in Hr.
    + assert (Hw : w' = fst (start_thread (shared σ) l' loops created)) by (rewrite Hr; reflexivity).
      subst w'. intros H.
      destruct (start_thread_heap _ _ _ _ _ _ H) as (s1 & H1). apply (Hkeep s1 H1).
    + destruct (heap (shared σ) !! l') as [s |] eqn:Hl'; injection Hr as <- _; [| apply IH].
      intros H.
      destruct (store_heap _ _ s (set_playerthread None s) _ _ Hl' eq_refl H) as (s1 & H1).
      apply (Hkeep s1 H1).
  - intros H.
    destruct (store_heap _ _ s (song (setup s env)) _ _ Hl eq_refl H) as (s1 & H1).
    apply (Hkeep s1 H1).
  - intros H.
    assert (He : evtlist (song p') = evtlist s).
    { destruct (wake_constants (view s p) w) as [Hcst _]. rewrite Hw in Hcst.
      unfold constants in Hcst. simpl in Hcst. congruence. }
    destruct (store_heap _ _ s _ _ _ Hl He H) as (s1 & H1). apply (Hkeep s1 H1).
  - intros H.
    destruct (store_heap _ _ s (song (teardown (view s p))) _ _ Hl eq_refl H) as (s1 & H1).
    apply (Hkeep s1 H1).
Qed.

(** X17. In no reachable system can a turn of a player thread use the
    cursor when it is [NULL], whatever the environment answers: the event
    list of a loaded song is never empty, and nothing changes it. *)
Theorem null_cursor_unreachable (σ : system) (t l : nat) (p : player)
        (s : NativeMidiSong) (w : wake_input) :
  reachable σ ->
  threads σ !! t = Some (l, InLoop p) ->
  heap (shared σ) !! l = Some s ->
  evtlist s <> [] /\ snd (wake (view s p) w) <> Fault.
Proof.
  intros Hr Ht Hl. pose proof (reachable_events σ Hr l s Hl) as Hne.
  split; [exact Hne |]. apply wake_no_fault. exact Hne.
Qed.

(** X18. A song never has two player threads: in a reachable system the
    threads not yet waited for play different songs, and each is the thread
    whose handle its song holds. *)
Theorem one_thread_per_song (σ : system) (t1 t2 l : nat) (ph1 ph2 : phase) :
  reachable σ ->
  threads σ !! t1 = Some (l, ph1) ->
  threads σ !! t2 = Some (l, ph2) ->
  t1 = t2 /\ exists s, heap (shared σ) !! l = Some s /\ playerthread s = Some t1.
Proof.
  intros Hr H1 H2. pose proof (reachable_inv σ Hr) as Hinv.
  destruct (inv_thread σ Hinv t1 l ph1 H1) as (s1 & Hl1 & Hs1 & _).
  destruct (inv_thread σ Hinv t2 l ph2 H2) as (s2 & Hl2 & Hs2 & _).
  split; [congruence |]. exists s1. auto.
Qed.

(** X19. [native_midi_active] follows the thread of the current song: it
    answers 1 from the moment the thread is created until the thread has
    written STOPPED on leaving its loop, and 0 once the thread has returned.
    Without a thread it answers 0, unless the song was left in STARTING by a
    thread creation that failed. *)
Theorem active_follows_thread (σ : system) (l : nat) (s : NativeMidiSong) :
  reachable σ ->
  currentsong (shared σ) = Some l ->
  heap (shared σ) !! l = Some s ->
  (forall t ph, threads σ !! t = Some (l, ph) ->
     native_midi_active (shared σ) = match ph with Done => 0 | _ => 1 end) /\
  (playerthread s = None ->
     native_midi_active (shared σ) =
       if state_eqb (playerstate s) NATIVE_MIDI_STARTING then 1 else 0).
Proof.
  intros Hr Hc Hl. pose proof (reachable_inv σ Hr) as Hinv.
  assert (Ha : native_midi_active (shared σ) =
               if state_val NATIVE_MIDI_STOPPED <? state_val (playerstate s) then 1 else 0).
  { unfold native_midi_active, deref. rewrite Hc, Hl. reflexivity. }
  rewrite Ha. split.
  - intros t ph Ht.
    destruct (inv_thread σ Hinv t l ph Ht) as (s0 & Hl0 & _ & Hst).
    assert (s0 = s) by congruence. subst s0.
    destruct ph; simpl in Hst; try (destruct Hst as [Hst | Hst]); rewrite Hst; reflexivity.
  - intros Hth. destruct (inv_idle σ Hinv l s Hl Hth) as [-> | ->]; reflexivity.
Qed.

(** X20. When [SDL_CreateThread] fails, [native_midi_start] still returns
    normally and leaves the song in STARTING without a thread:
    [native_midi_active] answers 1 from then on, and [native_midi_stop],
    [native_midi_resume] and [native_midi_setvolume] do nothing about it. *)
Theorem failed_thread_creation (w : world) (l : nat) (s : NativeMidiSong)
        (loops wr : Z) :
  currentsong w = Some l ->
  heap w !! l = Some s ->
  playerthread s = None ->
  exists w',
    native_midi_start w (Some l) loops wr None = Ret w' [CtlCreateThread l None] /\
    native_midi_active w' = 1 /\
    (forall wr', native_midi_stop w' wr' = Ret w' []) /\
    (forall wr', native_midi_resume w' wr' = Ret w' []) /\
    (forall v wr', native_midi_setvolume w' v wr' = Ret w' []).
Proof.
  intros Hc Hl Hth.
  exists (store l (set_playerthread None
                     (set_playerstate NATIVE_MIDI_STARTING (set_loopcount loops s))) w).
  split.
  { unfold native_midi_start, start_thread. rewrite Hl, Hth. reflexivity. }
  unfold native_midi_active, native_midi_stop, native_midi_resume, native_midi_setvolume,
    deref.
  cbn [currentsong store heap]. rewrite Hc, lookup_insert_eq. simpl.
  repeat split.
Qed.

(** X21. Every frame a control call writes is one the thread understands:
    two bytes, the first of them QUIT, PAUSE, RESUME or SETVOL, written to
    the main socket of a song in the heap; a call writes at most one frame. *)
Theorem frames_wellformed (w : world) (a : api) (sock : Z) (pkt : list Z) (wr : Z) :
  In (CtlWrite sock pkt wr) (call_actions (perform w a)) ->
  call_actions (perform w a) = [CtlWrite sock pkt wr] /\
  (exists op x, pkt = [op; x] /\ 0 <= x < 256 /\
                (op = THREAD_CMD_QUIT \/ op = THREAD_CMD_PAUSE \/
                 op = THREAD_CMD_RESUME \/ op = THREAD_CMD_SETVOL)) /\
  (exists l s, heap w !! l = Some s /\ sock = mainsock s).
Proof.
  destruct a as [song loops wr0 created | wr0 | wr0 | wr0 | volume wr0]; simpl.
  - unfold native_midi_start.
    destruct song as [l |]; [| intros []].
    destruct (heap w !! l) as [s |] eqn:Hl; [| intros []].
    destruct (playerthread s) as [t |].
    + destruct (deref w (currentsong w)); [| intros []].
      destruct (_ <? _); [destruct (negb _) |]; simpl; intros Hin; try contradiction;
        destruct Hin as [Hin | []]; injection Hin as <- <- <-;
        (split; [reflexivity |]); (split; [| exists l, s; auto]);
        exists THREAD_CMD_QUIT, 0; (split; [reflexivity |]); (split; [lia |]); left; reflexivity.
    + unfold start_thread. rewrite Hl. simpl. intros [Hin | []]. discriminate.
  - unfold native_midi_pause, deref.
    destruct (currentsong w) as [l |]; [| intros []].
    destruct (heap w !! l) as [s |] eqn:Hl; [| intros []].
    destruct (_ || _); simpl; [intros [] |]. intros [Hin | []]. injection Hin as <- <- <-.
    split; [reflexivity |]. split; [| exists l, s; auto].
    exists THREAD_CMD_PAUSE, 0. split; [reflexivity |]. split; [lia |]. right. left. reflexivity.
  - unfold native_midi_resume, deref.
    destruct (currentsong w) as [l |]; [| intros []].
    destruct (heap w !! l) as [s |] eqn:Hl; [| intros []].
    destruct (_ || _); simpl; [intros [] |]. intros [Hin | []]. injection Hin as <- <- <-.
    split; [reflexivity |]. split; [| exists l, s; auto].
    exists THREAD_CMD_RESUME, 0. split; [reflexivity |]. split; [lia |]. right. right. left. reflexivity.
  - unfold native_midi_stop.
    destruct (currentsong w) as [l |]; [| intros []].
    destruct (heap w !! l) as [s |] eqn:Hl; [| intros []].
    destruct (playerthread s) as [t |]; [| intros []].
    destruct (_ <? _); [destruct (negb _) |]; simpl; intros Hin; try contradiction;
      destruct Hin as [Hin | []]; injection Hin as <- <- <-;
      (split; [reflexivity |]); (split; [| exists l, s; auto]);
      exists THREAD_CMD_QUIT, 0; (split; [reflexivity |]); (split; [lia |]); left; reflexivity.
  - unfold native_midi_setvolume, deref.
    destruct (currentsong w) as [l |]; [| intros []].
    destruct (heap w !! l) as [s |] eqn:Hl; [| intros []].
    destruct (negb _); simpl; [intros [] |]. intros [Hin | []]. injection Hin as <- <- <-.
    split; [reflexivity |]. split; [| exists l, s; auto].
    exists THREAD_CMD_SETVOL, (clamp_volume volume mod 256).
    split; [reflexivity |]. split; [apply Z.mod_pos_bound; lia |]. right. right. right. reflexivity.
Qed.

(** X22. [native_midi_start] on a song that has a thread looks at the
    playback state of the current song, not at that of the song it is given:
    when another song is current and stopped, it waits for the thread of its
    song without having written a QUIT frame, also while that thread plays;
    when the current song is not stopped it writes the frame to the socket of
    the song it is given. *)
Theorem start_tests_current_song (w : world) (l l' : nat) (s cur : NativeMidiSong)
        (t : nat) (loops wr : Z) (created : option nat) :
  heap w !! l = Some s -> playerthread s = Some t ->
  currentsong w = Some l' -> heap w !! l' = Some cur ->
  native_midi_start w (Some l) loops wr created =
    if state_eqb (playerstate cur) NATIVE_MIDI_STOPPED
    then Join t [] (PendingStart l loops)
    else if wr =? CMD_PKT_LEN
         then Join t [quit_write (mainsock s) wr] (PendingStart l loops)
         else Ret w [quit_write (mainsock s) wr].
Proof.
  intros Hl Hth Hc Hl'. unfold native_midi_start, deref.
  rewrite Hl, Hth, Hc, Hl'.
  destruct (playerstate cur); simpl; try reflexivity;
    destruct (wr =? CMD_PKT_LEN); reflexivity.
Qed.

(** ** Further instances *)

Ltac not_in_tac :=
  let H := fresh "H" in
  intros H; vm_compute in H;
  repeat (destruct H as [H | H]; [discriminate H |]); exact H.

Lemma playing_reachable : reachable playing_system.
Proof.
  unfold reachable.
  eapply rtc_l.
  { eapply (step_load initial 0%nat short_load); vm_compute; reflexivity. }
  eapply rtc_l.
  { eapply (step_return _ (Start (Some 0%nat) 0 2 (Some 5%nat)));
      [vm_compute; reflexivity | vm_compute; reflexivity |].
    intros l t [H | []]. vm_compute. reflexivity. }
  eapply rtc_l.
  { eapply (step_setup _ 5%nat 0%nat _ sample_setup); vm_compute; reflexivity. }
  apply rtc_end. vm_compute. reflexivity.
Qed.

Lemma app_name_wellformed_witness :
  get_app_name sample_name_env = Name (chars "game"%string) /\
  chars "game"%string <> [] /\ ~ In "000"%char (chars "game"%string) /\ ~ In "/"%char (chars "game"%string).
Proof.
  assert (H1 : get_app_name sample_name_env = Name (chars "game"%string)) by (vm_compute; reflexivity).
  assert (H2 : 0 < pathmax sample_name_env) by (vm_compute; reflexivity).
  destruct (app_name_wellformed sample_name_env (chars "game"%string) H1 H2) as (Ha & Hb & Hc).
  split; [exact H1 |]. split; [exact Ha |]. split; [exact Hb |].
  apply Hc. vm_compute. reflexivity.
Defined.

Lemma app_name_basename_witness : get_app_name sample_name_env = Name (chars "game"%string).
Proof.
  apply (app_name_basename sample_name_env (chars "/usr/bin"%string) (chars "game"%string)
           (chars "--fullscreen"%string ++ ["000"%char])).
  - vm_compute. reflexivity.
  - reflexivity.
  - reflexivity.
  - not_in_tac.
  - not_in_tac.
  - not_in_tac.
  - vm_compute. reflexivity.
Defined.

Lemma app_name_without_slash_witness : get_app_name bare_name_env = NameFault.
Proof.
  apply (app_name_without_slash bare_name_env (chars "game"%string) []).
  - vm_compute. reflexivity.
  - reflexivity.
  - reflexivity.
  - not_in_tac.
  - not_in_tac.
  - vm_compute. reflexivity.
Defined.

Lemma subscribe_first_available_witness :
  subscribe_to_first_available_port sample_seq_env
    (Z.lor SND_SEQ_PORT_TYPE_MIDI_GENERIC SND_SEQ_PORT_TYPE_SYNTHESIZER) 0
  = (0, [ {| cc_client := 129; cc_port := 0; cc_ret := -16 |};
          {| cc_client := 129; cc_port := 1; cc_ret := 0 |} ], 2%nat) /\
  candidates sample_seq_env
    (Z.lor SND_SEQ_PORT_TYPE_MIDI_GENERIC SND_SEQ_PORT_TYPE_SYNTHESIZER)
  = [(129, 0); (129, 1)] /\
  offered sample_seq_env
    (Z.lor SND_SEQ_PORT_TYPE_MIDI_GENERIC SND_SEQ_PORT_TYPE_SYNTHESIZER) (129, 1) /\
  wanted (Z.lor SND_SEQ_PORT_TYPE_MIDI_GENERIC SND_SEQ_PORT_TYPE_SYNTHESIZER)
         {| pi_port := 1; pi_cap := 66; pi_type := 1311746 |} = true.
Proof.
  assert (H : subscribe_to_first_available_port sample_seq_env
                (Z.lor SND_SEQ_PORT_TYPE_MIDI_GENERIC SND_SEQ_PORT_TYPE_SYNTHESIZER) 0
              = (0, [ {| cc_client := 129; cc_port := 0; cc_ret := -16 |};
                      {| cc_client := 129; cc_port := 1; cc_ret := 0 |} ], 2%nat))
    by (vm_compute; reflexivity).
  destruct (subscribe_first_available _ _ _ _ _ _ H) as (_ & _ & _ & Hoff & _).
  split; [exact H |]. split; [vm_compute; reflexivity |].
  split; [| vm_compute; reflexivity].
  inversion Hoff as [| c l Hc Hl]. inversion Hl as [| c' l' Hc' Hl']. exact Hc'.
Defined.

Lemma open_seq_outcome_witness :
  open_seq sample_open_env no_errors =
    (Opened 128 0,
     [SndSeqOpen 0; GetAppName (Name (chars "game"%string)); SetClientName;
      CreateSimplePort 0; FreeName], no_errors) /\
  held_after [SndSeqOpen 0; GetAppName (Name (chars "game"%string)); SetClientName;
              CreateSimplePort 0; FreeName] [] = Some [RSeq; RPort 0].
Proof.
  assert (H : open_seq sample_open_env no_errors =
              (Opened 128 0,
               [SndSeqOpen 0; GetAppName (Name (chars "game"%string)); SetClientName;
                CreateSimplePort 0; FreeName], no_errors))
    by (vm_compute; reflexivity).
  split; [exact H |].
  apply (open_seq_outcome sample_open_env no_errors _ _ _ H).
Defined.

Lemma detect_probe_witness :
  fst (fst (native_midi_detect sample_open_env no_errors)) = Some 1 /\
  held_after (snd (fst (native_midi_detect sample_open_env no_errors))) [] = Some [].
Proof.
  assert (H : native_midi_detect sample_open_env no_errors =
              (Some 1, snd (fst (native_midi_detect sample_open_env no_errors)),
               snd (native_midi_detect sample_open_env no_errors)))
    by (vm_compute; reflexivity).
  split; [vm_compute; reflexivity |].
  apply (detect_probe sample_open_env no_errors _ _ _ H).
Defined.

Lemma load_failure_releases_witness :
  fst (fst (load failing_full_env no_errors)) = LoadFailed /\
  held_after (snd (fst (load failing_full_env no_errors))) [] = Some [] /\
  ~ In RWclose (snd (fst (load failing_full_env no_errors))).
Proof.
  assert (H : load failing_full_env no_errors =
              (LoadFailed, snd (fst (load failing_full_env no_errors)),
               snd (load failing_full_env no_errors)))
    by (vm_compute; reflexivity).
  destruct (load_failure_releases failing_full_env no_errors _ _ H) as (H1 & H2 & _).
  split; [vm_compute; reflexivity |]. split; [exact H1 | exact H2].
Defined.

Lemma load_then_free_witness :
  load sample_full_env no_errors =
    (Loaded loaded_song,
     snd (fst (load sample_full_env no_errors)), no_errors) /\
  held_after (snd (fst (load sample_full_env no_errors))
              ++ native_midi_freesong (Some loaded_song)) [] = Some [] /\
  In RWclose (snd (fst (load sample_full_env no_errors))).
Proof.
  assert (H : load sample_full_env no_errors =
              (Loaded loaded_song,
               snd (fst (load sample_full_env no_errors)), no_errors))
    by (vm_compute; reflexivity).
  destruct (load_then_free sample_full_env no_errors _ _ _ H)
    as (_ & _ & _ & _ & _ & _ & Hfree & Hrw & _).
  split; [exact H |]. split; [exact Hfree |].
  apply Hrw. vm_compute. discriminate.
Defined.

Lemma error_text_after_load_witness :
  native_midi_error (snd (load failing_full_env after_oom)) = MsgOom /\
  native_midi_error (snd (load failing_full_env no_errors)) = MsgCreatePort (-12).
Proof.
  split.
  - apply (error_text_after_load failing_full_env after_oom
             (fst (fst (load failing_full_env after_oom)))
             (snd (fst (load failing_full_env after_oom)))
             (snd (load failing_full_env after_oom))).
    + vm_compute. reflexivity.
    + reflexivity.
  - vm_compute. reflexivity.
Defined.

Lemma send_classification_witness :
  trace (fst (send sample_player send_turn)) =
    trace sample_player
    ++ [Output (snd_seq_ev_set_noteon 0 60 100 (addressed sample_player note_on)) 0;
        DbgLog false note_on] /\
  event (fst (send sample_player send_turn)) = [tempo_change; note_off].
Proof.
  destruct (send_classification sample_player send_turn note_on [tempo_change; note_off]
              eq_refl eq_refl) as (_ & H & _).
  destruct (H eq_refl) as (ev & Ht & He & Hv).
  split; [| exact Hv].
  rewrite Ht. rewrite <- He. vm_compute. reflexivity.
Defined.

Lemma output_retry_witness :
  exists ev,
    trace (fst (send sample_player busy_turn)) =
      trace sample_player ++ [Output ev (- EAGAIN)] /\
    event (fst (send sample_player busy_turn)) = [note_on; tempo_change; note_off] /\
    trace (fst (send (fst (send sample_player busy_turn)) send_turn)) =
      trace (fst (send sample_player busy_turn))
      ++ [Output ev 0; DbgLog false note_on].
Proof.
  destruct (output_retry sample_player busy_turn send_turn note_on [tempo_change; note_off]
              eq_refl eq_refl eq_refl eq_refl eq_refl) as (ev & H1 & H2 & _ & H4).
  exists ev. split; [exact H1 |]. split; [exact H2 | exact H4].
Defined.

Lemma broadcast_after_tempo_witness :
  exists p0,
    run_player (loop (setup tempo_song sample_setup)
                     [send_turn; drain_turn; echo_turn tempo_song]) = teardown p0 /\
    Forall (fun ev => dest ev = system_timer) (direct_outputs (cleanup p0)) /\
    dstaddr tempo_song <> system_timer.
Proof.
  destruct (broadcast_after_tempo (setup tempo_song sample_setup) tempo_change send_turn
              [drain_turn; echo_turn tempo_song]
              (run_player (loop (setup tempo_song sample_setup)
                                [send_turn; drain_turn; echo_turn tempo_song])))
    as (p0 & H1 & _ & H3).
  - reflexivity.
  - reflexivity.
  - reflexivity.
  - reflexivity.
  - reflexivity.
  - reflexivity.
  - vm_compute. discriminate.
  - vm_compute. reflexivity.
  - exists p0. split; [exact H1 |]. split; [exact H3 |]. vm_compute. discriminate.
Defined.

Lemma session_in_any_environment_witness :
  faulted (native_midi_player_thread sample_song sample_setup
             [send_turn; failed_poll]) = false /\
  constants (song (run_player (native_midi_player_thread sample_song sample_setup
                                 [send_turn; failed_poll]))) = constants sample_song.
Proof.
  destruct (session_in_any_environment sample_song sample_setup [send_turn; failed_poll])
    as (H1 & _ & H3 & _).
  - simpl. discriminate.
  - split; [exact H1 | exact H3].
Defined.

Lemma pollout_while_events_remain_witness :
  pollout (run_player (native_midi_player_thread sample_song sample_setup [send_turn]))
  = true.
Proof.
  apply (pollout_while_events_remain sample_song sample_setup [send_turn]).
  - vm_compute. reflexivity.
  - vm_compute. discriminate.
Defined.

Lemma null_cursor_unreachable_witness :
  snd (wake (view (song (setup started_song sample_setup))
                  (setup started_song sample_setup)) send_turn) <> Fault.
Proof.
  apply (null_cursor_unreachable playing_system 5%nat 0%nat
           (setup started_song sample_setup)
           (song (setup started_song sample_setup)) send_turn playing_reachable).
  - vm_compute. reflexivity.
  - vm_compute. reflexivity.
Defined.

Lemma one_thread_per_song_witness :
  exists s, heap (shared played_system) !! 0%nat = Some s /\ playerthread s = Some 5%nat.
Proof.
  apply (one_thread_per_song played_system 5%nat 5%nat 0%nat Done Done played_reachable).
  - vm_compute. reflexivity.
  - vm_compute. reflexivity.
Defined.

Lemma active_follows_thread_witness :
  native_midi_active (shared played_system) = 0 /\
  native_midi_active (shared playing_system) = 1.
Proof.
  split.
  - apply (proj1 (active_follows_thread played_system 0%nat
                    (set_playerthread (Some 5%nat) short_song) played_reachable
                    eq_refl ltac:(vm_compute; reflexivity)) 5%nat Done).
    vm_compute. reflexivity.
  - apply (proj1 (active_follows_thread playing_system 0%nat
                    (song (setup started_song sample_setup)) playing_reachable
                    eq_refl ltac:(vm_compute; reflexivity)) 5%nat
                 (InLoop (setup started_song sample_setup))).
    vm_compute. reflexivity.
Defined.

Lemma failed_thread_creation_witness :
  exists w',
    native_midi_start (world_of NATIVE_MIDI_STOPPED None true) (Some 0%nat) 0 2 None
      = Ret w' [CtlCreateThread 0%nat None] /\
    native_midi_active w' = 1 /\
    native_midi_stop w' 2 = Ret w' [].
Proof.
  destruct (failed_thread_creation (world_of NATIVE_MIDI_STOPPED None true) 0%nat
              (song_of NATIVE_MIDI_STOPPED None true) 0 2)
    as (w' & H1 & H2 & H3 & _).
  - reflexivity.
  - vm_compute. reflexivity.
  - reflexivity.
  - exists w'. split; [exact H1 |]. split; [exact H2 | apply H3].
Defined.

Lemma frames_wellformed_witness :
  call_actions (perform (world_of NATIVE_MIDI_PLAYING (Some 7%nat) true) (SetVolume 300 2))
  = [CtlWrite 3 [THREAD_CMD_SETVOL; 127] 2].
Proof.
  apply (frames_wellformed (world_of NATIVE_MIDI_PLAYING (Some 7%nat) true)
           (SetVolume 300 2) 3 [THREAD_CMD_SETVOL; 127] 2).
  vm_compute. left. reflexivity.
Defined.

Lemma start_tests_current_song_witness :
  native_midi_start two_songs (Some 0%nat) 0 2 (Some 8%nat)
  = Join 7%nat [] (PendingStart 0%nat 0).
Proof.
  apply (start_tests_current_song two_songs 0%nat 1%nat
           (song_of NATIVE_MIDI_PLAYING (Some 7%nat) true)
           (song_of NATIVE_MIDI_STOPPED None true) 7%nat 0 2 (Some 8%nat)).
  - vm_compute. reflexivity.
  - reflexivity.
  - reflexivity.
  - vm_compute. reflexivity.
Defined.
